(** * A segmented HTTP downloader: chunk planning, throttled transfer and
      positional writes

    Shallow embedding of the two program variants [APS1/main.go] and
    [APS2/main.go].  Go's [int64] is a [Z] with its wrap-around written out,
    byte slices are [list byte], the header table and the file system are
    finite maps, a goroutine is the list of actions it still has to perform,
    and the scheduler is an explicit list of picks. *)

From Stdlib Require Import ZArith Lia.
From Stdlib.Strings Require Import Byte Ascii String.
From stdpp Require Import gmap strings list fin_maps sorting.

Local Open Scope Z_scope.

(** ** 64-bit signed integers *)

Module Int64.

Definition min_int : Z := - 2 ^ 63.
Definition max_int : Z := 2 ^ 63 - 1.

Definition in_range (z : Z) : Prop := min_int <= z <= max_int.

(** Two's-complement wrap-around of an unbounded result. *)
Definition wrap (z : Z) : Z := (z + 2 ^ 63) mod 2 ^ 64 - 2 ^ 63.

Definition add (a b : Z) : Z := wrap (a + b).
Definition sub (a b : Z) : Z := wrap (a - b).
Definition mul (a b : Z) : Z := wrap (a * b).

(** Go's [/] on integers truncates toward zero and panics on a zero
    divisor; [None] is that run-time panic. *)
Definition div (a b : Z) : option Z :=
  if b =? 0 then None else Some (wrap (Z.quot a b)).

End Int64.

(** ** ChunkPlanner: the arithmetic of [runDownload] (APS2, lines 174-175 and
       195-200) and of [main] (APS1, lines 161-162 and 181-186) *)

Module Planner.

Import Int64.

(** [chunkSize := (fileSize + threads - 1) / threads] *)
Definition chunkSize (fileSize threads : Z) : option Z :=
  div (sub (add fileSize threads) 1) threads.

(** [chunks := (fileSize + chunkSize - 1) / chunkSize] *)
Definition chunks (fileSize cs : Z) : option Z :=
  div (sub (add fileSize cs) 1) cs.

(** One iteration of the loop body: [start] and the clipped [end]. *)
Definition chunkRange (fileSize cs i : Z) : Z * Z :=
  let start := mul i cs in
  let end_ := sub (mul (add i 1) cs) 1 in
  (start, if end_ >=? fileSize then sub fileSize 1 else end_).

(** [for i := int64(0); i < chunks; i++]: the ranges handed to the
    fetchers, in launch order. *)
Definition ranges (fileSize cs n : Z) : list (Z * Z) :=
  chunkRange fileSize cs <$> seqZ 0 n.

(** The whole planning stage; [None] is the division panic. *)
Definition plan (fileSize threads : Z) : option (list (Z * Z)) :=
  cs ← chunkSize fileSize threads;
  n ← chunks fileSize cs;
  Some (ranges fileSize cs n).

(** What the specification asks of a chunk sequence. *)
Fixpoint contiguous_from (next : Z) (l : list (Z * Z)) : Prop :=
  match l with
  | [] => True
  | (s, e) :: l' => s = next ∧ s <= e ∧ contiguous_from (e + 1) l'
  end.

Definition ends_at (last : Z) (l : list (Z * Z)) : Prop :=
  snd <$> list.last l = Some last.

Definition chunk_len (c : Z * Z) : Z := snd c - fst c + 1.

Definition total_len (l : list (Z * Z)) : Z :=
  foldr (λ c acc, chunk_len c + acc) 0 l.

Definition disjoint (c1 c2 : Z * Z) : Prop :=
  snd c1 < fst c2 ∨ snd c2 < fst c1.

Definition non_overlapping (l : list (Z * Z)) : Prop :=
  ∀ i j c1 c2, l !! i = Some c1 → l !! j = Some c2 → i ≠ j → disjoint c1 c2.

(** The planner as the specification words it, over unbounded integers. *)
Definition ceil_div (a b : Z) : Z := (a + b - 1) / b.

Definition spec_range (totalSize cs i : Z) : Z * Z :=
  (i * cs, Z.min ((i + 1) * cs - 1) (totalSize - 1)).

Definition spec_ranges (totalSize workerCount : Z) : list (Z * Z) :=
  let cs := ceil_div totalSize workerCount in
  let n := ceil_div totalSize cs in
  spec_range totalSize cs <$> seqZ 0 n.

(** The results of the planning arithmetic stay inside [int64]. *)
Definition fits (fileSize threads : Z) : Prop :=
  0 < fileSize ∧ 0 < threads ∧
  fileSize + threads - 1 <= max_int ∧
  fileSize + ceil_div fileSize threads - 1 <= max_int.

End Planner.

(** ** Library functions of Go that the program calls *)

Inductive result (E A : Type) : Type :=
| Ok (a : A)
| Err (e : E).
Arguments Ok {E A} a.
Arguments Err {E A} e.

Definition is_err {E A} (r : result E A) : Prop :=
  match r with Ok _ => False | Err _ => True end.

Module Strconv.

Inductive NumError := ErrSyntax | ErrRange.

Definition digit (c : ascii) : option Z :=
  let n := Z.of_nat (nat_of_ascii c) in
  if (48 <=? n) && (n <=? 57) then Some (n - 48) else None.

(** [strconv.ParseUint(s, 10, 64)] after its empty-string test: the digit
    loop with its two overflow tests ([cutoff] is [maxUint64/10 + 1]). *)
Fixpoint uintLoop (s : string) (n : Z) : result NumError Z :=
  match s with
  | EmptyString => Ok n
  | String c s' =>
      match digit c with
      | None => Err ErrSyntax
      | Some d =>
          if n >=? (2 ^ 64 - 1) / 10 + 1 then Err ErrRange
          else
            let n1 := n * 10 + d in
            if n1 >? 2 ^ 64 - 1 then Err ErrRange else uintLoop s' n1
      end
  end.

Definition ParseUint (s : string) : result NumError Z :=
  match s with
  | EmptyString => Err ErrSyntax
  | _ => uintLoop s 0
  end.

(** [strconv.ParseInt(s, 10, 64)]: optional sign, then [ParseUint], then
    the signed range test. *)
Definition ParseInt (s : string) : result NumError Z :=
  match s with
  | EmptyString => Err ErrSyntax
  | String c s' =>
      let neg := bool_decide (c = "-"%char) in
      let digits := if bool_decide (c = "+"%char) || neg then s' else s in
      match ParseUint digits with
      | Err e => Err e
      | Ok un =>
          if negb neg && (un >=? 2 ^ 63) then Err ErrRange
          else if neg && (un >? 2 ^ 63) then Err ErrRange
          else Ok (if neg then - un else un)
      end
  end.

End Strconv.

Module Path.

Definition slash : ascii := "/"%char.
Definition dot : ascii := "."%char.

Definition chars (s : string) : list ascii := list_ascii_of_string s.
Definition str (l : list ascii) : string := string_of_list_ascii l.

Fixpoint drop_slashes (r : list ascii) : list ascii :=
  match r with
  | c :: r' => if bool_decide (c = slash) then drop_slashes r' else r
  | [] => []
  end.

Fixpoint upto_slash (r : list ascii) : list ascii :=
  match r with
  | c :: r' => if bool_decide (c = slash) then [] else c :: upto_slash r'
  | [] => []
  end.

(** [path.Base]: strip trailing slashes, keep what follows the last
    slash; the empty path is ["."], a path of slashes is ["/"].  The scans
    run over the reversed string, as the source scans from the end. *)
Definition Base (p : string) : string :=
  if bool_decide (p = "") then "."
  else
    let last := upto_slash (drop_slashes (reverse (chars p))) in
    if bool_decide (last = []) then "/" else str (reverse last).

(** [path.Ext]: scan from the end while the byte is not a slash; at the
    first dot return the suffix starting there. [acc] is the part already
    scanned, in reading order. *)
Fixpoint ext_scan (r acc : list ascii) : list ascii :=
  match r with
  | [] => []
  | c :: r' =>
      if bool_decide (c = slash) then []
      else if bool_decide (c = dot) then c :: acc
      else ext_scan r' (c :: acc)
  end.

Definition Ext (p : string) : string := str (ext_scan (reverse (chars p)) []).

(** [strings.TrimSuffix] *)
Definition TrimSuffix (s suffix : string) : string :=
  let cs := chars s in
  let n := (length cs - length (chars suffix))%nat in
  if bool_decide (drop n cs = chars suffix) then str (take n cs) else s.

(** A character that can occur inside an extension. *)
Definition plain (c : ascii) : Prop := c ≠ dot ∧ c ≠ slash.

End Path.

Module Http.

(** [http.Header] and [url.Values] are both [map[string][]string]; [Get]
    returns the first value stored under the key, or the empty string. *)
Definition Get (h : gmap string (list string)) (key : string) : string :=
  match h !! key with
  | Some (v :: _) => v
  | _ => ""
  end.

(** The part of a parsed [url.URL] the program reads: [u.Path] and
    [u.Query()]. *)
Record URL := { Path : string; Query : gmap string (list string) }.

(** The body of a ranged response as the transport delivers it:
    [payload] is what is still to come, [short] lists the sizes of the next
    deliveries (a [Read] never returns more than the head of [short]; once
    the list is used up every [Read] fills its buffer), [broken] says
    whether the stream ends in a connection error instead of [io.EOF], and
    [eager] says whether the end of the stream is reported by the [Read]
    that delivers the last bytes (as [net/http] does for a body of known
    length) or by a further [Read] that delivers nothing; [io.Reader]
    allows both. *)
Record Body :=
  { payload : list byte; short : list nat; broken : bool; eager : bool }.

Inductive ReadErr := EOF | ErrConn.

(** [resp.Body.Read(p)] with [len(p) = n]. *)
Definition Read (n : nat) (b : Body) : (list byte * option ReadErr) * Body :=
  match payload b with
  | [] => (([], Some (if broken b then ErrConn else EOF)), b)
  | _ =>
      let k := match short b with [] => n | s :: _ => Nat.min s n end in
      let rest := drop k (payload b) in
      ((take k (payload b),
        match rest with
        | [] => if eager b
                then Some (if broken b then ErrConn else EOF) else None
        | _ => None
        end),
       {| payload := rest; short := tail (short b);
          broken := broken b; eager := eager b |})
  end.

(** What the world answers to one chunk's request: whether
    [http.NewRequest] fails, the result of [http.DefaultClient.Do] ([None]
    is its error), and how many bytes the output device still accepts from
    this fetcher before a write fails ([None]: it never fails). *)
Record Exchange :=
  { reqFails : bool; response : option Body; disk : option nat }.

(** The remote server and the local system, as far as a run consults
    them.  [url_Parse] stands for Go's [url.Parse]; [head] is the header
    of the response to [http.Head] ([None]: transport error); [get] is
    the exchange for the range [bytes=start-end]. *)
Record Env :=
  { url_Parse : string → option URL;
    head : string → option (gmap string (list string));
    get : string → Z → Z → Exchange;
    createFails : string → bool;
    truncateFails : bool }.

End Http.

(** ** SizeProbe and file naming *)

Inductive ProbeError :=
| TransportError
| RangeUnsupportedError
| MissingLengthError
| LengthSyntaxError (e : Strconv.NumError).

(** [getFileSize] (identical in both variants). *)
Definition getFileSize (env : Http.Env) (url : string) : result ProbeError Z :=
  match Http.head env url with
  | None => Err TransportError
  | Some header =>
      if bool_decide (Http.Get header "Accept-Ranges" ≠ "bytes")
      then Err RangeUnsupportedError
      else
        let sizeStr := Http.Get header "Content-Length" in
        if bool_decide (sizeStr = "") then Err MissingLengthError
        else
          match Strconv.ParseInt sizeStr with
          | Err e => Err (LengthSyntaxError e)
          | Ok size => Ok size
          end
  end.

(** [getFileName] of APS2. *)
Definition getFileName (env : Http.Env) (rawURL : string) : string :=
  match Http.url_Parse env rawURL with
  | None => "output.dat"
  | Some u =>
      let fileName := Path.Base (Http.Path u) in
      let ext := Http.Get (Http.Query u) "format" in
      if bool_decide (ext ≠ "")
      then Path.TrimSuffix fileName (Path.Ext fileName) +:+ "." +:+ ext
      else fileName
  end.

(** The name APS1 gives the output file: [path.Base(url)] on the raw
    string (lines 165 and 193). *)
Definition fileNameAPS1 (rawURL : string) : string := Path.Base rawURL.

(** ** RateLimiter *)

Module Limiter.

(** APS2: a mutex-protected token counter refilled lazily. *)
Record RateLimiter := { bytesPerSec : Z; tokens : Z; lastRefill : Z }.

Definition NewRateLimiter (now bytesPerSec : Z) : RateLimiter :=
  {| bytesPerSec := bytesPerSec; tokens := bytesPerSec; lastRefill := now |}.

(** [refill]. [now] is the reading of [time.Now()]; [newTokens] is the
    value of [int64(elapsed * float64(rl.bytesPerSec))], a float64
    computation on the clock that is an input here. *)
Definition refill (now newTokens : Z) (rl : RateLimiter) : RateLimiter :=
  if newTokens >? 0 then
    let t := Int64.add (tokens rl) newTokens in
    {| bytesPerSec := bytesPerSec rl;
       tokens := if t >? bytesPerSec rl then bytesPerSec rl else t;
       lastRefill := now |}
  else rl.

(** One pass through the body of the loop of [Wait], under the mutex:
    refill, then take [n] tokens if they are there.  The flag tells whether
    the loop breaks; otherwise the caller sleeps and polls again. *)
Definition Wait_poll (now newTokens n : Z) (rl : RateLimiter)
  : RateLimiter * bool :=
  let rl := refill now newTokens rl in
  if tokens rl >=? n
  then ({| bytesPerSec := bytesPerSec rl;
           tokens := Int64.sub (tokens rl) n;
           lastRefill := lastRefill rl |}, true)
  else (rl, false).

(** [Wait]: poll at the given clock readings until one pass succeeds.
    Returns the limiter as refilled by the successful pass and as left
    after it; [None] when the caller is still blocked after the last
    reading. *)
Fixpoint Wait (clock : list (Z * Z)) (n : Z) (rl : RateLimiter)
  : option (RateLimiter * RateLimiter) :=
  match clock with
  | [] => None
  | (now, newTokens) :: clock' =>
      let (rl', ok) := Wait_poll now newTokens n rl in
      if ok then Some (refill now newTokens rl, rl') else Wait clock' n rl'
  end.

(** APS1: a buffered channel of unit tokens; only the number of queued
    tokens matters. *)
Record ChanLimiter := { capacity : Z; queued : Z }.

(** One round of the ticker goroutine: [bytesPerSec] non-blocking sends,
    each dropped when the channel is full. *)
Definition tick (rl : ChanLimiter) : ChanLimiter :=
  {| capacity := capacity rl;
     queued := Z.min (capacity rl) (queued rl + capacity rl) |}.

(** [<-rl.tokens]: [None] when the receive blocks. *)
Definition recv (rl : ChanLimiter) : option ChanLimiter :=
  if queued rl >? 0
  then Some {| capacity := capacity rl; queued := queued rl - 1 |}
  else None.

(** [Wait] of APS1: [n] receives in a row; [None] when one of them finds
    the channel empty and blocks until the ticker's next round. *)
Fixpoint WaitChan (n : nat) (rl : ChanLimiter) : option ChanLimiter :=
  match n with
  | O => Some rl
  | S n' => rl' ← recv rl; WaitChan n' rl'
  end.

End Limiter.

(** ** SegmentFetcher *)

Inductive LogMsg :=
| LBanner | LUrl (url : string) | LProbing
| LProbeError (e : ProbeError)
| LSize (fileSize : Z)
| LSplit (chunks chunkSize : Z)
| LCreateError | LTruncateError
| LChunkStart (start end_ : Z)
| LRequestError | LDownloadError | LOffsetError | LCopyError
| LChunkDone (start end_ : Z)
| LCompleted (fileName : string).

(** What a fetcher does to the state it shares with the rest of the run,
    in program order. *)
Inductive Act :=
| AWait (n : Z)                               (* rl.Wait(n) has returned *)
| ARead (n : nat) (got : list byte) (err : option Http.ReadErr)
                                              (* resp.Body.Read(p[:n]) *)
| AWriteAt (off : Z) (p : list byte) (n : nat) (* file.WriteAt(p, off) = n *)
| ALog (m : LogMsg)
| ADone                                       (* wg.Done() *)
| ASpin.                                      (* a loop that never exits *)

Module Fetcher.

(** [file.WriteAt(p, off)] seen from one fetcher: a negative offset is
    refused, otherwise all of [p] is written unless the device gives up
    after [q] more bytes. Returns [(n, err = nil)] and the device. *)
Definition WriteAt (d : option nat) (p : list byte) (off : Z)
  : (nat * bool) * option nat :=
  if off <? 0 then ((O, false), d)
  else match d with
       | None => ((length p, true), None)
       | Some q =>
           if (length p <=? q)%nat
           then ((length p, true), Some (q - length p)%nat)
           else ((q, false), Some O)
       end.

(** The two buffer sizes: the clip of [rateLimitedReader.Read] and the
    buffer [io.Copy] allocates. *)
Definition quantum : nat := 16 * 1024.
Definition copyBuf : nat := 32 * 1024.

(** [rateLimitedReader.Read] (identical in both variants), called with a
    buffer of [lenp] bytes: the buffer is clipped to 16 KiB, [Wait] is
    called with the clipped length, then the body is read. *)
Definition rateLimitedReader_Read (lenp : nat) (b : Http.Body)
  : list Act * (list byte * option Http.ReadErr) * Http.Body :=
  let n := if (quantum <? lenp)%nat then quantum else lenp in
  let '(res, b') := Http.Read n b in
  ([AWait (Z.of_nat n); ARead n res.1 res.2], res, b').

Record sectionWriter := { offset : Z }.

(** [sectionWriter.Write] *)
Definition sectionWriter_Write (p : list byte) (sw : sectionWriter)
    (d : option nat)
  : list Act * (nat * bool) * sectionWriter * option nat :=
  let '((n, ok), d') := WriteAt d p (offset sw) in
  ([AWriteAt (offset sw) p n], (n, ok),
   {| offset := Int64.add (offset sw) (Z.of_nat n) |}, d').

Inductive CopyResult := CopyOk | CopyFailed | CopyRunning.

(** The loop of [io.Copy] for a source and a destination without
    [WriterTo]/[ReaderFrom]: a 32 KiB buffer, read, write what was read,
    stop at the first write error, short write or read error. *)
Fixpoint copyLoop (fuel : nat) (sw : sectionWriter) (d : option nat)
    (b : Http.Body) : list Act * CopyResult :=
  match fuel with
  | O => ([], CopyRunning)
  | S fuel' =>
      let '(ra, (got, er), b') := rateLimitedReader_Read copyBuf b in
      match got with
      | [] =>
          match er with
          | None => let (acts, r) := copyLoop fuel' sw d b' in (ra ++ acts, r)
          | Some Http.EOF => (ra, CopyOk)
          | Some Http.ErrConn => (ra, CopyFailed)
          end
      | _ =>
          let '(wa, (nw, ok), sw', d') := sectionWriter_Write got sw d in
          if negb ok then (ra ++ wa, CopyFailed)
          else if negb (length got =? nw)%nat then (ra ++ wa, CopyFailed)
          else
            match er with
            | None =>
                let (acts, r) := copyLoop fuel' sw' d' b' in
                (ra ++ wa ++ acts, r)
            | Some Http.EOF => (ra ++ wa, CopyOk)
            | Some Http.ErrConn => (ra ++ wa, CopyFailed)
            end
      end
  end.

(** Every iteration either uses up an entry of [short] or takes at least
    one byte of the payload, so this many iterations are enough. *)
Definition copyFuel (b : Http.Body) : nat :=
  S (length (Http.payload b) + length (Http.short b)).

Definition io_Copy (sw : sectionWriter) (d : option nat) (b : Http.Body)
  : list Act * CopyResult :=
  copyLoop (copyFuel b) sw d b.

(** [downloadChunk]: the actions of one fetcher goroutine.  [x] is what
    the world answers to the request the function builds for
    [bytes=start-end] (the orchestrator looks it up, see [Run.programs]);
    the file, the wait group and the limiter are the shared state the
    actions work on.  The deferred [wg.Done()] runs last on every path
    (the deferred [resp.Body.Close()] before it touches no shared
    state). *)
Definition downloadChunk (x : Http.Exchange) (start end_ : Z) : list Act :=
  ALog (LChunkStart start end_) ::
  if Http.reqFails x then [ALog LRequestError; ADone]
  else
    match Http.response x with
    | None => [ALog LDownloadError; ADone]
    | Some body =>
        let '((n0, ok0), d) := WriteAt (Http.disk x) [] start in
        AWriteAt start [] n0 ::
        if negb ok0 then [ALog LOffsetError; ADone]
        else
          let (acts, r) := io_Copy {| offset := start |} d body in
          acts ++
          match r with
          | CopyOk => [ALog (LChunkDone start end_); ADone]
          | CopyFailed => [ALog LCopyError; ADone]
          | CopyRunning => [ASpin]
          end
    end.

(** One read of the copy loop that found data still to come: it
    delivers the first [k] bytes of the payload and leaves body [b']. *)
Definition delivers (b : Http.Body) (k : nat) (b' : Http.Body) : Prop :=
  Http.Read quantum b = ((take k (Http.payload b), None), b') ∧
  (k <= quantum)%nat ∧
  Http.payload b' = drop k (Http.payload b) ∧
  Http.broken b' = Http.broken b ∧
  (copyFuel b' < copyFuel b)%nat.

(** The read of the copy loop that takes the last bytes, at most one
    buffer of them, and is told with them that the stream has ended. *)
Definition closes (b : Http.Body) (b' : Http.Body) : Prop :=
  Http.Read quantum b
  = ((Http.payload b,
      Some (if Http.broken b then Http.ErrConn else Http.EOF)), b') ∧
  Http.payload b ≠ [] ∧
  (length (Http.payload b) <= quantum)%nat ∧
  Http.eager b = true.

(** The two actions of one throttled read. *)
Definition readActs (got : list byte) (er : option Http.ReadErr) : list Act :=
  [AWait (Z.of_nat quantum); ARead quantum got er].

(** An action other than the final [wg.Done()], and one the scheduler
    can always let through once the bucket holds 16 KiB. *)
Definition quiet (a : Act) : Prop :=
  match a with
  | AWait n => n = Z.of_nat quantum
  | ADone | ASpin => False
  | _ => True
  end.

(** Projections of a fetcher's actions. *)
Definition writes (l : list Act) : list (Z * list byte * nat) :=
  omap (λ a, match a with AWriteAt off p n => Some (off, p, n) | _ => None end) l.

Definition tokens_taken (l : list Act) : Z :=
  foldr (λ a acc, match a with AWait n => n + acc | _ => acc end) 0 l.

Definition bytes_obtained (l : list Act) : Z :=
  foldr (λ a acc, match a with
                  | ARead _ got _ => Z.of_nat (length got) + acc
                  | _ => acc end) 0 l.

(** Every wait is followed at once by the read it pays for, of the same
    size, at most 16 KiB, and the read obtains no more than that. *)
Fixpoint throttled (l : list Act) : Prop :=
  match l with
  | [] => True
  | AWait n :: l' =>
      match l' with
      | ARead m got _ :: l'' =>
          n = Z.of_nat m ∧ (m <= quantum)%nat ∧ (length got <= m)%nat ∧
          throttled l''
      | _ => False
      end
  | ARead _ _ _ :: _ => False
  | _ :: l' => throttled l'
  end.

(** The writes of a copy: each starts at the cursor, carries data, and
    moves the cursor by what it wrote; only the last may fall short. *)
Fixpoint chained (cursor : Z) (ws : list (Z * list byte * nat)) : Prop :=
  match ws with
  | [] => True
  | (off, p, n) :: ws' =>
      off = cursor ∧ p ≠ [] ∧ (n <= length p)%nat ∧
      (ws' ≠ [] → n = length p) ∧
      chained (cursor + Z.of_nat n) ws'
  end.

Definition offsets (ws : list (Z * list byte * nat)) : list Z :=
  (λ w, w.1.1) <$> ws.

(** No write reaches past [limit]. *)
Definition within (limit : Z) (ws : list (Z * list byte * nat)) : Prop :=
  Forall (λ w, w.1.1 + Z.of_nat (length w.1.2) <= limit) ws.

End Fetcher.

(** ** Orchestrator *)

Module Run.

Import Http.

Record World := { fs : gmap string (list byte); log : list LogMsg }.

Definition say (m : LogMsg) (w : World) : World :=
  {| fs := fs w; log := log w ++ [m] |}.

Definition store (name : string) (content : list byte) (w : World) : World :=
  {| fs := <[name := content]> (fs w); log := log w |}.

(** The content of a file after [n] bytes of [p] were written at [off]:
    the file grows when the write ends past its end, and a gap before
    [off] reads as zeros. An empty write changes nothing. *)
Definition written (f : list byte) (off : Z) (p : list byte) : list byte :=
  match p with
  | [] => f
  | _ =>
      let o := Z.to_nat off in
      take o (f ++ replicate (o - length f) x00) ++ p ++ drop (o + length p) f
  end.

(** What the main goroutine still has to do once the output file is
    sized: launch the fetchers, wait for them, report. *)
Inductive MainAct :=
| MSpawn (prog : list Act)     (* wg.Add(1); go downloadChunk(...) *)
| MWait                        (* wg.Wait() *)
| MLog (m : LogMsg).

(** A run in its concurrent phase. *)
Record Conf :=
  { world : World;
    out : string;                       (* name of the open output file *)
    rl : Limiter.RateLimiter;
    wg : Z;                             (* counter of the WaitGroup *)
    mainq : list MainAct;
    threads : list (list Act) }.

Inductive Outcome :=
| Returned (w : World)
| Panicked (w : World).

(** The loop that launches the fetchers: [go downloadChunk(url, start,
    end, outFile, &wg, rl)] for every planned range, in order. *)
Definition programs (env : Env) (url : string) (l : list (Z * Z))
  : list (list Act) :=
  (λ c : Z * Z, Fetcher.downloadChunk (get env url c.1 c.2) c.1 c.2) <$> l.

(** [runDownload] up to the point where goroutines exist.  The function
    has no result value: what its caller can observe is the world it
    leaves behind, and whether it returned or panicked. *)
Definition runDownload_start (env : Env) (now : Z) (url : string)
    (threads limitMB : Z) (w : World) : Outcome + Conf :=
  let w := say LProbing (say (LUrl url) (say LBanner w)) in
  match getFileSize env url with
  | Err e => inl (Returned (say (LProbeError e) w))
  | Ok fileSize =>
      let w := say (LSize fileSize) w in
      match Planner.chunkSize fileSize threads with
      | None => inl (Panicked w)
      | Some chunkSize =>
          match Planner.chunks fileSize chunkSize with
          | None => inl (Panicked w)
          | Some chunks =>
              let w := say (LSplit chunks chunkSize) w in
              let fileName := getFileName env url in
              if createFails env fileName
              then inl (Returned (say LCreateError w))
              else
                let w := store fileName [] w in
                if (fileSize <? 0) || truncateFails env
                then inl (Returned (say LTruncateError w))
                else
                  let w := store fileName
                             (replicate (Z.to_nat fileSize) x00) w in
                  let rl := Limiter.NewRateLimiter now
                              (Int64.mul (Int64.mul limitMB 1024) 1024) in
                  let progs :=
                    programs env url
                      (Planner.ranges fileSize chunkSize chunks) in
                  inr {| world := w; out := fileName; rl := rl; wg := 0;
                         mainq := (MSpawn <$> progs)
                                  ++ [MWait; MLog (LCompleted fileName)];
                         threads := [] |}
          end
      end
  end.

(** The scheduler picks who moves next.  A pick of a fetcher carries the
    clock reading and the refill it yields, which matter when the fetcher
    is polling the limiter. *)
Inductive Pick :=
| PMain
| PThread (k : nat) (now newTokens : Z).

Definition step_main (c : Conf) : Conf :=
  match mainq c with
  | [] => c
  | MSpawn prog :: q =>
      {| world := world c; out := out c; rl := rl c; wg := wg c + 1;
         mainq := q; threads := threads c ++ [prog] |}
  | MWait :: q =>
      if wg c =? 0
      then {| world := world c; out := out c; rl := rl c; wg := wg c;
              mainq := q; threads := threads c |}
      else c
  | MLog m :: q =>
      {| world := say m (world c); out := out c; rl := rl c; wg := wg c;
         mainq := q; threads := threads c |}
  end.

Definition act (a : Act) (now newTokens : Z) (c : Conf)
  : World * Limiter.RateLimiter * Z * bool :=
  match a with
  | AWait n =>
      let (rl', ok) := Limiter.Wait_poll now newTokens n (rl c) in
      (world c, rl', wg c, ok)
  | ARead _ _ _ => (world c, rl c, wg c, true)
  | AWriteAt off p n =>
      ({| fs := alter (λ f, written f off (take n p)) (out c) (fs (world c));
          log := log (world c) |}, rl c, wg c, true)
  | ALog m => (say m (world c), rl c, wg c, true)
  | ADone => (world c, rl c, wg c - 1, true)
  | ASpin => (world c, rl c, wg c, false)
  end.

Definition step_thread (k : nat) (now newTokens : Z) (c : Conf) : Conf :=
  match threads c !! k with
  | Some (a :: rest) =>
      let '(w, r, g, moved) := act a now newTokens c in
      {| world := w; out := out c; rl := r; wg := g; mainq := mainq c;
         threads := if moved then <[k := rest]> (threads c) else threads c |}
  | _ => c
  end.

Definition step (p : Pick) (c : Conf) : Conf :=
  match p with
  | PMain => step_main c
  | PThread k now newTokens => step_thread k now newTokens c
  end.

(** Run a configuration under a schedule. *)
Definition exec (sched : list Pick) (c : Conf) : Conf :=
  foldl (λ c p, step p c) c sched.

(** [runDownload] has returned. *)
Definition finished (c : Conf) : Prop := mainq c = [].

(** The programs the main goroutine has yet to launch. *)
Definition unlaunched (q : list MainAct) : list (list Act) :=
  omap (λ m, match m with MSpawn p => Some p | _ => None end) q.

(** A schedule that lets the main goroutine launch everything, then runs
    the fetchers one after the other, each poll of the limiter finding a
    refill of 16 KiB, and finally lets the main goroutine finish. *)
Definition roundSchedule (c : Conf) : list Pick :=
  let progs := unlaunched (mainq c) in
  replicate (length progs) PMain
  ++ mjoin (imap (λ k p, replicate (length p)
                           (PThread (length (threads c) + k) 0 (16 * 1024)))
                 progs)
  ++ [PMain; PMain].

End Run.

(** ** Predicates on runs *)

Module Inv.

Import Http Fetcher Run.

(** A fetcher that has not started: quiet actions, then [wg.Done()]. *)
Definition whole (p : list Act) : Prop :=
  ∃ pre, p = pre ++ [ADone] ∧ Forall quiet pre.

(** What is left of a fetcher that may have started. *)
Definition rest_of_whole (p : list Act) : Prop := p = [] ∨ whole p.

(** Calls of [wg.Done()] a fetcher still owes. *)
Definition owes (p : list Act) : Z := match p with [] => 0 | _ => 1 end.

Definition owed (ts : list (list Act)) : Z :=
  foldr (λ p acc, owes p + acc) 0 ts.

(** The end of the main goroutine's queue. *)
Definition epilogue (name : string) : list MainAct :=
  [MWait; MLog (LCompleted name)].

(** Where the main goroutine is: still launching, or past [wg.Wait()]
    with every fetcher finished. *)
Definition phase (c : Conf) : Prop :=
  (∃ ps, mainq c = (MSpawn <$> ps) ++ epilogue (out c)) ∨
  ((mainq c = [MLog (LCompleted (out c))] ∨
    mainq c = [] ∧ last (log (world c)) = Some (LCompleted (out c))) ∧
   Forall (λ p, p = []) (threads c)).

(** The invariant of the concurrent phase. *)
Definition sound (c : Conf) : Prop :=
  Forall rest_of_whole (threads c) ∧
  Forall whole (unlaunched (mainq c)) ∧
  wg c = owed (threads c) ∧
  phase c.

(** A limiter from which a poll that finds a refill of 16 KiB always
    obtains 16 KiB. *)
Definition ready (rl : Limiter.RateLimiter) : Prop :=
  0 <= Limiter.tokens rl <= Limiter.bytesPerSec rl ∧
  16 * 1024 <= Limiter.bytesPerSec rl ∧
  Limiter.bytesPerSec rl + 16 * 1024 <= Int64.max_int.

(** The bytes [start..end] of the source. *)
Definition slice (data : list byte) (start end_ : Z) : list byte :=
  take (Z.to_nat (end_ - start + 1)) (drop (Z.to_nat start) data).

(** The exchange for a range returns exactly the requested bytes and
    nothing fails. *)
Definition exact_exchange (data : list byte) (start end_ : Z)
    (x : Exchange) : Prop :=
  reqFails x = false ∧ disk x = None ∧
  ∃ body, response x = Some body ∧
          payload body = slice data start end_ ∧ broken body = false.

(** A server with range support that serves [data] under [url], and a
    local system on which the output file can be created and sized. *)
Definition faithful (env : Env) (url : string) (data : list byte) : Prop :=
  (∃ header, head env url = Some header ∧
             Get header "Accept-Ranges" = "bytes" ∧
             Strconv.ParseInt (Get header "Content-Length")
             = Ok (Z.of_nat (length data))) ∧
  (∀ start end_, 0 <= start <= end_ → end_ < Z.of_nat (length data) →
                 exact_exchange data start end_ (get env url start end_)) ∧
  createFails env (getFileName env url) = false ∧
  truncateFails env = false.

(** A write that puts bytes of the source where they belong. *)
Definition good_write (data : list byte) (a : Act) : Prop :=
  match a with
  | AWriteAt off p n =>
      0 <= off ∧ n = length p ∧
      (Z.to_nat off + length p <= length data)%nat ∧
      ∀ j b, p !! j = Some b → data !! (Z.to_nat off + j)%nat = Some b
  | _ => True
  end.

(** A write that reaches offset [i]. *)
Definition covers (i : nat) (a : Act) : Prop :=
  match a with
  | AWriteAt off p _ => (Z.to_nat off <= i < Z.to_nat off + length p)%nat
  | _ => False
  end.

(** The file a fetcher's action leaves behind. *)
Definition file_after (a : Act) (f : list byte) : list byte :=
  match a with
  | AWriteAt off p n => written f off (take n p)
  | _ => f
  end.

(** The writes still to come, launched or not. *)
Definition pending (c : Conf) : list (list Act) :=
  threads c ++ unlaunched (mainq c).

(** The output file has the size of the source, every write still to
    come is good, and every offset either holds its byte already or is
    reached by a write still to come. *)
Definition converging (data : list byte) (c : Conf) : Prop :=
  ∃ f, fs (world c) !! out c = Some f ∧
       length f = length data ∧
       Forall (Forall (good_write data)) (pending c) ∧
       ∀ i, (i < length data)%nat →
            f !! i = data !! i ∨ Exists (Exists (covers i)) (pending c).

End Inv.

(** ** Sample servers *)

Module Sample.

Import Http.

Definition url : string := "http://example.com/file.bin".

Definition data : list byte :=
  [x01; x02; x03; x04; x05; x06; x07; x08; x09; x0a].

Definition header (len : string) : gmap string (list string) :=
  {[ "Accept-Ranges" := ["bytes"%string]; "Content-Length" := [len] ]}.

Definition world0 : Run.World := {| Run.fs := ∅; Run.log := [] |}.

(** Serves [data] with range support; the transport delivers two bytes,
    then nothing, then whatever the reader asks for. *)
Definition server : Env :=
  {| url_Parse := λ _, Some {| Path := "/file.bin"; Query := ∅ |};
     head := λ _, Some (header "10");
     get := λ _ start end_,
       {| reqFails := false;
          response := Some {| payload := Inv.slice data start end_;
                              short := [2%nat; 0%nat]; broken := false;
                              eager := false |};
          disk := None |};
     createFails := λ _, false;
     truncateFails := false |}.

(** The same server behind a bad network and a full disk: the first
    request cannot be built, the second is refused, the third breaks off
    after one byte, and the device rejects the writes of the others. *)
Definition flaky : Env :=
  {| url_Parse := url_Parse server;
     head := head server;
     get := λ _ start end_,
       if start =? 0 then
         {| reqFails := true; response := None; disk := None |}
       else if start =? 3 then
         {| reqFails := false; response := None; disk := None |}
       else if start =? 6 then
         {| reqFails := false;
            response := Some {| payload := [x07]; short := [];
                                broken := true; eager := false |};
            disk := None |}
       else
         {| reqFails := false;
            response := Some {| payload := Inv.slice data start end_;
                                short := []; broken := false;
                                eager := false |};
            disk := Some 0%nat |};
     createFails := λ _, false;
     truncateFails := false |}.

(** A server that does not announce range support. *)
Definition rangeless : Env :=
  {| url_Parse := url_Parse server;
     head := λ _, Some {[ "Content-Length" := ["10"%string] ]};
     get := get server;
     createFails := λ _, false;
     truncateFails := false |}.

(** A server whose resource is empty. *)
Definition hollow : Env :=
  {| url_Parse := url_Parse server;
     head := λ _, Some (header "0");
     get := get server;
     createFails := λ _, false;
     truncateFails := false |}.

(** [url.Parse] on a URL with the query [format=zip]. *)
Definition zipped : Env :=
  {| url_Parse := λ _, Some {| Path := "/file.bin";
                               Query := {[ "format" := ["zip"%string] ]} |};
     head := head server;
     get := get server;
     createFails := λ _, false;
     truncateFails := false |}.

(** A two-byte exchange without incident. *)
Definition pair : Exchange :=
  {| reqFails := false;
     response := Some {| payload := [x01; x02]; short := [];
                         broken := false; eager := false |};
     disk := None |}.

(** Three bytes that arrive two and one, the last with [io.EOF]. *)
Definition prompt : Exchange :=
  {| reqFails := false;
     response := Some {| payload := [x01; x02; x03]; short := [2%nat];
                         broken := false; eager := true |};
     disk := None |}.

End Sample.

(** ** The limiters under a sequence of callers *)

Module Traffic.

Import Limiter.

(** Passes through the loop of [Wait] (APS2) by any number of callers, in
    the order in which they take the mutex; each pass comes with its clock
    reading, the refill it yields and the size asked for.  Returns the
    limiter and the number of tokens handed out. *)
Fixpoint polls (l : list (Z * Z * Z)) (rl : RateLimiter) : RateLimiter * Z :=
  match l with
  | [] => (rl, 0)
  | (now, newTokens, n) :: l' =>
      let (rl1, ok) := Wait_poll now newTokens n rl in
      let (rl2, given) := polls l' rl1 in
      (rl2, (if ok then n else 0) + given)
  end.

(** The refill the clock readings of these passes grant. *)
Definition credit (l : list (Z * Z * Z)) : Z :=
  foldr (λ p acc, Z.max 0 p.1.2 + acc) 0 l.

(** [NewRateLimiter] of APS1 before its ticker fires:
    [make(chan struct{}, bytesPerSec)] panics on a negative capacity
    ([None]) and the channel starts empty. *)
Definition NewChanLimiter (bytesPerSec : Z) : option ChanLimiter :=
  if bytesPerSec <? 0 then None
  else Some {| capacity := bytesPerSec; queued := 0 |}.

(** The [select] of the ticker goroutine: a send that is dropped when
    the channel is full. *)
Definition trySend (rl : ChanLimiter) : ChanLimiter :=
  if queued rl <? capacity rl
  then {| capacity := capacity rl; queued := queued rl + 1 |}
  else rl.

(** One firing of the ticker with no receive in between: the loop
    [for i := int64(0); i < bytesPerSec; i++]. *)
Definition ticker_round (rl : ChanLimiter) : ChanLimiter :=
  Nat.iter (Z.to_nat (capacity rl)) trySend rl.

(** Sends of the ticker and receives of the callers of [Wait], in the
    order in which they reach the channel.  A receive that finds the
    channel empty blocks and is retried by a later [OpRecv]; the result
    counts the receives that went through. *)
Inductive ChanOp := OpSend | OpRecv.

Fixpoint traffic (ops : list ChanOp) (rl : ChanLimiter) : ChanLimiter * Z :=
  match ops with
  | [] => (rl, 0)
  | OpSend :: ops' => traffic ops' (trySend rl)
  | OpRecv :: ops' =>
      match recv rl with
      | Some rl' => let (r, got) := traffic ops' rl' in (r, 1 + got)
      | None => traffic ops' rl
      end
  end.

Definition sends (ops : list ChanOp) : Z :=
  foldr (λ o acc, match o with OpSend => 1 + acc | OpRecv => acc end) 0 ops.

End Traffic.

(** ** The limiters against the clock *)

Module Clock.

Import Limiter Traffic.

(** Clock readings count nanoseconds, as [time.Duration] does. *)
Definition second : Z := 1000000000.

(** [int64(elapsed * float64(rl.bytesPerSec))] in [refill], where [elapsed]
    is [now.Sub(rl.lastRefill).Seconds()]: the seconds elapsed times the
    rate, truncated toward zero.  The float64 product is taken without
    rounding error. *)
Definition newTokens (now : Z) (rl : RateLimiter) : Z :=
  ((now - lastRefill rl) * bytesPerSec rl) ÷ second.










End Clock.

(** ** What a fetcher leaves behind *)

Module Transfer.

Import Fetcher.

(** The bytes a list of writes puts into the file, in order. *)
Definition landed (ws : list (Z * list byte * nat)) : list byte :=
  mjoin ((λ w, take w.2 w.1.2) <$> ws).

(** The lines a fetcher logs. *)
Definition logged (l : list Act) : list LogMsg :=
  omap (λ a, match a with ALog m => Some m | _ => None end) l.

(** The number of reads of the response body. *)
Definition reads (l : list Act) : Z :=
  foldr (λ a acc, match a with ARead _ _ _ => 1 + acc | _ => acc end) 0 l.

(** An action of the copy loop: a wait, a read or a write. *)
Definition moves_data (a : Act) : Prop :=
  match a with
  | AWait _ | ARead _ _ _ | AWriteAt _ _ _ => True
  | _ => False
  end.

(** A wait for more tokens than a bucket of [cap] tokens ever holds. *)
Definition oversized (cap : Z) (a : Act) : Prop :=
  match a with AWait n => cap < n | _ => False end.

End Transfer.

(** ** [runDownload] as a whole, and [main] of APS2 *)

Module Main.

Import Http Run.

(** How a call of [runDownload] ends under a schedule of its goroutines:
    it returns, it panics, or the schedule leaves it short of its return
    (in [Stuck] the configuration reached). *)
Inductive RunEnd :=
| Done (w : World)
| Crashed (w : World)
| Stuck (c : Conf).

Definition runDownload (env : Env) (now : Z) (url : string)
    (threads limitMB : Z) (sched : list Pick) (w : World) : RunEnd :=
  match runDownload_start env now url threads limitMB w with
  | inl (Returned w') => Done w'
  | inl (Panicked w') => Crashed w'
  | inr c0 =>
      let c := exec sched c0 in
      match mainq c with
      | [] => Done (world c)
      | _ => Stuck c
      end
  end.

(** The world a call leaves behind, or has reached. *)
Definition world_at (e : RunEnd) : World :=
  match e with
  | Done w | Crashed w => w
  | Stuck c => world c
  end.

(** The lines of the log of [main]: those of the runs and its own. *)
Inductive Line :=
| FromRun (m : LogMsg)
| LRun (i : nat)
| LRunTime (i : nat) (d : Z)
| LAverage (d : Z)
| LBadThreads (arg : string)
| LBadLimit (arg : string).

(** What the world contributes to one iteration of the loop of [main]:
    the server and local system during the run, the reading of the clock
    when the limiter is created, the schedule of the goroutines, the
    duration [time.Since(start)] measures, and whether [os.Remove] fails
    on the output file. *)
Record Round :=
  { server : Env; clock : Z; schedule : list Pick; elapsed : Z;
    removeFails : bool }.

(** [os.Remove(name)], its error dropped as in [main]: a removal that
    fails leaves the directory as it is. *)
Definition Remove (fails : bool) (name : string)
    (fs : gmap string (list byte)) : gmap string (list byte) :=
  if fails then fs else delete name fs.

Record State := { files : gmap string (list byte); lines : list Line }.

Definition note (l : list Line) (s : State) : State :=
  {| files := files s; lines := lines s ++ l |}.

Inductive MainEnd :=
| Usage                          (* the usage line, then os.Exit(1) *)
| Fatal (s : State)              (* log.Fatalln *)
| Completed (s : State) (total : Z)
| Panic (s : State)
| Hang (s : State).

Definition runs : nat := 30.

(** The iterations [todo] of the loop of [main]. *)
Fixpoint loop (todo : list nat) (rounds : nat → Round) (url : string)
    (threads limitMB : Z) (total : Z) (s : State) : MainEnd :=
  match todo with
  | [] => Completed s total
  | i :: todo' =>
      let r := rounds i in
      let s := note [LRun (S i)] s in
      match runDownload (server r) (clock r) url threads limitMB (schedule r)
              {| fs := files s; log := [] |} with
      | Crashed w => Panic (note (FromRun <$> log w) s)
      | Stuck c => Hang (note (FromRun <$> log (world c)) s)
      | Done w =>
          let s := note ((FromRun <$> log w) ++ [LRunTime (S i) (elapsed r)])
                     s in
          loop todo' rounds url threads limitMB (Int64.add total (elapsed r))
            {| files := Remove (removeFails r) (getFileName (server r) url)
                          (fs w);
               lines := lines s |}
      end
  end.

(** [main]; [args] is [os.Args], program name included. *)
Definition main (args : list string) (rounds : nat → Round) (s : State)
  : MainEnd :=
  match args with
  | _ :: url :: arg2 :: arg3 :: _ =>
      match Strconv.ParseInt arg2 with
      | Err _ => Fatal (note [LBadThreads arg2] s)
      | Ok threads =>
          if threads <=? 0 then Fatal (note [LBadThreads arg2] s)
          else
            match Strconv.ParseInt arg3 with
            | Err _ => Fatal (note [LBadLimit arg3] s)
            | Ok limitMB =>
                if limitMB <=? 0 then Fatal (note [LBadLimit arg3] s)
                else
                  match loop (seq 0 runs) rounds url threads limitMB 0 s with
                  | Completed s total =>
                      match Int64.div total (Z.of_nat runs) with
                      | Some average =>
                          Completed (note [LAverage average] s) total
                      | None => Panic s
                      end
                  | e => e
                  end
            end
      end
  | _ => Usage
  end.

End Main.

(** ** [main] of APS1 up to the point where goroutines exist *)

Module APS1.

Import Http Run.

(** What [main] has set up when it starts launching fetchers. *)
Record Launch :=
  { world1 : World;
    out1 : string;
    limiter : Limiter.ChanLimiter;
    fetchers : list (list Act) }.

(** [url] is the line read from the standard input after
    [strings.TrimSpace]; [threads] and [limitMB] are what the two calls of
    [fmt.Scanln] leave in the variables (0 when the scan fails, as its
    error is dropped). *)
Definition main_start (env : Env) (url : string) (threads limitMB : Z)
    (w : World) : Outcome + Launch :=
  let w := say LProbing (say (LUrl url) (say LBanner w)) in
  match getFileSize env url with
  | Err e => inl (Returned (say (LProbeError e) w))
  | Ok fileSize =>
      let w := say (LSize fileSize) w in
      match Planner.chunkSize fileSize threads with
      | None => inl (Panicked w)
      | Some chunkSize =>
          match Planner.chunks fileSize chunkSize with
          | None => inl (Panicked w)
          | Some chunks =>
              let w := say (LSplit chunks chunkSize) w in
              let fileName := fileNameAPS1 url in
              if createFails env fileName
              then inl (Returned (say LCreateError w))
              else
                let w := store fileName [] w in
                if (fileSize <? 0) || truncateFails env
                then inl (Returned (say LTruncateError w))
                else
                  let w := store fileName
                             (replicate (Z.to_nat fileSize) x00) w in
                  match Traffic.NewChanLimiter
                          (Int64.mul (Int64.mul limitMB 1024) 1024) with
                  | None => inl (Panicked w)
                  | Some rl =>
                      inr {| world1 := w; out1 := fileName; limiter := rl;
                             fetchers :=
                               programs env url
                                 (Planner.ranges fileSize chunkSize chunks) |}
                  end
          end
      end
  end.

End APS1.

(** ** [main] of APS1 in its concurrent phase *)

Module Run1.

Import Http Run Limiter.

(** The state of a run of APS1: as in APS2, but the limiter is the
    channel, and every fetcher comes with the number of tokens the call of
    [Wait] it is in has received so far (the counter [i] of its loop). *)
Record Conf1 :=
  { cworld : World;
    cout : string;
    chan : ChanLimiter;
    cwg : Z;
    cmainq : list MainAct;
    cthreads : list (list Act * Z) }.

(** The state in which the launch loop of [main] starts. *)
Definition launch (l : APS1.Launch) : Conf1 :=
  {| cworld := APS1.world1 l; cout := APS1.out1 l; chan := APS1.limiter l;
     cwg := 0;
     cmainq := (MSpawn <$> APS1.fetchers l)
               ++ [MWait; MLog (LCompleted (APS1.out1 l))];
     cthreads := [] |}.

(** Who moves next: the main goroutine, a fetcher, or the ticker
    goroutine with one of its non-blocking sends. *)
Inductive Pick1 :=
| QMain
| QThread (k : nat)
| QSend.

Definition step_main1 (c : Conf1) : Conf1 :=
  match cmainq c with
  | [] => c
  | MSpawn prog :: q =>
      {| cworld := cworld c; cout := cout c; chan := chan c;
         cwg := cwg c + 1; cmainq := q;
         cthreads := cthreads c ++ [(prog, 0)] |}
  | MWait :: q =>
      if cwg c =? 0
      then {| cworld := cworld c; cout := cout c; chan := chan c;
              cwg := cwg c; cmainq := q; cthreads := cthreads c |}
      else c
  | MLog m :: q =>
      {| cworld := say m (cworld c); cout := cout c; chan := chan c;
         cwg := cwg c; cmainq := q; cthreads := cthreads c |}
  end.

(** A fetcher moves.  Inside [Wait(n)] it either leaves the loop, when
    [i < n] fails, or receives one token, which blocks on an empty
    channel. *)
Definition step_thread1 (k : nat) (c : Conf1) : Conf1 :=
  match cthreads c !! k with
  | Some (a :: rest, got) =>
      let pop w g :=
        {| cworld := w; cout := cout c; chan := chan c; cwg := g;
           cmainq := cmainq c; cthreads := <[k := (rest, 0)]> (cthreads c) |} in
      match a with
      | AWait n =>
          if n <=? got then pop (cworld c) (cwg c)
          else
            match recv (chan c) with
            | Some ch =>
                {| cworld := cworld c; cout := cout c; chan := ch;
                   cwg := cwg c; cmainq := cmainq c;
                   cthreads := <[k := (a :: rest, got + 1)]> (cthreads c) |}
            | None => c
            end
      | ARead _ _ _ => pop (cworld c) (cwg c)
      | AWriteAt off p n =>
          pop {| fs := alter (λ f, written f off (take n p)) (cout c)
                         (fs (cworld c));
                 log := log (cworld c) |} (cwg c)
      | ALog m => pop (say m (cworld c)) (cwg c)
      | ADone => pop (cworld c) (cwg c - 1)
      | ASpin => c
      end
  | _ => c
  end.

Definition step1 (p : Pick1) (c : Conf1) : Conf1 :=
  match p with
  | QMain => step_main1 c
  | QThread k => step_thread1 k c
  | QSend =>
      {| cworld := cworld c; cout := cout c;
         chan := Traffic.trySend (chan c);
         cwg := cwg c; cmainq := cmainq c; cthreads := cthreads c |}
  end.

Definition exec1 (sched : list Pick1) (c : Conf1) : Conf1 :=
  foldl (λ c p, step1 p c) c sched.

(** [main] has returned. *)
Definition finished1 (c : Conf1) : Prop := cmainq c = [].

(** The goroutines of a run of APS1 seen as a configuration of APS2,
    with [r] standing in for the limiter: the two programs share the
    orchestrator and the fetchers. *)
Definition skeleton (r : RateLimiter) (c : Conf1) : Conf :=
  {| world := cworld c; out := cout c; rl := r; wg := cwg c;
     mainq := cmainq c; threads := fst <$> cthreads c |}.

Definition with_rl (r : RateLimiter) (c : Conf) : Conf :=
  {| world := world c; out := out c; rl := r; wg := wg c;
     mainq := mainq c; threads := threads c |}.

(** Picks that take fetcher [k] through the action [a], the ticker
    sending one token before each receive. *)
Definition feed (k : nat) (a : Act) : list Pick1 :=
  match a with
  | AWait n =>
      mjoin (replicate (Z.to_nat n) [QSend; QThread k]) ++ [QThread k]
  | _ => [QThread k]
  end.

(** A schedule that lets the main goroutine launch everything, then runs
    the fetchers one after the other, and finally lets the main goroutine
    finish. *)
Definition roundSchedule1 (c : Conf1) : list Pick1 :=
  let progs := unlaunched (cmainq c) in
  replicate (length progs) QMain
  ++ mjoin (imap (λ k p, mjoin (feed (length (cthreads c) + k) <$> p)) progs)
  ++ [QMain; QMain].

(** A channel the ticker can always put a token into or that holds
    one. *)
Definition live (ch : ChanLimiter) : Prop :=
  1 <= capacity ch ∧ 0 <= queued ch <= capacity ch.

End Run1.

(** ** A bucket too small for a request *)

Module Starvation.

Import Fetcher Run Inv Transfer.

(** The bucket holds at most [cap] tokens, and a fetcher still to run
    waits for more than that. *)
Definition starved (cap : Z) (c : Conf) : Prop :=
  Limiter.bytesPerSec (rl c) = cap ∧
  Limiter.tokens (rl c) <= cap ∧
  Int64.in_range (Limiter.tokens (rl c)) ∧
  Exists (Exists (oversized cap)) (pending c).

End Starvation.

(** ** Writes in any order *)

Module Order.

Import Fetcher Run Inv.

(** The file once all the actions of [ps] have run, fetcher after
    fetcher. *)
Definition settle (ps : list (list Act)) (f : list byte) : list byte :=
  foldl (λ f a, file_after a f) f (mjoin ps).

(** A write that stays inside the range [z] of a file of [N] bytes (a
    write of no bytes changes nothing, wherever it is). *)
Definition in_zone (N : nat) (z : Z * Z) (a : Act) : Prop :=
  match a with
  | AWriteAt off p n =>
      take n p = [] ∨
      0 <= z.1 <= off ∧ off + Z.of_nat (length (take n p)) <= z.2 + 1 ∧
      z.2 < Z.of_nat N
  | _ => True
  end.

(** Every fetcher still to run writes inside its own range. *)
Definition zoned (N : nat) (zones : list (Z * Z)) (ps : list (list Act))
  : Prop :=
  Forall2 (λ z p, Forall (in_zone N z) p) zones ps.

(** The output file has [N] bytes, and running what is left fetcher
    after fetcher would end with the content [E]. *)
Definition settling (N : nat) (zones : list (Z * Z)) (E : list byte)
    (c : Conf) : Prop :=
  ∃ f, fs (world c) !! out c = Some f ∧ length f = N ∧
       zoned N zones (pending c) ∧ settle (pending c) f = E.

End Order.

(** ** Sample runs of [main] *)

Module Cases.

Import Http Run Main.

Definition args : list string := ["downloader"; Sample.url; "4"; "1"].

(** A round against [env] in which the fetchers run one after the
    other. *)
Definition round (env : Env) (threads : Z) : Round :=
  {| server := env; clock := 0;
     schedule :=
       match runDownload_start env 0 Sample.url threads 1 Sample.world0 with
       | inr c0 => roundSchedule c0
       | inl _ => []
       end;
     elapsed := 5;
     removeFails := false |}.

(** The same round on a system that refuses to remove the output
    file. *)
Definition sticky (env : Env) (threads : Z) : Round :=
  {| server := env; clock := 0;
     schedule := schedule (round env threads);
     elapsed := 5;
     removeFails := true |}.

(** A directory that holds another file. *)
Definition state0 : State :=
  {| files := {[ "notes.txt" := [x01] ]}; lines := [] |}.

End Cases.

(** * Properties *)

(** ** Arithmetic that stays inside [int64] *)

Section Int64Facts.

Import Int64.

Lemma wrap_small z : in_range z → wrap z = z.
Proof.
  unfold in_range, min_int, max_int, wrap. intros H.
  rewrite Z.mod_small; lia.
Qed.

Lemma wrap_in_range z : in_range (wrap z).
Proof.
  unfold in_range, min_int, max_int, wrap.
  pose proof (Z.mod_pos_bound (z + 2 ^ 63) (2 ^ 64)). lia.
Qed.

Lemma add_small a b : in_range (a + b) → add a b = a + b.
Proof. apply wrap_small. Qed.

Lemma sub_small a b : in_range (a - b) → sub a b = a - b.
Proof. apply wrap_small. Qed.

Lemma mul_small a b : in_range (a * b) → mul a b = a * b.
Proof. apply wrap_small. Qed.

Lemma div_nonneg a b :
  0 <= a → 0 < b → in_range a → div a b = Some (a / b).
Proof.
  intros Ha Hb Hr. unfold div.
  destruct (Z.eqb_spec b 0) as [->|_]; [lia|].
  rewrite Z.quot_div_nonneg by lia.
  rewrite wrap_small; [done|].
  unfold in_range, min_int, max_int in *.
  pose proof (Z.div_pos a b Ha Hb).
  assert (a / b <= a) by (apply Z.div_le_upper_bound; nia).
  lia.
Qed.

(** A sum that overflows and is then brought back by the subtraction
    gives the exact result all the same. *)
Lemma sub_add a b c : in_range (a + b - c) → sub (add a b) c = a + b - c.
Proof.
  intros H. unfold sub, add. rewrite <- (wrap_small (a + b - c) H).
  unfold wrap. f_equal.
  replace ((a + b + 2 ^ 63) mod 2 ^ 64 - 2 ^ 63 - c + 2 ^ 63)
    with ((a + b + 2 ^ 63) mod 2 ^ 64 - c) by lia.
  rewrite Zminus_mod_idemp_l. f_equal. lia.
Qed.

Lemma div_zero a : div a 0 = None.
Proof. reflexivity. Qed.

End Int64Facts.

(** ** The planner *)

Section PlannerFacts.

Import Int64 Planner.

Lemma ceil_div_bounds a b :
  0 < a → 0 < b → (ceil_div a b - 1) * b < a <= ceil_div a b * b.
Proof.
  intros Ha Hb. unfold ceil_div.
  pose proof (Z.mul_div_le (a + b - 1) b Hb).
  pose proof (Z.mul_succ_div_gt (a + b - 1) b Hb).
  lia.
Qed.

Lemma ceil_div_range a b : 0 < a → 0 < b → 1 <= ceil_div a b <= a.
Proof.
  intros Ha Hb. pose proof (ceil_div_bounds a b Ha Hb). nia.
Qed.

Lemma spec_ranges_contiguous N cs n (m : nat) k :
  0 < cs → (n - 1) * cs < N → 0 <= k → k + Z.of_nat m <= n →
  contiguous_from (k * cs) (spec_range N cs <$> seqZ k (Z.of_nat m)).
Proof.
  intros Hcs Hn. revert k. induction m as [|m IH]; intros k Hk Hkm.
  - done.
  - rewrite seqZ_cons by lia. cbn [fmap list_fmap contiguous_from spec_range].
    assert (k * cs <= (n - 1) * cs) by (apply Z.mul_le_mono_nonneg_r; lia).
    split; [done|]. split; [lia|].
    replace (Z.pred (Z.of_nat (S m))) with (Z.of_nat m) by lia.
    destruct m as [|m'].
    + done.
    + replace (Z.min ((k + 1) * cs - 1) (N - 1) + 1) with (Z.succ k * cs) by nia.
      apply IH; lia.
Qed.

Lemma spec_ranges_total N cs n (m : nat) k :
  0 < cs → (n - 1) * cs < N <= n * cs → 0 <= k →
  k + Z.of_nat (S m) = n →
  total_len (spec_range N cs <$> seqZ k (Z.of_nat (S m))) = N - k * cs.
Proof.
  intros Hcs Hn. revert k. induction m as [|m IH]; intros k Hk Hkm.
  - change (Z.of_nat 1) with 1. rewrite seqZ_cons, seqZ_nil by lia.
    cbn [fmap list_fmap total_len foldr].
    unfold chunk_len, spec_range; cbn [fst snd].
    rewrite Z.min_r by nia. lia.
  - rewrite seqZ_cons by lia.
    replace (Z.pred (Z.of_nat (S (S m)))) with (Z.of_nat (S m)) by lia.
    cbn [fmap list_fmap total_len foldr].
    change (foldr _ 0 ?l) with (total_len l).
    rewrite IH by lia.
    unfold chunk_len, spec_range; cbn [fst snd].
    assert ((k + 1) * cs <= (n - 1) * cs)
      by (apply Z.mul_le_mono_nonneg_r; lia).
    rewrite Z.min_l by lia. lia.
Qed.

Lemma spec_ranges_last N cs n (m : nat) k :
  0 < cs → N <= n * cs → k + Z.of_nat (S m) = n →
  ends_at (N - 1) (spec_range N cs <$> seqZ k (Z.of_nat (S m))).
Proof.
  intros Hcs Hn. revert k. induction m as [|m IH]; intros k Hkm.
  - change (Z.of_nat 1) with 1. rewrite seqZ_cons, seqZ_nil by lia.
    unfold ends_at, spec_range. cbn.
    rewrite Z.min_r by nia. done.
  - rewrite seqZ_cons by lia.
    replace (Z.pred (Z.of_nat (S (S m)))) with (Z.of_nat (S m)) by lia.
    specialize (IH (Z.succ k) ltac:(lia)).
    unfold ends_at in *. rewrite fmap_cons.
    destruct (spec_range N cs <$> seqZ (Z.succ k) (Z.of_nat (S m))) eqn:E.
    + rewrite seqZ_cons in E by lia. done.
    + rewrite last_cons_cons. done.
Qed.

Lemma contiguous_lower next l i c :
  contiguous_from next l → l !! i = Some c → next <= c.1 ∧ c.1 <= c.2.
Proof.
  revert next i. induction l as [|[s e] l IH]; intros next i H Hi; [done|].
  destruct H as (-> & Hse & H). destruct i as [|i].
  - injection Hi as <-. cbn. lia.
  - apply (IH _ _ H) in Hi. lia.
Qed.

Lemma contiguous_non_overlapping next l :
  contiguous_from next l → non_overlapping l.
Proof.
  revert next. induction l as [|[s e] l IH]; intros next H.
  - intros i j c1 c2 Hi. done.
  - destruct H as (-> & Hse & H).
    intros i j c1 c2 Hi Hj Hne. unfold disjoint.
    destruct i as [|i], j as [|j]; try done.
    + injection Hi as <-. apply (contiguous_lower _ _ _ _ H) in Hj. cbn. lia.
    + injection Hj as <-. apply (contiguous_lower _ _ _ _ H) in Hi. cbn. lia.
    + eapply (IH _ H i j); eauto.
Qed.

End PlannerFacts.

Section PlannerInRange.

Import Int64 Planner.

Lemma chunkSize_fits fileSize threads :
  fits fileSize threads →
  chunkSize fileSize threads = Some (ceil_div fileSize threads).
Proof.
  intros (Hf & Ht & H1 & H2). unfold chunkSize, ceil_div.
  unfold max_int in *.
  rewrite sub_add by (unfold in_range, min_int, max_int; lia).
  apply div_nonneg; [lia..|unfold in_range, min_int, max_int; lia].
Qed.

Lemma chunks_fits fileSize threads :
  fits fileSize threads →
  chunks fileSize (ceil_div fileSize threads)
  = Some (ceil_div fileSize (ceil_div fileSize threads)).
Proof.
  intros (Hf & Ht & H1 & H2).
  pose proof (ceil_div_range fileSize threads Hf Ht).
  unfold chunks. unfold ceil_div at 3. unfold max_int in *.
  rewrite sub_add by (unfold in_range, min_int, max_int; lia).
  apply div_nonneg; [lia..|unfold in_range, min_int, max_int; lia].
Qed.

Lemma chunkRange_fits fileSize cs n i :
  0 < cs → 0 < fileSize → (n - 1) * cs < fileSize <= n * cs →
  fileSize + cs - 1 <= max_int → 0 <= i < n →
  chunkRange fileSize cs i = spec_range fileSize cs i.
Proof.
  intros Hcs Hf Hn Hmax Hi. unfold chunkRange, spec_range, max_int in *.
  assert (i * cs <= (n - 1) * cs) by (apply Z.mul_le_mono_nonneg_r; lia).
  assert (0 <= i * cs) by (apply Z.mul_nonneg_nonneg; lia).
  rewrite (mul_small i) by (unfold in_range, min_int, max_int; lia).
  rewrite (add_small i) by (unfold in_range, min_int, max_int; nia).
  rewrite mul_small by (unfold in_range, min_int, max_int; lia).
  rewrite (sub_small _ 1) by (unfold in_range, min_int, max_int; lia).
  rewrite (sub_small fileSize) by (unfold in_range, min_int, max_int; lia).
  f_equal. rewrite Z.geb_leb.
  destruct (Z.leb_spec fileSize ((i + 1) * cs - 1)); lia.
Qed.

(** Inside the range of [int64] the program computes the chunk list of
    the specification. *)
Lemma plan_fits fileSize threads :
  fits fileSize threads →
  plan fileSize threads = Some (spec_ranges fileSize threads).
Proof.
  intros Hfit. unfold plan.
  rewrite (chunkSize_fits _ _ Hfit). cbn [mbind option_bind].
  rewrite (chunks_fits _ _ Hfit). cbn [mbind option_bind].
  f_equal. unfold ranges, spec_ranges.
  destruct Hfit as (Hf & Ht & H1 & H2).
  pose proof (ceil_div_range fileSize threads Hf Ht) as Hcs.
  pose proof (ceil_div_bounds fileSize (ceil_div fileSize threads) Hf
                ltac:(lia)) as Hn.
  apply list_fmap_ext. intros k i Hk. apply lookup_seqZ in Hk as [-> Hk].
  eapply chunkRange_fits; eauto; lia.
Qed.

(** The chunk list of the specification is an exact partition. *)
Lemma spec_ranges_partition totalSize workerCount :
  0 < totalSize → 0 < workerCount →
  let l := spec_ranges totalSize workerCount in
  contiguous_from 0 l ∧ non_overlapping l ∧ fst <$> head l = Some 0 ∧
  ends_at (totalSize - 1) l ∧ total_len l = totalSize.
Proof.
  intros Hf Ht l. subst l. unfold spec_ranges.
  pose proof (ceil_div_range totalSize workerCount Hf Ht) as Hcs.
  set (cs := ceil_div totalSize workerCount) in *.
  pose proof (ceil_div_bounds totalSize cs Hf ltac:(lia)) as Hn.
  pose proof (ceil_div_range totalSize cs Hf ltac:(lia)) as Hn'.
  set (n := ceil_div totalSize cs) in *.
  assert (Hc : contiguous_from 0 (spec_range totalSize cs <$> seqZ 0 n)).
  { replace n with (Z.of_nat (Z.to_nat n)) at 1 by lia.
    apply (spec_ranges_contiguous totalSize cs n (Z.to_nat n) 0); lia. }
  split; [done|]. split; [by eapply contiguous_non_overlapping|].
  replace n with (Z.of_nat (S (Z.to_nat (n - 1)))) by lia.
  split; [|split].
  - rewrite seqZ_cons by lia. done.
  - apply (spec_ranges_last _ _ n); lia.
  - rewrite (spec_ranges_total _ _ n); lia.
Qed.

End PlannerInRange.

Section PlannerClaims.

Import Int64 Planner.

Lemma chunkSize_of_empty threads :
  0 < threads → threads <= max_int → chunkSize 0 threads = Some 0.
Proof.
  intros Ht Hmax. unfold chunkSize, max_int in *.
  rewrite sub_add by (unfold in_range, min_int, max_int; lia).
  rewrite div_nonneg by (unfold in_range, min_int, max_int; lia).
  f_equal. apply Z.div_small. lia.
Qed.

(** Partition correctness inside the range of [int64]: for every
    [totalSize > 0] and [workerCount > 0] whose planning arithmetic does
    not overflow, the chunk list the program computes is the one of the
    specification, is contiguous and non-overlapping, starts at 0, ends at
    [totalSize - 1], and its lengths sum to [totalSize]. *)
Theorem plan_partition totalSize workerCount :
  fits totalSize workerCount →
  ∃ l, plan totalSize workerCount = Some l ∧
       l = spec_ranges totalSize workerCount ∧
       contiguous_from 0 l ∧ non_overlapping l ∧
       fst <$> head l = Some 0 ∧
       ends_at (totalSize - 1) l ∧ total_len l = totalSize.
Proof.
  intros Hfit. exists (spec_ranges totalSize workerCount).
  split; [by apply plan_fits|]. split; [done|].
  destruct Hfit as (Hf & Ht & _). by apply spec_ranges_partition.
Qed.

Lemma plan_partition_witness :
  fits 10 4 ∧
  ∃ l, plan 10 4 = Some l ∧ l = spec_ranges 10 4 ∧
       contiguous_from 0 l ∧ non_overlapping l ∧
       fst <$> head l = Some 0 ∧ ends_at 9 l ∧ total_len l = 10.
Proof.
  assert (H : fits 10 4) by (repeat split; by vm_compute).
  split; [exact H|]. exact (plan_partition 10 4 H).
Defined.

(** C2 on the code: as long as the two sums of the planning arithmetic
    stay inside [int64], the program computes the chunk list of the
    specification, which is contiguous, non-overlapping, starts at 0, ends
    at [totalSize - 1] and has lengths summing to [totalSize].  At a
    worker count near the top of [int64] it does not: for ten bytes and
    [2^63 - 1] workers the sum [fileSize + threads - 1] wraps to a
    negative number, [chunkSize] becomes 0 and the next division panics,
    where the specification's planner yields ten one-byte chunks; and for
    a file of [2^63 - 1] bytes and two workers the program plans no chunk
    at all. *)
Theorem plan_overflow :
  (∀ totalSize workerCount,
     fits totalSize workerCount →
     ∃ l, plan totalSize workerCount = Some l ∧
          l = spec_ranges totalSize workerCount ∧
          contiguous_from 0 l ∧ non_overlapping l ∧
          fst <$> head l = Some 0 ∧
          ends_at (totalSize - 1) l ∧ total_len l = totalSize) ∧
  chunkSize 10 (2 ^ 63 - 1) = Some 0 ∧
  plan 10 (2 ^ 63 - 1) = None ∧
  spec_ranges 10 (2 ^ 63 - 1)
  = [(0, 0); (1, 1); (2, 2); (3, 3); (4, 4);
     (5, 5); (6, 6); (7, 7); (8, 8); (9, 9)] ∧
  plan (2 ^ 63 - 1) 2 = Some [].
Proof.
  split; [exact plan_partition|].
  repeat split; vm_compute; reflexivity.
Qed.

Lemma plan_overflow_witness :
  fits 1000 4 ∧
  ∃ l, plan 1000 4 = Some l ∧ l = spec_ranges 1000 4 ∧
       contiguous_from 0 l ∧ non_overlapping l ∧
       fst <$> head l = Some 0 ∧ ends_at 999 l ∧ total_len l = 1000.
Proof.
  assert (H : fits 1000 4) by (repeat split; by vm_compute).
  split; [exact H|]. exact (proj1 plan_overflow 1000 4 H).
Defined.

(** C10: a probed length of 0 with any positive worker count makes
    [chunkSize] 0, the chunk-count division panics, and the run ends in
    that panic with the file system as it found it: no output file, empty
    or otherwise, is produced. *)
Theorem zero_length_panics env now url threads limitMB w :
  getFileSize env url = Ok 0 →
  0 < threads → threads <= max_int →
  chunkSize 0 threads = Some 0 ∧
  chunks 0 0 = None ∧
  ∃ w', Run.runDownload_start env now url threads limitMB w
        = inl (Run.Panicked w') ∧
        Run.fs w' = Run.fs w.
Proof.
  intros Hsize Ht Hmax.
  pose proof (chunkSize_of_empty threads Ht Hmax) as Hcs.
  split; [done|]. split; [done|].
  unfold Run.runDownload_start. rewrite Hsize, Hcs.
  change (chunks 0 0) with (@None Z). eexists. split; [done|]. done.
Qed.

End PlannerClaims.

(** ** SizeProbe *)

Section ProbeFacts.

Import Http.

Lemma ParseInt_empty : is_err (Strconv.ParseInt "").
Proof. exact I. Qed.

Lemma Get_absent (h : gmap string (list string)) key :
  h !! key = None → Get h key = "".
Proof. unfold Get. by intros ->. Qed.

(** C3: [getFileSize] fails exactly when the metadata request fails, or
    [Accept-Ranges] is not the string [bytes], or [Content-Length] is
    absent or is not a base-10 [int64]; when it succeeds it returns the
    parsed length; and when it fails the run returns at once, leaving the
    file system as it found it, so that no output file is created. *)
Theorem getFileSize_contract env url :
  (is_err (getFileSize env url) ↔
     head env url = None ∨
     ∃ header, head env url = Some header ∧
       (Get header "Accept-Ranges" ≠ "bytes" ∨
        header !! "Content-Length" = None ∨
        is_err (Strconv.ParseInt (Get header "Content-Length")))) ∧
  (∀ size, getFileSize env url = Ok size ↔
     ∃ header, head env url = Some header ∧
       Get header "Accept-Ranges" = "bytes" ∧
       Strconv.ParseInt (Get header "Content-Length") = Ok size) ∧
  (∀ now threads limitMB w,
     is_err (getFileSize env url) →
     ∃ e, getFileSize env url = Err e ∧
          Run.runDownload_start env now url threads limitMB w
          = inl (Run.Returned
                   (Run.say (LProbeError e)
                      (Run.say LProbing
                         (Run.say (LUrl url) (Run.say LBanner w))))) ∧
          Run.fs (Run.say (LProbeError e)
                    (Run.say LProbing
                       (Run.say (LUrl url) (Run.say LBanner w))))
          = Run.fs w).
Proof.
  split; [|split].
  - unfold getFileSize. destruct (head env url) as [header|]; [|by split; auto].
    case_bool_decide as Har.
    { split; [|done]. intros _. right. exists header. auto. }
    case_bool_decide as Hlen.
    { split; [|done]. intros _. right. exists header. split; [done|].
      right. right. rewrite Hlen. exact I. }
    destruct (Strconv.ParseInt (Get header "Content-Length")) as [size|e] eqn:Hp.
    + split; [done|]. intros [?|(h' & [= <-] & [?|[Hab|Herr]])]; try done.
      * by apply Get_absent in Hab.
      * by rewrite Hp in Herr.
    + split; [|done]. intros _. right. exists header. split; [done|].
      right. right. by rewrite Hp.
  - intros size. unfold getFileSize.
    destruct (head env url) as [header|].
    2: { split; [done|]. by intros (? & ? & _). }
    case_bool_decide as Har.
    { split; [done|]. by intros (? & [= <-] & ? & _). }
    case_bool_decide as Hlen.
    { split; [done|]. intros (? & [= <-] & _ & Hp). by rewrite Hlen in Hp. }
    destruct (Strconv.ParseInt (Get header "Content-Length")) as [sz|e] eqn:Hp.
    + split.
      * intros [= ->]. eauto.
      * intros (? & [= <-] & _ & Hp'). congruence.
    + split; [done|]. intros (? & [= <-] & _ & Hp'). congruence.
  - intros now threads limitMB w Herr. unfold Run.runDownload_start.
    destruct (getFileSize env url) as [|e]; [done|]. eauto.
Qed.

End ProbeFacts.

(** ** File naming *)

Section NamingFacts.

Import Http Path.

Lemma str_chars s : str (chars s) = s.
Proof. apply string_of_list_ascii_of_string. Qed.

Lemma chars_str l : chars (str l) = l.
Proof. apply list_ascii_of_string_of_list_ascii. Qed.

Lemma str_app a b : str (a ++ b) = str a +:+ str b.
Proof.
  induction a as [|c a IH]; [done|].
  change (String c (str (a ++ b)) = String c (str a +:+ str b)).
  by rewrite IH.
Qed.

Lemma ext_scan_suffix r acc :
  ∃ pre, reverse r ++ acc = pre ++ ext_scan r acc.
Proof.
  revert acc. induction r as [|c r IH]; intros acc.
  - exists acc. cbn. by rewrite app_nil_r.
  - cbn [ext_scan]. rewrite reverse_cons, <- app_assoc.
    case_bool_decide; [eexists; by rewrite app_nil_r|].
    case_bool_decide; [by exists (reverse r)|].
    apply IH.
Qed.

Lemma ext_scan_shape r acc :
  Forall plain acc →
  ext_scan r acc = [] ∨
  ∃ e, ext_scan r acc = dot :: e ∧ Forall plain e.
Proof.
  revert acc. induction r as [|c r IH]; intros acc Hacc; [by left|].
  cbn [ext_scan]. case_bool_decide; [by left|].
  case_bool_decide as Hd; [right; exists acc; by rewrite Hd|].
  apply IH. by constructor.
Qed.

(** [path.Ext] returns a suffix of its argument, and [strings.TrimSuffix]
    takes exactly that suffix away. *)
Lemma Ext_suffix p : p = TrimSuffix p (Ext p) +:+ Ext p.
Proof.
  unfold TrimSuffix, Ext. rewrite chars_str.
  destruct (ext_scan_suffix (reverse (chars p)) []) as [pre Hpre].
  rewrite reverse_involutive, app_nil_r in Hpre.
  set (suf := ext_scan (reverse (chars p)) []) in *.
  rewrite Hpre, length_app.
  replace (length pre + length suf - length suf)%nat with (length pre) by lia.
  rewrite drop_app_length, take_app_length.
  rewrite bool_decide_eq_true_2 by done.
  rewrite <- str_app, <- Hpre. by rewrite str_chars.
Qed.

(** The extension is empty or a dot followed by characters that are
    neither dots nor slashes. *)
Lemma Ext_shape p :
  Ext p = "" ∨ ∃ e, Ext p = "." +:+ str e ∧ Forall plain e.
Proof.
  unfold Ext.
  destruct (ext_scan_shape (reverse (chars p)) [] ltac:(constructor))
    as [->|(e & -> & He)]; [by left|right].
  by exists e.
Qed.

(** The naming rule of APS2: the basename of the parsed path, its
    extension replaced by the value of [format] when the query gives
    one. *)
Lemma getFileName_rule env rawURL u :
  url_Parse env rawURL = Some u →
  let base := Base (Path u) in
  let format := Get (Query u) "format" in
  (format = "" → getFileName env rawURL = base) ∧
  (format ≠ "" →
   ∃ stem, base = stem +:+ Ext base ∧
           getFileName env rawURL = stem +:+ "." +:+ format).
Proof.
  intros Hu base format. unfold getFileName. rewrite Hu.
  fold base format. split; intros Hf.
  - by rewrite bool_decide_eq_false_2 by (by intros ?).
  - rewrite bool_decide_eq_true_2 by done.
    exists (TrimSuffix base (Ext base)). split; [apply Ext_suffix|done].
Qed.

(** C9 on the two variants.  APS2 follows the rule for every URL that
    [url.Parse] accepts: the name is the basename of the parsed path, its
    extension replaced by the value of [format] when the query gives one.
    APS1 does not: for a URL with the query [format=zip] it takes
    [path.Base] of the whole URL string and keeps the query in the name,
    where APS2 names the file after the path and the format. *)
Theorem naming_variants_differ :
  (∀ env rawURL u,
     url_Parse env rawURL = Some u →
     let base := Base (Path u) in
     let format := Get (Query u) "format" in
     (format = "" → getFileName env rawURL = base) ∧
     (format ≠ "" →
      ∃ stem, base = stem +:+ Ext base ∧
              getFileName env rawURL = stem +:+ "." +:+ format)) ∧
  (∀ env,
     url_Parse env "http://example.com/file.bin?format=zip"
     = Some {| Path := "/file.bin";
               Query := {[ "format" := ["zip"%string] ]} |} →
     getFileName env "http://example.com/file.bin?format=zip" = "file.zip" ∧
     fileNameAPS1 "http://example.com/file.bin?format=zip"
     = "file.bin?format=zip").
Proof.
  split; [exact getFileName_rule|].
  intros env Hu. split; [|by vm_compute].
  unfold getFileName. rewrite Hu. by vm_compute.
Qed.

End NamingFacts.

(** ** The rate limiter *)

Section LimiterFacts.

Import Int64 Limiter.

Lemma refill_tokens_in_range now k rl :
  in_range (tokens rl) → in_range (bytesPerSec rl) →
  in_range (tokens (refill now k rl)).
Proof.
  intros Ht Hb. unfold refill. destruct (k >? 0); [|done]. cbn.
  destruct (_ >? _); [done|apply wrap_in_range].
Qed.

(** A successful pass of APS2's [Wait] takes exactly [n] tokens out of
    the refilled bucket. *)
Lemma Wait_poll_takes now k n rl rl' :
  0 <= n → in_range (tokens rl) → in_range (bytesPerSec rl) →
  Wait_poll now k n rl = (rl', true) →
  tokens rl' = tokens (refill now k rl) - n ∧ 0 <= tokens rl' ∧
  bytesPerSec rl' = bytesPerSec rl.
Proof.
  intros Hn Ht Hb. unfold Wait_poll.
  pose proof (refill_tokens_in_range now k rl Ht Hb) as Hr.
  assert (Hbps : bytesPerSec (refill now k rl) = bytesPerSec rl).
  { unfold refill. by destruct (k >? 0). }
  rewrite Z.geb_leb.
  destruct (Z.leb_spec n (tokens (refill now k rl))); [|done].
  intros [= <-]. cbn. unfold in_range, min_int, max_int in *.
  rewrite sub_small by (unfold in_range, min_int, max_int; lia). lia.
Qed.

Lemma Wait_poll_blocked now k n rl rl' :
  Wait_poll now k n rl = (rl', false) → rl' = refill now k rl.
Proof.
  unfold Wait_poll. destruct (_ >=? _); [done|]. by intros [= <-].
Qed.

(** [Wait] of APS2, when it returns, has taken exactly [n] tokens. *)
Lemma Wait_takes clock n rl filled left :
  0 <= n → in_range (tokens rl) → in_range (bytesPerSec rl) →
  Wait clock n rl = Some (filled, left) →
  tokens left = tokens filled - n.
Proof.
  intros Hn. revert rl.
  induction clock as [|[now k] clock IH]; intros rl Ht Hb; [done|].
  cbn [Wait]. destruct (Wait_poll now k n rl) as [rl' [|]] eqn:Hp.
  - intros [= <- <-]. by apply Wait_poll_takes in Hp as [-> _].
  - apply Wait_poll_blocked in Hp as ->. apply IH.
    + by apply refill_tokens_in_range.
    + unfold refill. by destruct (k >? 0).
Qed.

(** A pass of APS2's [Wait] hands out no more than the bucket held plus
    what the clock credited, and never leaves more than [bytesPerSec] in
    the bucket. *)
Lemma Wait_poll_budget now k n rl rl' ok :
  0 <= n → in_range (tokens rl) → tokens rl <= bytesPerSec rl →
  Wait_poll now k n rl = (rl', ok) →
  tokens rl' + (if ok then n else 0) <= tokens rl + Z.max 0 k ∧
  tokens rl' <= bytesPerSec rl' ∧ bytesPerSec rl' = bytesPerSec rl ∧
  in_range (tokens rl').
Proof.
  intros Hn Ht Hcap. unfold Wait_poll.
  assert (Hfill : tokens (refill now k rl) <= tokens rl + Z.max 0 k ∧
                  tokens (refill now k rl) <= bytesPerSec rl ∧
                  bytesPerSec (refill now k rl) = bytesPerSec rl ∧
                  in_range (tokens (refill now k rl))).
  { unfold refill.
    destruct (Z.gtb_spec k 0) as [Hk|Hk];
      [|split; [lia|split; [exact Hcap|split; [reflexivity|exact Ht]]]].
    cbn [tokens bytesPerSec].
    pose proof (wrap_in_range (tokens rl + k)) as Hw.
    assert (Hle : wrap (tokens rl + k) <= tokens rl + k).
    { unfold wrap, in_range, min_int, max_int in *.
      pose proof (Z.mod_le (tokens rl + k + 2 ^ 63) (2 ^ 64)
                    ltac:(lia) ltac:(lia)). lia. }
    unfold add.
    destruct (Z.gtb_spec (wrap (tokens rl + k)) (bytesPerSec rl));
      unfold in_range, min_int, max_int in *; repeat split; lia. }
  destruct Hfill as (H1 & H2 & H3 & H4).
  rewrite Z.geb_leb.
  destruct (Z.leb_spec n (tokens (refill now k rl))); intros [= <- <-];
    cbn [tokens bytesPerSec].
  - unfold in_range, min_int, max_int in *.
    rewrite sub_small by (unfold in_range, min_int, max_int; lia).
    repeat split; lia.
  - rewrite H3. split; [lia|]. split; [lia|]. split; [done|exact H4].
Qed.

(** The ticker of APS1 never fills the channel beyond its capacity. *)
Lemma tick_capped rl : queued (tick rl) <= capacity rl.
Proof. unfold tick. cbn. lia. Qed.

(** [Wait] of APS1 returns after exactly [n] receives. *)
Lemma WaitChan_takes n rl rl' :
  WaitChan n rl = Some rl' → queued rl' = queued rl - Z.of_nat n.
Proof.
  revert rl. induction n as [|n IH]; intros rl.
  - intros [= <-]. cbn. lia.
  - cbn [WaitChan]. unfold recv at 1.
    destruct (Z.gtb_spec (queued rl) 0) as [Hq|]; [|done].
    cbn [mbind option_bind]. intros H. apply IH in H. cbn in H. lia.
Qed.

End LimiterFacts.

(** ** The fetcher *)

Section FetcherFacts.

Import Http Fetcher.

Lemma quantum_val : Z.of_nat quantum = 16 * 1024.
Proof. by vm_compute. Qed.

Lemma quantum_pos : (0 < quantum)%nat.
Proof. apply Nat2Z.inj_lt. rewrite quantum_val. lia. Qed.

Lemma clip_copyBuf :
  (if (quantum <? copyBuf)%nat then quantum else copyBuf) = quantum.
Proof. by vm_compute. Qed.

(** From here on the two sizes are kept folded. *)
Opaque quantum copyBuf.

Lemma Read_empty n b :
  payload b = [] →
  Read n b = (([], Some (if broken b then ErrConn else EOF)), b).
Proof. unfold Read. by intros ->. Qed.

Lemma Read_data b :
  payload b ≠ [] → (∃ k b', delivers b k b') ∨ (∃ b', closes b b').
Proof.
  intros Hp. unfold delivers, closes, Read, copyFuel.
  destruct (payload b) as [|x P] eqn:HP; [done|].
  set (k := match short b with
            | [] => quantum
            | s :: _ => Nat.min s quantum
            end).
  assert (Hk : (k <= quantum)%nat) by (subst k; destruct (short b); lia).
  assert (Hfuel : (length (drop k (x :: P)) + length (tail (short b))
                   < length (x :: P) + length (short b))%nat).
  { subst k. pose proof quantum_pos. rewrite length_drop.
    destruct (short b); cbn [length tail]; lia. }
  destruct (drop k (x :: P)) as [|y rest] eqn:Hrest.
  - destruct (eager b) eqn:He.
    + right. eexists. split; [|repeat split; try done].
      * do 2 f_equal. apply take_ge.
        apply (f_equal length) in Hrest. rewrite length_drop in Hrest.
        cbn [length] in *. lia.
      * apply (f_equal length) in Hrest. rewrite length_drop in Hrest.
        cbn [length] in *. lia.
    + left. exists k. eexists. split; [done|]. cbn [payload short broken].
      rewrite Hrest. cbn [length] in *. repeat split; lia.
  - left. exists k. eexists. split; [done|]. cbn [payload short broken].
    rewrite Hrest. cbn [length] in *. repeat split; lia.
Qed.

Lemma WriteAt_spec d p off nw ok d' :
  WriteAt d p off = ((nw, ok), d') →
  (nw <= length p)%nat ∧
  (ok = true → nw = length p ∧ 0 <= off) ∧
  (d = None → 0 <= off → ok = true ∧ d' = None).
Proof.
  unfold WriteAt. destruct (Z.ltb_spec off 0).
  - intros [= <- <- <-]. repeat split; try done; lia.
  - destruct d as [q|].
    + destruct (Nat.leb_spec (length p) q); intros [= <- <- <-];
        repeat split; try done; lia.
    + intros [= <- <- <-]. repeat split; try done; lia.
Qed.

Lemma copyLoop_unfold fuel sw d b :
  copyLoop (S fuel) sw d b =
  let '((got, er), b') := Read quantum b in
  match got with
  | [] =>
      match er with
      | None =>
          let (acts, r) := copyLoop fuel sw d b' in
          (readActs got er ++ acts, r)
      | Some EOF => (readActs got er, CopyOk)
      | Some ErrConn => (readActs got er, CopyFailed)
      end
  | _ =>
      let '(wa, (nw, ok), sw', d') := sectionWriter_Write got sw d in
      if negb ok then (readActs got er ++ wa, CopyFailed)
      else if negb (length got =? nw)%nat
           then (readActs got er ++ wa, CopyFailed)
           else
             match er with
             | None =>
                 let (acts, r) := copyLoop fuel sw' d' b' in
                 (readActs got er ++ wa ++ acts, r)
             | Some EOF => (readActs got er ++ wa, CopyOk)
             | Some ErrConn => (readActs got er ++ wa, CopyFailed)
             end
  end.
Proof.
  cbn [copyLoop]. unfold rateLimitedReader_Read. rewrite clip_copyBuf.
  destruct (Read quantum b) as [[got er] b']. reflexivity.
Qed.

(** Case analysis and induction along the copy loop. *)
Lemma copyLoop_elim
    (P : nat → sectionWriter → option nat → Body
         → list Act * CopyResult → Prop) :
  (∀ sw d b, P O sw d b ([], CopyRunning)) →
  (∀ fuel sw d b,
     payload b = [] →
     P (S fuel) sw d b
       (readActs [] (Some (if broken b then ErrConn else EOF)),
        if broken b then CopyFailed else CopyOk)) →
  (∀ fuel sw d b k b',
     delivers b k b' → take k (payload b) = [] →
     P fuel sw d b' (copyLoop fuel sw d b') →
     P (S fuel) sw d b
       (readActs [] None ++ (copyLoop fuel sw d b').1,
        (copyLoop fuel sw d b').2)) →
  (∀ fuel sw d b k b' nw ok d',
     delivers b k b' → take k (payload b) ≠ [] →
     WriteAt d (take k (payload b)) (offset sw) = ((nw, ok), d') →
     ok = false ∨ nw ≠ length (take k (payload b)) →
     P (S fuel) sw d b
       (readActs (take k (payload b)) None
        ++ [AWriteAt (offset sw) (take k (payload b)) nw], CopyFailed)) →
  (∀ fuel sw d b k b' d',
     delivers b k b' → take k (payload b) ≠ [] →
     WriteAt d (take k (payload b)) (offset sw)
     = ((length (take k (payload b)), true), d') →
     let sw' := {| offset := Int64.add (offset sw)
                               (Z.of_nat (length (take k (payload b)))) |} in
     P fuel sw' d' b' (copyLoop fuel sw' d' b') →
     P (S fuel) sw d b
       (readActs (take k (payload b)) None
        ++ [AWriteAt (offset sw) (take k (payload b))
              (length (take k (payload b)))]
        ++ (copyLoop fuel sw' d' b').1,
        (copyLoop fuel sw' d' b').2)) →
  (∀ fuel sw d b b' nw ok d',
     closes b b' →
     WriteAt d (payload b) (offset sw) = ((nw, ok), d') →
     ok = false ∨ nw ≠ length (payload b) →
     P (S fuel) sw d b
       (readActs (payload b) (Some (if broken b then ErrConn else EOF))
        ++ [AWriteAt (offset sw) (payload b) nw], CopyFailed)) →
  (∀ fuel sw d b b' d',
     closes b b' →
     WriteAt d (payload b) (offset sw)
     = ((length (payload b), true), d') →
     P (S fuel) sw d b
       (readActs (payload b) (Some (if broken b then ErrConn else EOF))
        ++ [AWriteAt (offset sw) (payload b) (length (payload b))],
        if broken b then CopyFailed else CopyOk)) →
  ∀ fuel sw d b, P fuel sw d b (copyLoop fuel sw d b).
Proof.
  intros H0 Heof Hidle Hfail Hok Hlastfail Hlast.
  induction fuel as [|fuel IH]; intros sw d b; [apply H0|].
  rewrite copyLoop_unfold.
  destruct (payload b) as [|x pl] eqn:Hpl.
  { rewrite Read_empty by done. destruct (broken b) eqn:Hb.
    - specialize (Heof fuel sw d b Hpl). by rewrite Hb in Heof.
    - specialize (Heof fuel sw d b Hpl). by rewrite Hb in Heof. }
  destruct (Read_data b) as [(k & b' & Hdel)|(b' & Hcl)]; [by rewrite Hpl| |].
  2: { pose proof Hcl as (Hread & Hne & _).
       rewrite Hread.
       destruct (payload b) as [|y got] eqn:Hgot; [done|].
       rewrite <- Hgot in *. unfold sectionWriter_Write.
       destruct (WriteAt d (payload b) (offset sw)) as [[nw ok] d'] eqn:Hw.
       destruct ok; cbn [negb].
       - destruct (Nat.eqb_spec (length (payload b)) nw) as [<-|Hlen];
           cbn [negb].
         + specialize (Hlast fuel sw d b b' d' Hcl Hw).
           by destruct (broken b).
         + specialize (Hlastfail fuel sw d b b' nw true d' Hcl Hw).
           destruct (broken b); apply Hlastfail; by right.
       - specialize (Hlastfail fuel sw d b b' nw false d' Hcl Hw).
         destruct (broken b); apply Hlastfail; by left. }
  pose proof Hdel as (Hread & _). rewrite Hread.
  destruct (take k (payload b)) as [|y got] eqn:Hgot.
  { specialize (Hidle fuel sw d b k b' Hdel Hgot (IH _ _ _)).
    by destruct (copyLoop fuel sw d b'). }
  rewrite <- Hgot. unfold sectionWriter_Write.
  destruct (WriteAt d (take k (payload b)) (offset sw)) as [[nw ok] d'] eqn:Hw.
  assert (Hne : take k (payload b) ≠ []) by by rewrite Hgot.
  destruct ok; cbn [negb].
  - destruct (Nat.eqb_spec (length (take k (payload b))) nw) as [<-|Hlen];
      cbn [negb].
    + specialize (Hok fuel sw d b k b' d' Hdel Hne Hw (IH _ _ _)).
      cbn zeta in Hok.
      by destruct (copyLoop fuel _ d' b').
    + eapply Hfail; eauto.
  - eapply Hfail; eauto.
Qed.

Lemma throttled_app l1 l2 :
  throttled l1 → throttled l2 → throttled (l1 ++ l2).
Proof.
  revert l1. fix IH 1. intros [|a l1] H1 H2; [exact H2|].
  destruct a; cbn in *; try (apply IH; assumption); try done.
  destruct l1 as [|[] l1]; try done. cbn in *.
  destruct H1 as (? & ? & ? & H1). repeat split; try done. by apply IH.
Qed.

(** Every read of the copy loop is a quantum of 16 KiB paid for by the
    wait just before it. *)
Lemma copy_throttled fuel sw d b : throttled (copyLoop fuel sw d b).1.
Proof.
  apply (copyLoop_elim (λ _ _ _ _ res, throttled res.1)); clear.
  - done.
  - intros _ sw d b Hp. cbn. repeat split; lia.
  - intros fuel sw d b k b' Hdel Hgot IH. cbn. repeat split; try lia. done.
  - intros fuel sw d b k b' nw ok d' (_ & Hk & _) _ _ _. cbn.
    rewrite length_take. repeat split; lia.
  - intros fuel sw d b k b' d' (_ & Hk & _) _ _ sw' IH. cbn.
    rewrite length_take. repeat split; try lia. done.
  - intros fuel sw d b b' nw ok d' (_ & _ & Hlen & _) _ _. cbn.
    repeat split; lia.
  - intros fuel sw d b b' d' (_ & _ & Hlen & _) _. cbn.
    repeat split; lia.
Qed.

(** The copy loop consists of waits for one quantum, reads and writes. *)
Lemma copy_quiet fuel sw d b : Forall quiet (copyLoop fuel sw d b).1.
Proof.
  apply (copyLoop_elim (λ _ _ _ _ res, Forall quiet res.1)); clear.
  - constructor.
  - intros. by repeat constructor.
  - intros. cbn. by repeat constructor.
  - intros. by repeat constructor.
  - intros. cbn. by repeat constructor.
  - intros. by repeat constructor.
  - intros. by repeat constructor.
Qed.

(** With the fuel [io_Copy] provides, the loop reaches one of its
    exits. *)
Lemma copy_total fuel sw d b :
  (copyFuel b <= fuel)%nat → (copyLoop fuel sw d b).2 ≠ CopyRunning.
Proof.
  apply (copyLoop_elim
           (λ fuel _ _ b res, (copyFuel b <= fuel)%nat → res.2 ≠ CopyRunning));
    clear.
  - intros _ _ b. unfold copyFuel. lia.
  - intros. cbn. by destruct (broken b).
  - intros fuel sw d b k b' (_ & _ & _ & _ & Hlt) _ IH Hf. cbn.
    apply IH. lia.
  - done.
  - intros fuel sw d b k b' d' (_ & _ & _ & _ & Hlt) _ _ sw' IH Hf. cbn.
    apply IH. lia.
  - done.
  - intros. cbn. by destruct (broken b).
Qed.

Lemma take_nil_drop {A} k (l : list A) : take k l = [] → drop k l = l.
Proof. destruct k, l; done. Qed.

Lemma take_drop_lengths {A} k (l : list A) :
  Z.of_nat (length (take k l)) + Z.of_nat (length (drop k l))
  = Z.of_nat (length l).
Proof. rewrite <- (take_drop k l) at 3. rewrite length_app. lia. Qed.

Lemma within_mono limit limit' ws :
  limit <= limit' → within limit ws → within limit' ws.
Proof.
  intros Hle H. eapply Forall_impl; [exact H|]. cbn. intros w. lia.
Qed.

(** The writes of the copy loop start at the writer's offset, follow one
    another without gap or overlap, and stay below the offset plus the
    length of the body. *)
Lemma copy_chained fuel sw d b :
  0 <= offset sw →
  offset sw + Z.of_nat (length (payload b)) <= Int64.max_int →
  chained (offset sw) (writes (copyLoop fuel sw d b).1) ∧
  within (offset sw + Z.of_nat (length (payload b)))
         (writes (copyLoop fuel sw d b).1).
Proof.
  apply (copyLoop_elim
    (λ _ sw _ b res,
       0 <= offset sw →
       offset sw + Z.of_nat (length (payload b)) <= Int64.max_int →
       chained (offset sw) (writes res.1) ∧
       within (offset sw + Z.of_nat (length (payload b))) (writes res.1)));
    clear.
  - intros. split; [done|constructor].
  - intros. split; [done|constructor].
  - intros fuel sw d b k b' (_ & _ & Hpl & _) Hgot IH H0 Hmax. cbn.
    rewrite Hpl, (take_nil_drop _ _ Hgot) in IH. by apply IH.
  - intros fuel sw d b k b' nw ok d' _ Hne Hw _ H0 Hmax. cbn.
    apply WriteAt_spec in Hw as (Hnw & _).
    pose proof (take_drop_lengths k (payload b)).
    split; [done|]. repeat constructor. cbn. lia.
  - intros fuel sw d b k b' d' (_ & _ & Hpl & _) Hne Hw sw' IH H0 Hmax.
    pose proof (take_drop_lengths k (payload b)) as Hlen.
    assert (Hoff : offset sw'
                   = offset sw + Z.of_nat (length (take k (payload b)))).
    { subst sw'. cbn. apply wrap_small.
      unfold Int64.in_range, Int64.min_int, Int64.max_int in *. lia. }
    rewrite Hpl, Hoff in IH.
    destruct IH as [IHc IHw]; [lia..|].
    change (writes _) with
      ((offset sw, take k (payload b), length (take k (payload b)))
         :: writes (copyLoop fuel sw' d' b').1).
    split.
    + cbn [chained]. repeat split; done.
    + constructor; [cbn; lia|].
      eapply within_mono; [|exact IHw]. lia.
  - intros fuel sw d b b' nw ok d' (_ & Hne & _) Hw _ H0 Hmax. cbn.
    apply WriteAt_spec in Hw as (Hnw & _).
    split; [done|]. repeat constructor. cbn. lia.
  - intros fuel sw d b b' d' (_ & Hne & _) Hw H0 Hmax. cbn.
    split; [done|]. repeat constructor. cbn. lia.
Qed.

(** When neither the transport nor the device fails, the loop ends
    normally and its writes, all complete, carry the body from first byte
    to last. *)
Lemma copy_exact_gen fuel sw d b :
  d = None → broken b = false → (copyFuel b <= fuel)%nat →
  0 <= offset sw →
  offset sw + Z.of_nat (length (payload b)) <= Int64.max_int →
  (copyLoop fuel sw d b).2 = CopyOk ∧
  mjoin ((λ w, w.1.2) <$> writes (copyLoop fuel sw d b).1) = payload b ∧
  Forall (λ w, w.2 = length w.1.2) (writes (copyLoop fuel sw d b).1).
Proof.
  apply (copyLoop_elim
    (λ fuel sw d b res,
       d = None → broken b = false → (copyFuel b <= fuel)%nat →
       0 <= offset sw →
       offset sw + Z.of_nat (length (payload b)) <= Int64.max_int →
       res.2 = CopyOk ∧
       mjoin ((λ w, w.1.2) <$> writes res.1) = payload b ∧
       Forall (λ w, w.2 = length w.1.2) (writes res.1))); clear.
  - intros sw d b _ _. unfold copyFuel. lia.
  - intros fuel sw d b Hp _ -> _ _ _. rewrite Hp. cbn. repeat split. constructor.
  - intros fuel sw d b k b' (_ & _ & Hpl & Hbr & Hlt) Hgot IH -> Hb Hf H0 Hmax.
    cbn. rewrite Hpl, (take_nil_drop _ _ Hgot), Hbr in IH.
    apply IH; try done. lia.
  - intros fuel sw d b k b' nw ok d' _ Hne Hw Hbad -> _ _ H0 _.
    apply WriteAt_spec in Hw as (_ & Hok & Hnone).
    destruct (Hnone eq_refl H0) as [-> _].
    destruct (Hok eq_refl) as [-> _]. by destruct Hbad.
  - intros fuel sw d b k b' d' (_ & _ & Hpl & Hbr & Hlt) Hne Hw sw' IH
           -> Hb Hf H0 Hmax.
    pose proof (take_drop_lengths k (payload b)) as Hlen.
    apply WriteAt_spec in Hw as (_ & _ & Hnone).
    destruct (Hnone eq_refl H0) as [_ ->].
    assert (Hoff : offset sw'
                   = offset sw + Z.of_nat (length (take k (payload b)))).
    { subst sw'. cbn. apply wrap_small.
      unfold Int64.in_range, Int64.min_int, Int64.max_int in *. lia. }
    rewrite Hpl, Hbr, Hoff in IH.
    destruct IH as (IHr & IHj & IHn); [done|done|lia..|].
    change (writes _) with
      ((offset sw, take k (payload b), length (take k (payload b)))
         :: writes (copyLoop fuel sw' None b').1).
    split; [done|]. split.
    + rewrite fmap_cons.
      change (take k (payload b)
              ++ mjoin ((λ w, w.1.2) <$> writes (copyLoop fuel sw' None b').1)
              = payload b).
      rewrite IHj. apply take_drop.
    + by constructor.
  - intros fuel sw d b b' nw ok d' _ Hw Hbad -> _ _ H0 _.
    apply WriteAt_spec in Hw as (_ & Hok & Hnone).
    destruct (Hnone eq_refl H0) as [-> _].
    destruct (Hok eq_refl) as [-> _]. by destruct Hbad.
  - intros fuel sw d b b' d' _ Hw -> -> _ H0 _. cbn.
    rewrite app_nil_r. repeat split. by repeat constructor.
Qed.

End FetcherFacts.

Section FetcherClaims.

Import Http Fetcher.

Lemma Read_length n b : (length (Read n b).1.1 <= n)%nat.
Proof.
  unfold Read. destruct (payload b); cbn; [lia|].
  destruct (short b); rewrite length_take; lia.
Qed.

Lemma downloadChunk_throttled x start end_ :
  throttled (downloadChunk x start end_).
Proof.
  unfold downloadChunk. cbn [throttled].
  destruct (reqFails x); [done|].
  destruct (response x) as [body|]; [|done].
  destruct (WriteAt (disk x) [] start) as [[n0 ok0] d]. cbn [throttled].
  destruct ok0; [|done]. cbn [negb].
  unfold io_Copy.
  pose proof (copy_throttled (copyFuel body) {| offset := start |} d body) as H.
  destruct (copyLoop _ _ d body) as [acts r]. cbn in H.
  apply throttled_app; [done|]. by destruct r.
Qed.

Lemma throttled_read_upto post n got er (k : nat) :
  ∀ pre, (length pre <= k)%nat →
  throttled (pre ++ ARead n got er :: post) →
  (n <= quantum)%nat ∧ (length got <= n)%nat ∧
  ∃ pre', pre = pre' ++ [AWait (Z.of_nat n)].
Proof.
  induction k as [k IH] using lt_wf_ind. intros pre Hk Hth.
  destruct pre as [|a0 pre]; [done|].
  assert (Hstep : ∀ pre1, (length pre1 < length (a0 :: pre))%nat →
            throttled (pre1 ++ ARead n got er :: post) →
            (n <= quantum)%nat ∧ (length got <= n)%nat ∧
            ∃ pre', pre1 = pre' ++ [AWait (Z.of_nat n)]).
  { intros pre1 Hlt. apply (IH (length pre1)); [lia|done]. }
  assert (Hskip : throttled (pre ++ ARead n got er :: post) →
            (n <= quantum)%nat ∧ (length got <= n)%nat ∧
            ∃ pre', a0 :: pre = pre' ++ [AWait (Z.of_nat n)]).
  { intros H. destruct (Hstep pre ltac:(cbn; lia) H) as (? & ? & pre' & ->).
    repeat split; try done. by exists (a0 :: pre'). }
  destruct a0; cbn in Hth; try done; try (by apply Hskip).
  destruct pre as [|a1 pre]; cbn in Hth.
  - destruct Hth as (-> & ? & ? & _). repeat split; try done. by exists [].
  - destruct a1; try done. destruct Hth as (_ & _ & _ & Hth).
    destruct (Hstep pre ltac:(cbn; lia) Hth) as (? & ? & pre' & ->).
    repeat split; try done.
    by exists (AWait n0 :: ARead n1 got0 err :: pre').
Qed.

Lemma throttled_read post n got er l pre :
  throttled l → l = pre ++ ARead n got er :: post →
  (n <= quantum)%nat ∧ (length got <= n)%nat ∧
  ∃ pre', pre = pre' ++ [AWait (Z.of_nat n)].
Proof.
  intros Hth ->. by eapply (throttled_read_upto _ _ _ _ (length pre)).
Qed.

(** C6: every read a fetcher performs on the response body asks for at
    most 16 KiB and obtains no more than it asks for, and the action just
    before it is the fetcher's return from [RateLimiter.Wait], called
    with the size of that read. *)
Theorem quanta_throttled x start end_ pre n got er post :
  downloadChunk x start end_ = pre ++ ARead n got er :: post →
  Z.of_nat n <= 16 * 1024 ∧
  (length got <= n)%nat ∧
  ∃ pre', pre = pre' ++ [AWait (Z.of_nat n)].
Proof.
  intros Heq.
  destruct (throttled_read post n got er _ pre
              (downloadChunk_throttled x start end_) Heq) as (Hn & Hg & Hpre).
  split; [|done]. rewrite <- quantum_val. lia.
Qed.

(** C5 as the code has it: a read through the rate-limited reader with a
    buffer of [lenp] bytes takes exactly [min lenp 16384] tokens, the size
    of the clipped buffer, in one call of [Wait] that comes before the
    read, and the read obtains at most that many bytes.  Both limiters
    hand out exactly the number of tokens [Wait] is called with. *)
Theorem read_takes_buffer_size lenp b :
  let n := Nat.min lenp quantum in
  let '(acts, (got, er), _) := rateLimitedReader_Read lenp b in
  Z.of_nat n = Z.min (Z.of_nat lenp) (16 * 1024) ∧
  acts = [AWait (Z.of_nat n); ARead n got er] ∧
  tokens_taken acts = Z.of_nat n ∧
  bytes_obtained acts = Z.of_nat (length got) ∧
  bytes_obtained acts <= tokens_taken acts ∧
  (∀ clock rl filled left,
     Int64.in_range (Limiter.tokens rl) →
     Int64.in_range (Limiter.bytesPerSec rl) →
     Limiter.Wait clock (Z.of_nat n) rl = Some (filled, left) →
     Limiter.tokens left = Limiter.tokens filled - Z.of_nat n) ∧
  (∀ rl rl',
     Limiter.WaitChan n rl = Some rl' →
     Limiter.queued rl' = Limiter.queued rl - Z.of_nat n).
Proof.
  intros n. unfold rateLimitedReader_Read.
  assert (Hn : (if (quantum <? lenp)%nat then quantum else lenp) = n).
  { subst n. destruct (Nat.ltb_spec quantum lenp); lia. }
  rewrite Hn. pose proof (Read_length n b) as Hlen.
  destruct (Read n b) as [[got er] b']. cbn in Hlen.
  split; [subst n; rewrite <- quantum_val; lia|].
  split; [done|]. cbn [tokens_taken bytes_obtained foldr fst snd].
  split; [lia|]. split; [lia|]. split; [lia|]. split.
  - intros clock rl filled left Ht Hb. apply Wait_takes; [lia|done..].
  - intros rl rl'. apply WaitChan_takes.
Qed.

(** C5 as stated fails on a short read: with three bytes left in the
    body, the copy loop's read takes 16384 tokens and obtains 3 bytes. *)
Lemma tokens_exceed_bytes :
  let b := {| payload := [x01; x02; x03]; short := []; broken := false;
              eager := false |} in
  let acts := (rateLimitedReader_Read copyBuf b).1.1 in
  tokens_taken acts = 16 * 1024 ∧ bytes_obtained acts = 3 ∧
  ¬ tokens_taken acts <= bytes_obtained acts.
Proof. by vm_compute. Qed.

Lemma writes_app l1 l2 : writes (l1 ++ l2) = writes l1 ++ writes l2.
Proof. apply omap_app. Qed.

Lemma chained_sorted cursor ws :
  chained cursor ws →
  Forall (λ o, cursor <= o) (offsets ws) ∧ StronglySorted Z.lt (offsets ws).
Proof.
  revert cursor. induction ws as [|[[off p] n] ws IH]; intros cursor H.
  - split; constructor.
  - destruct H as (-> & Hp & Hn & Hlast & H).
    destruct (IH _ H) as [Hge Hss]. split.
    + constructor; [cbn; lia|]. eapply Forall_impl; [exact Hge|].
      cbn. intros o. lia.
    + constructor; [done|]. destruct ws as [|w ws]; [constructor|].
      assert (n = length p) as -> by by apply Hlast.
      assert (0 < length p)%nat by (destruct p; [done|cbn; lia]).
      eapply Forall_impl; [exact Hge|]. cbn. intros o. lia.
Qed.

(** The writes of a fetcher: none when the request fails, otherwise the
    empty write at [start] followed by those of the copy loop. *)
Lemma downloadChunk_writes x start end_ :
  (reqFails x = true ∨ response x = None →
   writes (downloadChunk x start end_) = []) ∧
  (reqFails x = false → ∀ body, response x = Some body →
   ∃ ws, writes (downloadChunk x start end_) = (start, [], 0%nat) :: ws ∧
         (ws = [] ∨
          0 <= start ∧
          ∃ d, ws = writes (io_Copy {| offset := start |} d body).1)).
Proof.
  unfold downloadChunk. cbn [writes omap list_omap].
  destruct (reqFails x); [by split|].
  destruct (response x) as [body|]; [|by split].
  split; [by intros [|]|]. intros _ ? [= <-].
  destruct (WriteAt (disk x) [] start) as [[n0 ok0] d] eqn:Hw.
  apply WriteAt_spec in Hw as (Hn0 & Hok & _).
  assert (n0 = 0%nat) as -> by (cbn in Hn0; lia).
  cbn [writes omap list_omap]. destruct ok0; cbn [negb].
  - destruct (Hok eq_refl) as [_ H0].
    destruct (io_Copy {| offset := start |} d body) as [acts r] eqn:Hc.
    exists (writes acts). split.
    + f_equal. change (omap _ ?l) with (writes l). rewrite writes_app.
      destruct r; cbn; by rewrite app_nil_r.
    + right. split; [done|]. exists d. by rewrite Hc.
  - exists []. by split; [|left].
Qed.

(** C7 as the code has it, for a fetcher whose response body is no longer
    than its range: it makes no write when its request cannot be built or
    is not answered; otherwise it first makes an empty write at
    [startOffset], and its data writes then begin at [startOffset], each
    starts where the one before ended, their offsets increase strictly,
    and none reaches past [endOffsetInclusive + 1]. *)
Theorem write_discipline x start end_ :
  end_ < Int64.max_int →
  (∀ body, response x = Some body →
           Z.of_nat (length (payload body)) <= end_ - start + 1) →
  let ws := writes (downloadChunk x start end_) in
  (reqFails x = true ∨ response x = None → ws = []) ∧
  (reqFails x = false → ∀ body, response x = Some body →
   ∃ ws', ws = (start, [], 0%nat) :: ws' ∧
          chained start ws' ∧
          StronglySorted Z.lt (offsets ws') ∧
          Forall (λ o, start <= o) (offsets ws') ∧
          within (end_ + 1) ws').
Proof.
  intros Hend Hbody ws. subst ws.
  destruct (downloadChunk_writes x start end_) as [Hnone Hsome].
  split; [exact Hnone|]. intros Hreq body Hresp.
  destruct (Hsome Hreq body Hresp) as (ws' & -> & [->|(H0 & d & ->)]).
  - exists []. repeat split; constructor.
  - eexists. split; [done|].
    specialize (Hbody _ Hresp).
    destruct (copy_chained (copyFuel body) {| offset := start |} d body)
      as [Hch Hin]; [done|cbn [offset]; lia|].
    cbn [offset] in Hch, Hin.
    destruct (chained_sorted _ _ Hch) as [Hge Hss].
    split; [exact Hch|]. split; [exact Hss|]. split; [exact Hge|].
    eapply within_mono; [|exact Hin]. lia.
Qed.

(** C7 as stated fails when the server sends more than was asked for: a
    fetcher assigned [0, 2] that receives five bytes writes all five, up
    to offset 5; and its first two writes are both at offset 0. *)
Lemma write_past_range :
  let x := {| reqFails := false;
              response := Some {| payload := [x01; x02; x03; x04; x05];
                                  short := []; broken := false;
                                  eager := false |};
              disk := None |} in
  writes (downloadChunk x 0 2)
  = [(0, [], 0%nat); (0, [x01; x02; x03; x04; x05], 5%nat)] ∧
  ¬ within (2 + 1) (writes (downloadChunk x 0 2)) ∧
  ¬ StronglySorted Z.lt (offsets (writes (downloadChunk x 0 2))).
Proof.
  intros x.
  assert (Hw : writes (downloadChunk x 0 2)
               = [(0, [], 0%nat); (0, [x01; x02; x03; x04; x05], 5%nat)])
    by by vm_compute.
  rewrite Hw. split; [done|]. split.
  - intros H. apply Forall_cons in H as [_ H].
    apply Forall_cons in H as [H _]. cbn in H. lia.
  - intros H. apply StronglySorted_inv in H as [_ H].
    apply Forall_cons in H as [H _]. cbn in H. lia.
Qed.

End FetcherClaims.

(** ** The orchestrator: every fetcher is waited for *)

Section RunFacts.

Import Http Fetcher Run Inv.

Lemma exec_app s1 s2 c : exec (s1 ++ s2) c = exec s2 (exec s1 c).
Proof. unfold exec. apply foldl_app. Qed.

Lemma exec_cons p s c : exec (p :: s) c = exec s (step p c).
Proof. reflexivity. Qed.

Lemma owes_nonneg p : 0 <= owes p.
Proof. destruct p; cbn; lia. Qed.

Lemma owed_cons p ts : owed (p :: ts) = owes p + owed ts.
Proof. reflexivity. Qed.

Lemma owed_nonneg ts : 0 <= owed ts.
Proof.
  induction ts as [|p ts IH]; [done|].
  rewrite owed_cons. pose proof (owes_nonneg p). lia.
Qed.

Lemma owed_app ts1 ts2 : owed (ts1 ++ ts2) = owed ts1 + owed ts2.
Proof.
  induction ts1 as [|p ts1 IH]; [done|].
  rewrite <- app_comm_cons, !owed_cons, IH. lia.
Qed.

Lemma owed_insert ts k p p' :
  ts !! k = Some p → owed (<[k := p']> ts) = owed ts - owes p + owes p'.
Proof.
  revert k. induction ts as [|q ts IH]; intros [|k] Hk; try done.
  - injection Hk as ->. change (<[0%nat:=p']> (p :: ts)) with (p' :: ts).
    rewrite !owed_cons. lia.
  - change (<[S k:=p']> (q :: ts)) with (q :: <[k:=p']> ts).
    rewrite !owed_cons, (IH _ Hk). lia.
Qed.

Lemma owed_zero ts : owed ts = 0 → Forall (λ p, p = []) ts.
Proof.
  induction ts as [|p ts IH]; [constructor|].
  rewrite owed_cons. intros H.
  pose proof (owed_nonneg ts). pose proof (owes_nonneg p).
  constructor; [|apply IH; lia].
  destruct p; [done|]. cbn in H. lia.
Qed.

Lemma owed_all_nil ts : Forall (λ p, p = []) ts → owed ts = 0.
Proof.
  induction 1 as [|p ts -> _ IH]; [done|]. by rewrite owed_cons, IH.
Qed.

Lemma whole_owes p : whole p → owes p = 1.
Proof. intros (pre & -> & _). by destruct pre. Qed.

Lemma whole_inv a rest :
  whole (a :: rest) →
  a = ADone ∧ rest = [] ∨ quiet a ∧ whole rest.
Proof.
  intros (pre & Heq & Hq). destruct pre as [|a' pre].
  - injection Heq as -> ->. by left.
  - injection Heq as -> ->. apply Forall_cons in Hq as [Ha Hq].
    right. split; [done|]. by exists pre.
Qed.

Lemma unlaunched_spawns ps tail :
  unlaunched ((MSpawn <$> ps) ++ tail) = ps ++ unlaunched tail.
Proof.
  induction ps as [|p ps IH]; [done|]. cbn. f_equal. apply IH.
Qed.

(** Every program the orchestrator launches is a whole fetcher: its
    copy loop ends, and its last action is [wg.Done()]. *)
Lemma downloadChunk_whole x start end_ : whole (downloadChunk x start end_).
Proof.
  unfold whole, downloadChunk.
  destruct (reqFails x).
  { exists [ALog (LChunkStart start end_); ALog LRequestError].
    split; [done|]. by repeat constructor. }
  destruct (response x) as [body|].
  2: { exists [ALog (LChunkStart start end_); ALog LDownloadError].
       split; [done|]. by repeat constructor. }
  destruct (WriteAt (disk x) [] start) as [[n0 ok0] d].
  destruct ok0; cbn [negb].
  2: { exists [ALog (LChunkStart start end_); AWriteAt start [] n0;
               ALog LOffsetError].
       split; [done|]. by repeat constructor. }
  unfold io_Copy.
  pose proof (copy_quiet (copyFuel body) {| offset := start |} d body) as Hq.
  pose proof (copy_total (copyFuel body) {| offset := start |} d body
                ltac:(lia)) as Ht.
  destruct (copyLoop _ _ d body) as [acts r]. cbn [fst snd] in Hq, Ht.
  destruct r; [| |done].
  - exists (ALog (LChunkStart start end_) :: AWriteAt start [] n0
            :: acts ++ [ALog (LChunkDone start end_)]).
    split; [by rewrite <- !app_comm_cons, <- app_assoc|].
    repeat constructor. apply Forall_app. split; [done|by repeat constructor].
  - exists (ALog (LChunkStart start end_) :: AWriteAt start [] n0
            :: acts ++ [ALog LCopyError]).
    split; [by rewrite <- !app_comm_cons, <- app_assoc|].
    repeat constructor. apply Forall_app. split; [done|by repeat constructor].
Qed.

(** The effect of one action on the shared counters. *)
Lemma act_quiet a now k c w r g moved :
  quiet a → act a now k c = (w, r, g, moved) → g = wg c.
Proof. destruct a; cbn; try done; [|by intros _ [= <- <- <- <-]..].
  intros _. destruct (Limiter.Wait_poll now k n (rl c)). by intros [= <- <- <- <-].
Qed.

Lemma step_main_sound c : sound c → sound (step_main c).
Proof.
  destruct c as [w o r g q ts]. unfold sound, phase, step_main.
  cbn [mainq threads wg world out rl].
  intros (Hts & Hun & Hwg & Hph).
  destruct q as [|[p| |m] q]; [done|..]; cbn [mainq threads wg world out rl].
  - (* launch *)
    destruct Hph as [(ps & Hq)|[[Hq|[Hq _]] _]]; [|done..].
    destruct ps as [|p' ps]; [done|]. injection Hq as <- ->.
    change (unlaunched (MSpawn p :: ?l)) with (p :: unlaunched l) in Hun.
    apply Forall_cons in Hun as [Hp Hun].
    split; [|split; [|split]].
    + apply Forall_app. split; [done|]. constructor; [by right|constructor].
    + done.
    + rewrite owed_app, owed_cons, (whole_owes _ Hp).
      change (owed []) with 0. lia.
    + left. by exists ps.
  - (* wg.Wait() *)
    destruct Hph as [(ps & Hq)|[[Hq|[Hq _]] _]]; [|done..].
    destruct ps as [|p' ps]; [|done]. injection Hq as ->.
    destruct (Z.eqb_spec g 0) as [->|Hg];
      cbn [mainq threads wg world out rl].
    + split; [done|]. split; [done|]. split; [done|].
      right. split; [by left|]. by apply owed_zero.
    + split; [done|]. split; [done|]. split; [done|]. left. by exists [].
  - (* the final report *)
    destruct Hph as [(ps & Hq)|[[Hq|[Hq _]] Hnil]]; [by destruct ps|..|done].
    injection Hq as -> ->.
    split; [done|]. split; [done|]. split; [done|].
    right. split; [|done]. right. split; [done|]. apply last_snoc.
Qed.

Lemma step_thread_sound k now nt c : sound c → sound (step_thread k now nt c).
Proof.
  intros Hs. unfold step_thread.
  destruct (threads c !! k) as [[|a rest]|] eqn:Hk; [done| |done].
  destruct Hs as (Hts & Hun & Hwg & Hph).
  pose proof (Forall_lookup_1 _ _ _ _ Hts Hk) as [?|Hwhole]; [done|].
  assert (Hlaunch : ∃ ps, mainq c = (MSpawn <$> ps) ++ epilogue (out c)).
  { destruct Hph as [?|[_ Hnil]]; [done|].
    by pose proof (Forall_lookup_1 _ _ _ _ Hnil Hk). }
  destruct (act a now nt c) as [[[w r] g] moved] eqn:Ha.
  unfold sound, phase. cbn [mainq threads wg world out rl].
  apply whole_inv in Hwhole as [[-> ->]|[Hq Hrest]].
  - (* wg.Done() *)
    injection Ha as <- <- <- <-.
    split; [|split; [|split]].
    + apply Forall_insert; [done|by left].
    + done.
    + rewrite (owed_insert _ _ _ _ Hk). cbn [owes]. lia.
    + by left.
  - pose proof (act_quiet _ _ _ _ _ _ _ _ Hq Ha) as ->.
    split; [|split; [|split]].
    + destruct moved; [|done]. apply Forall_insert; [done|by right].
    + done.
    + destruct moved; [|done].
      rewrite (owed_insert _ _ _ _ Hk), (whole_owes _ Hrest).
      cbn [owes]. lia.
    + by left.
Qed.

Lemma exec_sound sched c : sound c → sound (exec sched c).
Proof.
  revert c. induction sched as [|p sched IH]; intros c Hs; [done|].
  rewrite exec_cons. apply IH. destruct p.
  - by apply step_main_sound.
  - by apply step_thread_sound.
Qed.

(** Once [runDownload] has returned, every fetcher has finished, the
    wait-group counter is zero and the last line logged is the
    completion message. *)
Lemma sound_finished c :
  sound c → finished c →
  Forall (λ p, p = []) (threads c) ∧ wg c = 0 ∧
  last (log (world c)) = Some (LCompleted (out c)).
Proof.
  intros (_ & _ & Hwg & Hph) Hfin. unfold finished in Hfin.
  destruct Hph as [(ps & Hq)|[[Hq|[_ Hlast]] Hnil]].
  - rewrite Hfin in Hq. by destruct ps.
  - by rewrite Hfin in Hq.
  - repeat split; try done. by rewrite Hwg, owed_all_nil.
Qed.

(** What a run that reaches its concurrent phase starts from. *)
Lemma start_shape env now url threads limitMB w c0 :
  runDownload_start env now url threads limitMB w = inr c0 →
  ∃ fileSize cs n,
    getFileSize env url = Ok fileSize ∧
    Planner.chunkSize fileSize threads = Some cs ∧
    Planner.chunks fileSize cs = Some n ∧
    0 <= fileSize ∧
    out c0 = getFileName env url ∧
    Run.threads c0 = [] ∧ wg c0 = 0 ∧
    mainq c0 = (MSpawn <$> programs env url (Planner.ranges fileSize cs n))
               ++ epilogue (out c0) ∧
    rl c0 = Limiter.NewRateLimiter now
              (Int64.mul (Int64.mul limitMB 1024) 1024) ∧
    fs (world c0) !! out c0 = Some (replicate (Z.to_nat fileSize) x00).
Proof.
  unfold runDownload_start.
  destruct (getFileSize env url) as [fileSize|] eqn:Hsz; [|done].
  destruct (Planner.chunkSize fileSize threads) as [cs|] eqn:Hcs; [|done].
  destruct (Planner.chunks fileSize cs) as [n|] eqn:Hn; [|done].
  destruct (createFails env _); [done|].
  destruct (Z.ltb_spec fileSize 0); [done|].
  destruct (truncateFails env); [done|]. cbn [orb].
  intros [= <-]. exists fileSize, cs, n. cbn [out Run.threads wg mainq rl world].
  repeat split; try done. unfold store. cbn [fs]. apply lookup_insert_eq.
Qed.

Lemma start_sound env now url threads limitMB w c0 :
  runDownload_start env now url threads limitMB w = inr c0 → sound c0.
Proof.
  intros (fileSize & cs & n & _ & _ & _ & _ & _ & Hts & Hwg & Hq & _)
         %start_shape.
  unfold sound, phase. rewrite Hts, Hwg, Hq, unlaunched_spawns.
  split; [constructor|]. split; [|split; [done|left; eauto]].
  apply Forall_app. split; [|constructor].
  unfold programs. apply Forall_fmap, Forall_forall. intros c _.
  apply downloadChunk_whole.
Qed.

(** *** A schedule under which the run completes *)

Lemma ready_new now limitMB :
  1 <= limitMB < 2 ^ 43 →
  ready (Limiter.NewRateLimiter now (Int64.mul (Int64.mul limitMB 1024) 1024)).
Proof.
  intros H. unfold Int64.mul.
  rewrite (wrap_small (limitMB * 1024))
    by (unfold Int64.in_range, Int64.min_int, Int64.max_int; lia).
  rewrite wrap_small
    by (unfold Int64.in_range, Int64.min_int, Int64.max_int; lia).
  unfold ready, Limiter.NewRateLimiter, Int64.max_int. cbn. lia.
Qed.

Lemma poll_ready now rl :
  ready rl →
  ∃ rl', Limiter.Wait_poll now (16 * 1024) (Z.of_nat quantum) rl = (rl', true)
         ∧ ready rl'.
Proof.
  intros (Ht & Hb & Hmax). unfold Limiter.Wait_poll, Limiter.refill.
  rewrite quantum_val. change (16 * 1024 >? 0) with true. cbn iota.
  unfold Int64.max_int in Hmax.
  rewrite add_small
    by (unfold Int64.in_range, Int64.min_int, Int64.max_int; lia).
  cbn [Limiter.tokens Limiter.bytesPerSec Limiter.lastRefill].
  set (t := if Limiter.tokens rl + 16 * 1024 >? Limiter.bytesPerSec rl
            then Limiter.bytesPerSec rl
            else Limiter.tokens rl + 16 * 1024).
  assert (Ht' : 16 * 1024 <= t <= Limiter.bytesPerSec rl).
  { subst t. destruct (Z.gtb_spec (Limiter.tokens rl + 16 * 1024)
                                  (Limiter.bytesPerSec rl)); lia. }
  rewrite Z.geb_leb. destruct (Z.leb_spec (16 * 1024) t); [|lia].
  eexists. split; [done|]. unfold ready.
  cbn [Limiter.tokens Limiter.bytesPerSec].
  rewrite sub_small
    by (unfold Int64.in_range, Int64.min_int, Int64.max_int; lia).
  unfold Int64.max_int. lia.
Qed.

Lemma act_moves a now c :
  quiet a → ready (rl c) →
  ∃ w r, act a now (16 * 1024) c = (w, r, wg c, true) ∧ ready r.
Proof.
  intros Hq Hr. destruct a; try done; unfold act; eauto.
  unfold quiet in Hq. subst n.
  destruct (poll_ready now _ Hr) as (rl' & -> & Hr'). eauto.
Qed.

(** Picked as often as it has actions, a launched fetcher runs to its
    end and signals the wait group. *)
Lemma run_thread pre : ∀ c k,
  Run.threads c !! k = Some (pre ++ [ADone]) → Forall quiet pre →
  ready (rl c) →
  let c' := exec (replicate (length (pre ++ [ADone]))
                    (PThread k 0 (16 * 1024))) c in
  Run.threads c' = <[k := []]> (Run.threads c) ∧ wg c' = wg c - 1 ∧
  mainq c' = mainq c ∧ out c' = out c ∧ ready (rl c').
Proof.
  induction pre as [|a pre IH]; intros c k Hk Hq Hr c'; subst c'.
  - cbn [app length replicate]. rewrite exec_cons. cbn [exec foldl step].
    unfold step_thread. rewrite Hk. cbn [act]. cbn [Run.threads wg mainq out rl].
    done.
  - apply Forall_cons in Hq as [Ha Hq].
    rewrite <- app_comm_cons in Hk |- *.
    cbn [length replicate]. rewrite exec_cons. cbn [step].
    destruct (act_moves a 0 c Ha Hr) as (w & r & Hact & Hr').
    set (c1 := {| world := w; out := out c; rl := r; wg := wg c;
                  mainq := mainq c;
                  threads := <[k := pre ++ [ADone]]> (Run.threads c) |}).
    assert (step_thread k 0 (16 * 1024) c = c1) as ->.
    { unfold step_thread. by rewrite Hk, Hact. }
    destruct (IH c1 k) as (Hts & Hwg & Hmq & Hout & Hrl); [|done|done|].
    { apply list_lookup_insert_eq. by eapply lookup_lt_Some. }
    rewrite Hts, Hwg, Hmq, Hout. subst c1. cbn [Run.threads wg mainq out].
    by rewrite list_insert_insert_eq.
Qed.

Lemma spawn_all ps : ∀ c tail,
  mainq c = (MSpawn <$> ps) ++ tail →
  exec (replicate (length ps) PMain) c
  = {| world := world c; out := out c; rl := rl c;
       wg := wg c + Z.of_nat (length ps); mainq := tail;
       threads := Run.threads c ++ ps |}.
Proof.
  induction ps as [|p ps IH]; intros c tail Hq.
  - destruct c as [w o r g q ts]. cbn in *. subst q.
    f_equal; [lia|by rewrite app_nil_r].
  - cbn [length replicate]. rewrite exec_cons. cbn [step].
    assert (step_main c
            = {| world := world c; out := out c; rl := rl c; wg := wg c + 1;
                 mainq := (MSpawn <$> ps) ++ tail;
                 threads := Run.threads c ++ [p] |}) as ->.
    { unfold step_main. by rewrite Hq. }
    rewrite (IH _ tail) by done. cbn [world out rl wg Run.threads].
    f_equal; [lia|by rewrite <- app_assoc].
Qed.

(** Run one after the other, all launched fetchers finish. *)
Lemma run_all ps : ∀ done c,
  Run.threads c = done ++ ps → Forall whole ps → ready (rl c) →
  let c' := exec (mjoin (imap (λ k p, replicate (length p)
                                        (PThread (length done + k) 0
                                                 (16 * 1024))) ps)) c in
  Run.threads c' = done ++ replicate (length ps) [] ∧
  wg c' = wg c - Z.of_nat (length ps) ∧
  mainq c' = mainq c ∧ out c' = out c.
Proof.
  induction ps as [|p ps IH]; intros done c Hts Hw Hr c'; subst c'.
  - cbn. rewrite Hts. repeat split; lia.
  - apply Forall_cons in Hw as [(pre & -> & Hq) Hw].
    rewrite imap_cons. change (mjoin (?x :: ?l)) with (x ++ mjoin l).
    rewrite exec_app.
    destruct (run_thread pre c (length done + 0)) as (H1 & H2 & H3 & H4 & H5);
      [|done|done|].
    { rewrite Hts. by apply list_lookup_middle. }
    set (c1 := exec _ c) in *.
    rewrite Hts, insert_app_r in H1. cbn [insert list_insert] in H1.
    destruct (IH (done ++ [[]]) c1) as (I1 & I2 & I3 & I4); [|done|done|].
    { rewrite H1. by rewrite <- app_assoc. }
    erewrite (imap_ext _ (λ k p0, replicate (length p0)
                (PThread (length (done ++ [[]]) + k) 0 (16 * 1024)))).
    2: { intros i x _. cbn. rewrite length_app. cbn. do 2 f_equal. lia. }
    rewrite I1, I2, I3, I4, H2, H3, H4. cbn [length replicate].
    rewrite <- app_assoc. repeat split; try done. lia.
Qed.

(** The round schedule takes a freshly started run to its end. *)
Lemma round_finishes c ps :
  Run.threads c = [] → mainq c = (MSpawn <$> ps) ++ epilogue (out c) →
  wg c = 0 → Forall whole ps → ready (rl c) →
  finished (exec (roundSchedule c) c).
Proof.
  intros Hts Hq Hwg Hw Hr. unfold roundSchedule.
  rewrite Hq, unlaunched_spawns. change (unlaunched (epilogue _)) with (@nil (list Act)).
  rewrite app_nil_r, Hts, !exec_app, (spawn_all ps c _ Hq).
  set (c1 := {| world := world c |}).
  destruct (run_all ps [] c1) as (H1 & H2 & H3 & H4); [by subst c1; rewrite Hts|done|done|].
  cbn [length Nat.add] in *.
  set (c2 := exec _ c1) in *.
  unfold finished. cbn [exec foldl step]. unfold step_main at 2.
  rewrite H3. subst c1. cbn [mainq wg] in *. unfold epilogue.
  rewrite H2, Hwg.
  replace (0 + Z.of_nat (length ps) - Z.of_nat (length ps) =? 0) with true
    by (symmetry; apply Z.eqb_eq; lia).
  done.
Qed.

Lemma pending_length_step p c :
  length (pending (step p c)) = length (pending c).
Proof.
  unfold pending. destruct p as [|k now nt]; cbn [step].
  - unfold step_main. destruct (mainq c) as [|[prog| |m] q] eqn:Hq;
      rewrite ?Hq; try done.
    + cbn [Run.threads mainq].
      change (unlaunched (MSpawn prog :: q)) with (prog :: unlaunched q).
      rewrite !length_app. cbn. lia.
    + destruct (wg c =? 0); cbn [Run.threads mainq]; by rewrite ?Hq.
  - unfold step_thread.
    destruct (Run.threads c !! k) as [[|a rest]|]; try done.
    destruct (act a now nt c) as [[[w r] g] moved].
    cbn [Run.threads mainq]. destruct moved; [|done].
    by rewrite !length_app, length_insert.
Qed.

Lemma pending_length_exec sched c :
  length (pending (exec sched c)) = length (pending c).
Proof.
  revert c. induction sched as [|p sched IH]; intros c; [done|].
  by rewrite exec_cons, IH, pending_length_step.
Qed.

(** C4: a run that has passed the probe, the planning and the creation
    and sizing of the output file returns only after every fetcher it
    launched has finished, whatever went wrong in any of them, and the
    last thing it does is report completion; and when the bandwidth cap
    is at least 1 MB/s and its byte rate fits [int64], there is a
    schedule under which it does return. *)
Theorem run_completes env now url threads limitMB w c0 :
  runDownload_start env now url threads limitMB w = inr c0 →
  (∀ sched,
     finished (exec sched c0) →
     length (Run.threads (exec sched c0)) = length (unlaunched (mainq c0)) ∧
     Forall (λ p, p = []) (Run.threads (exec sched c0)) ∧
     wg (exec sched c0) = 0 ∧
     last (log (world (exec sched c0)))
     = Some (LCompleted (getFileName env url))) ∧
  (1 <= limitMB < 2 ^ 43 → finished (exec (roundSchedule c0) c0)).
Proof.
  intros Hstart. pose proof (start_sound _ _ _ _ _ _ _ Hstart) as Hs.
  destruct (start_shape _ _ _ _ _ _ _ Hstart)
    as (fileSize & cs & n & _ & _ & _ & _ & Hout & Hts & Hwg & Hq & Hrl & _).
  split.
  - intros sched Hfin.
    pose proof (exec_sound sched c0 Hs) as Hs'.
    destruct (sound_finished _ Hs' Hfin) as (Hnil & Hwg' & Hlast).
    pose proof (pending_length_exec sched c0) as Hlen.
    unfold pending in Hlen. rewrite Hfin, Hts in Hlen.
    change (unlaunched []) with (@nil (list Act)) in Hlen.
    rewrite app_nil_r in Hlen. cbn [app] in Hlen.
    repeat split; try done.
    assert (Ho : out (exec sched c0) = out c0).
    { clear. revert c0. induction sched as [|p sched IH]; intros c; [done|].
      rewrite exec_cons, IH. destruct p as [|k t nt]; cbn [step].
      - unfold step_main. destruct (mainq c) as [|[| |]]; try done.
        by destruct (wg c =? 0).
      - unfold step_thread. destruct (Run.threads c !! k) as [[|a r]|]; try done.
        by destruct (act a t nt c) as [[[? ?] ?] ?]. }
    by rewrite Hlast, Ho, Hout.
  - intros Hcap. eapply round_finishes; eauto.
    + pose proof Hs as (_ & Hw & _). by rewrite Hq, unlaunched_spawns,
        app_nil_r in Hw.
    + rewrite Hrl. by apply ready_new.
Qed.

End RunFacts.

(** ** End-to-end fidelity *)

Section Fidelity.

Import Http Fetcher Run Inv.

Lemma written_inside f off p :
  (Z.to_nat off + length p <= length f)%nat →
  written f off p
  = take (Z.to_nat off) f ++ p ++ drop (Z.to_nat off + length p) f.
Proof.
  intros Hlen. unfold written. destruct p as [|x p].
  - cbn [app length]. rewrite Nat.add_0_r. by rewrite take_drop.
  - replace (Z.to_nat off - length f)%nat with 0%nat by lia.
    by rewrite app_nil_r.
Qed.

Lemma written_length f off p :
  (Z.to_nat off + length p <= length f)%nat →
  length (written f off p) = length f.
Proof.
  intros Hlen. rewrite written_inside by done.
  rewrite !length_app, length_take, length_drop. lia.
Qed.

Lemma written_lookup_in f off p i :
  (Z.to_nat off + length p <= length f)%nat →
  (Z.to_nat off <= i < Z.to_nat off + length p)%nat →
  written f off p !! i = p !! (i - Z.to_nat off)%nat.
Proof.
  intros Hlen Hi. rewrite written_inside by done.
  rewrite lookup_app_r by (rewrite length_take; lia).
  rewrite length_take, Nat.min_l by lia.
  apply lookup_app_l. lia.
Qed.

Lemma written_lookup_out f off p i :
  (Z.to_nat off + length p <= length f)%nat →
  ¬ (Z.to_nat off <= i < Z.to_nat off + length p)%nat →
  written f off p !! i = f !! i.
Proof.
  intros Hlen Hi. rewrite written_inside by done.
  destruct (decide (i < Z.to_nat off)%nat) as [Hlt|Hge].
  - rewrite lookup_app_l by (rewrite length_take; lia).
    by apply lookup_take_lt.
  - rewrite lookup_app_r by (rewrite length_take; lia).
    rewrite length_take, Nat.min_l by lia.
    rewrite lookup_app_r by lia. rewrite lookup_drop. f_equal. lia.
Qed.

Lemma Exists_after_step (P : Act → Prop) ts k a rest :
  ts !! k = Some (a :: rest) →
  Exists (Exists P) ts → P a ∨ Exists (Exists P) (<[k := rest]> ts).
Proof.
  intros Hk (t & Ht & HP)%Exists_exists.
  apply list_elem_of_lookup in Ht as [j Hj].
  destruct (decide (j = k)) as [->|Hne].
  - rewrite Hk in Hj. injection Hj as <-.
    apply Exists_cons in HP as [?|HP]; [by left|right].
    apply Exists_exists. exists rest. split; [|done].
    apply list_elem_of_lookup. exists k.
    apply list_lookup_insert_eq. by eapply lookup_lt_Some.
  - right. apply Exists_exists. exists t. split; [|done].
    apply list_elem_of_lookup. exists j. by rewrite list_lookup_insert_ne.
Qed.

(** Taking one action off a fetcher keeps the file on its way to the
    source. *)
Lemma converging_pop data ts unl k a rest f :
  ts !! k = Some (a :: rest) →
  length f = length data →
  Forall (Forall (good_write data)) (ts ++ unl) →
  (∀ i, (i < length data)%nat →
        f !! i = data !! i ∨ Exists (Exists (covers i)) (ts ++ unl)) →
  length (file_after a f) = length data ∧
  Forall (Forall (good_write data)) (<[k := rest]> ts ++ unl) ∧
  (∀ i, (i < length data)%nat →
        file_after a f !! i = data !! i ∨
        Exists (Exists (covers i)) (<[k := rest]> ts ++ unl)).
Proof.
  intros Hk Hlen Hgood Hcov.
  apply Forall_app in Hgood as [Hg1 Hg2].
  pose proof (Forall_lookup_1 _ _ _ _ Hg1 Hk) as Hga.
  apply Forall_cons in Hga as [Ha Hrest].
  assert (Hgood' : Forall (Forall (good_write data)) (<[k := rest]> ts ++ unl)).
  { apply Forall_app. split; [by apply Forall_insert|done]. }
  assert (Hkeep : ∀ i, ¬ covers i a →
            Exists (Exists (covers i)) (ts ++ unl) →
            Exists (Exists (covers i)) (<[k := rest]> ts ++ unl)).
  { intros i Hna [H|H]%Exists_app; apply Exists_app; [|by right].
    destruct (Exists_after_step _ _ _ _ _ Hk H); [done|by left]. }
  destruct a as [n|n got er|off p n|m| |]; cbn [file_after];
    try (split; [done|]; split; [done|];
         intros i Hi; destruct (Hcov i Hi) as [?|H]; [by left|right];
         apply Hkeep; [by intros []|done]).
  cbn [good_write] in Ha. destruct Ha as (Hoff & -> & Hin & Hdata).
  rewrite take_ge by done.
  split; [by rewrite written_length; lia|]. split; [done|].
  intros i Hi.
  destruct (decide (Z.to_nat off <= i < Z.to_nat off + length p)%nat)
    as [Hin'|Hout].
  - left. rewrite written_lookup_in by lia.
    destruct (lookup_lt_is_Some_2 p (i - Z.to_nat off)%nat ltac:(lia))
      as [b Hb].
    rewrite Hb. apply Hdata in Hb. rewrite <- Hb. f_equal. lia.
  - rewrite written_lookup_out by lia.
    destruct (Hcov i Hi) as [?|H]; [by left|right]. by apply Hkeep.
Qed.

Lemma step_main_converging data c :
  converging data c → converging data (step_main c).
Proof.
  intros Hc. unfold step_main.
  destruct (mainq c) as [|[prog| |m] q] eqn:Hq; [done|..];
    destruct Hc as (f & Hf & Hlen & Hgood & Hcov);
    unfold pending in Hgood, Hcov; rewrite Hq in Hgood, Hcov.
  - exists f. unfold pending. cbn [world out Run.threads mainq].
    change (unlaunched (MSpawn prog :: q)) with (prog :: unlaunched q)
      in Hgood, Hcov.
    rewrite <- app_assoc. done.
  - destruct (wg c =? 0).
    + exists f. unfold pending. cbn [world out Run.threads mainq]. done.
    + exists f. unfold pending. rewrite Hq. done.
  - exists f. unfold pending. cbn [world out Run.threads mainq]. done.
Qed.

Lemma step_thread_converging data k now nt c :
  converging data c → converging data (step_thread k now nt c).
Proof.
  intros Hc. unfold step_thread.
  destruct (Run.threads c !! k) as [[|a rest]|] eqn:Hk; [done| |done].
  destruct Hc as (f & Hf & Hlen & Hgood & Hcov). unfold pending in *.
  destruct (converging_pop data _ _ k a rest f Hk Hlen Hgood Hcov)
    as (Hlen' & Hgood' & Hcov').
  destruct (act a now nt c) as [[[w r] g] moved] eqn:Ha.
  assert (Hw : fs w !! out c
               = Some (if moved then file_after a f else f)).
  { destruct a; cbn [act] in Ha.
    - destruct (Limiter.Wait_poll now nt n (rl c)).
      injection Ha as <- _ _ <-. by destruct b.
    - by injection Ha as <- _ _ <-.
    - injection Ha as <- _ _ <-. cbn [fs file_after].
      by rewrite lookup_alter_eq, Hf.
    - by injection Ha as <- _ _ <-.
    - by injection Ha as <- _ _ <-.
    - by injection Ha as <- _ _ <-. }
  unfold converging, pending. cbn [world out Run.threads mainq].
  destruct moved.
  - exists (file_after a f). done.
  - exists f. done.
Qed.

Lemma exec_converging data sched c :
  converging data c → converging data (exec sched c).
Proof.
  revert c. induction sched as [|p sched IH]; intros c Hc; [done|].
  rewrite exec_cons. apply IH. destruct p.
  - by apply step_main_converging.
  - by apply step_thread_converging.
Qed.

(** When nothing is left to write, the file is the source. *)
Lemma converging_done data c :
  converging data c → mainq c = [] →
  Forall (λ p, p = []) (Run.threads c) →
  fs (world c) !! out c = Some data.
Proof.
  intros (f & Hf & Hlen & _ & Hcov) Hq Hnil. rewrite Hf. f_equal.
  apply list_eq_same_length with (length data); [done..|].
  intros i x y Hi Hx Hy.
  destruct (Hcov i Hi) as [H|H]; [congruence|].
  unfold pending in H. rewrite Hq, app_nil_r in H.
  apply Exists_exists in H as (t & Ht & Hex).
  rewrite Forall_forall in Hnil. rewrite (Hnil _ Ht) in Hex.
  by apply Exists_nil in Hex.
Qed.

(** *** The fetchers of a faithful server write the source *)

Lemma slice_length data s e :
  0 <= s <= e → e < Z.of_nat (length data) →
  Z.of_nat (length (slice data s e)) = e - s + 1.
Proof.
  intros Hs He. unfold slice. rewrite length_take, length_drop. lia.
Qed.

Lemma slice_lookup data s e j b :
  0 <= s → slice data s e !! j = Some b →
  data !! (Z.to_nat s + j)%nat = Some b.
Proof.
  intros Hs. unfold slice. intros [H _]%lookup_take_Some.
  by rewrite lookup_drop in H.
Qed.

Lemma elem_of_writes off p n l :
  (off, p, n) ∈ writes l ↔ AWriteAt off p n ∈ l.
Proof.
  unfold writes. rewrite list_elem_of_omap. split.
  - intros (a & Ha & Heq). destruct a; try done. by injection Heq as -> -> ->.
  - intros Ha. by exists (AWriteAt off p n).
Qed.

(** Complete writes that follow one another and together carry [P]: each
    carries the part of [P] at its distance from the start, and every
    position of [P] is reached. *)
Lemma chained_segments ws : ∀ cursor P,
  chained cursor ws → Forall (λ w, w.2 = length w.1.2) ws →
  mjoin ((λ w, w.1.2) <$> ws) = P →
  (∀ w, w ∈ ws →
        cursor <= w.1.1 ∧
        w.1.1 + Z.of_nat (length w.1.2) <= cursor + Z.of_nat (length P) ∧
        ∀ j b, w.1.2 !! j = Some b →
               P !! (Z.to_nat (w.1.1 - cursor) + j)%nat = Some b) ∧
  (∀ j, (j < length P)%nat →
        ∃ w, w ∈ ws ∧
             w.1.1 <= cursor + Z.of_nat j
             < w.1.1 + Z.of_nat (length w.1.2)).
Proof.
  induction ws as [|[[off p] n] ws IH]; intros cursor P Hch Hn HP.
  - cbn in HP. subst P. split; [by intros w ?%elem_of_nil|].
    intros j Hj. cbn in Hj. lia.
  - destruct Hch as (-> & Hp & _ & _ & Hch).
    apply Forall_cons in Hn as [Hnp Hn]. cbn [fst snd] in Hnp. subst n.
    rewrite fmap_cons in HP.
    change (p ++ mjoin ((λ w, w.1.2) <$> ws) = P) in HP.
    destruct (IH _ _ Hch Hn eq_refl) as [IHw IHc].
    set (P' := mjoin ((λ w, w.1.2) <$> ws)) in *. subst P.
    rewrite length_app. split.
    + intros w [->|Hw]%elem_of_cons; cbn [fst snd].
      * split; [lia|]. split; [lia|]. intros j b Hj.
        replace (Z.to_nat (cursor - cursor) + j)%nat with j by lia.
        by apply lookup_app_l_Some.
      * destruct (IHw w Hw) as (H1 & H2 & H3).
        split; [lia|]. split; [lia|]. intros j b Hj.
        rewrite lookup_app_r by lia. rewrite <- (H3 j b Hj). f_equal. lia.
    + intros j Hj. destruct (decide (j < length p)%nat) as [Hlt|Hge].
      * exists (cursor, p, length p). split; [left|]. cbn [fst snd]. lia.
      * destruct (IHc (j - length p)%nat ltac:(lia)) as (w & Hw & Hin).
        exists w. split; [by right|]. lia.
Qed.

(** A fetcher that is sent exactly the bytes of its range only makes
    good writes, and reaches every offset of the range. *)
Lemma exact_fetcher data s e x :
  0 <= s <= e → e < Z.of_nat (length data) →
  Z.of_nat (length data) <= Int64.max_int →
  exact_exchange data s e x →
  Forall (good_write data) (downloadChunk x s e) ∧
  ∀ i, (Z.to_nat s <= i <= Z.to_nat e)%nat →
       Exists (covers i) (downloadChunk x s e).
Proof.
  intros Hs He Hmax (Hreq & Hdisk & body & Hresp & Hpl & Hbr).
  pose proof (slice_length data s e Hs He) as Hlen. rewrite <- Hpl in Hlen.
  unfold downloadChunk. rewrite Hreq, Hresp, Hdisk.
  assert (WriteAt None [] s = ((0%nat, true), None)) as ->.
  { unfold WriteAt. destruct (Z.ltb_spec s 0); [lia|done]. }
  cbn [negb]. unfold io_Copy.
  destruct (copy_exact_gen (copyFuel body) {| offset := s |} None body)
    as (Hr & Hjoin & Hn); [done|done|lia|cbn [offset]; lia..|].
  destruct (copy_chained (copyFuel body) {| offset := s |} None body)
    as [Hch _]; [cbn [offset]; lia..|].
  cbn [offset] in Hch.
  destruct (copyLoop (copyFuel body) {| offset := s |} None body)
    as [acts r]. cbn [fst snd] in *. subst r.
  destruct (chained_segments _ _ _ Hch Hn Hjoin) as [Hseg Hcov].
  split.
  - constructor; [done|]. constructor; [cbn; repeat split; try lia; done|].
    apply Forall_app. split; [|by repeat constructor].
    apply Forall_forall. intros a Ha.
    destruct a as [| |off p n| | |]; try done.
    apply elem_of_writes in Ha as Hw.
    destruct (Hseg _ Hw) as (H1 & H2 & H3). cbn [fst snd] in *.
    pose proof (proj1 (Forall_forall _ _) Hn _ Hw) as Hnp. cbn [fst snd] in Hnp.
    cbn [good_write]. split; [lia|]. split; [done|]. split; [lia|].
    intros j b Hj. specialize (H3 j b Hj). rewrite Hpl in H3.
    apply slice_lookup in H3; [|lia]. rewrite <- H3. f_equal. lia.
  - intros i Hi.
    destruct (Hcov (i - Z.to_nat s)%nat ltac:(lia)) as ([[off p] n] & Hw & Hin).
    cbn [fst snd] in Hin. apply elem_of_writes in Hw.
    apply Exists_exists. exists (AWriteAt off p n). split.
    + rewrite !elem_of_cons, elem_of_app. right. right. by left.
    + cbn [covers]. lia.
Qed.

Lemma contiguous_covers l : ∀ a b i,
  Planner.contiguous_from a l → Planner.ends_at b l → a <= i <= b →
  ∃ c, c ∈ l ∧ c.1 <= i <= c.2.
Proof.
  induction l as [|[s e] l IH]; intros a b i Hc He Hi; [done|].
  destruct Hc as (-> & Hse & Hc).
  destruct (decide (i <= e)) as [Hle|Hgt].
  - exists (a, e). split; [left|]. cbn. lia.
  - destruct l as [|c l].
    + unfold Planner.ends_at in He. cbn in He. injection He as ->. lia.
    + destruct (IH (e + 1) b i Hc) as (c' & Hc' & Hin); [|lia|].
      { unfold Planner.ends_at in *. by rewrite last_cons_cons in He. }
      exists c'. split; [by right|done].
Qed.

Lemma spec_ranges_bounds N t c :
  0 < N → 0 < t → c ∈ Planner.spec_ranges N t → 0 <= c.1 <= c.2 ∧ c.2 < N.
Proof.
  intros HN Ht Hc.
  destruct (spec_ranges_partition N t HN Ht) as (Hcont & _).
  apply list_elem_of_lookup in Hc as [k Hk].
  pose proof (contiguous_lower _ _ _ _ Hcont Hk) as [H1 H2].
  split; [lia|].
  unfold Planner.spec_ranges in Hk. apply list_lookup_fmap_Some in Hk
    as (i & -> & _).
  unfold Planner.spec_range. cbn. lia.
Qed.

Lemma getFileSize_ok env url header size :
  head env url = Some header →
  Get header "Accept-Ranges" = "bytes" →
  Strconv.ParseInt (Get header "Content-Length") = Ok size →
  getFileSize env url = Ok size.
Proof.
  intros Hh Har Hp. unfold getFileSize. rewrite Hh.
  rewrite bool_decide_eq_false_2 by (by intros ?).
  case_bool_decide as Hlen; [by rewrite Hlen in Hp|]. by rewrite Hp.
Qed.

(** Against a faithful server the run reaches its concurrent phase. *)
Lemma faithful_starts env now url threads limitMB w data :
  faithful env url data →
  Planner.fits (Z.of_nat (length data)) threads →
  ∃ c0, runDownload_start env now url threads limitMB w = inr c0 ∧
        mainq c0
        = (MSpawn <$> programs env url
             (Planner.spec_ranges (Z.of_nat (length data)) threads))
          ++ epilogue (out c0).
Proof.
  intros ((header & Hh & Har & Hp) & _ & Hcreate & Htrunc) Hfit.
  pose proof (getFileSize_ok _ _ _ _ Hh Har Hp) as Hsz.
  pose proof (plan_fits _ _ Hfit) as Hplan. unfold Planner.plan in Hplan.
  pose proof (chunkSize_fits _ _ Hfit) as Hcs.
  pose proof (chunks_fits _ _ Hfit) as Hn.
  rewrite Hcs in Hplan. cbn [mbind option_bind] in Hplan.
  rewrite Hn in Hplan. cbn [mbind option_bind] in Hplan.
  injection Hplan as Hranges.
  unfold runDownload_start. rewrite Hsz, Hcs, Hn, Hcreate, Htrunc.
  destruct (Z.ltb_spec (Z.of_nat (length data)) 0); [lia|]. cbn [orb].
  eexists. split; [done|]. cbn [mainq out]. by rewrite Hranges.
Qed.

(** ... in a state from which the output file converges to the
    source. *)
Lemma faithful_converging env now url threads limitMB w data c0 :
  faithful env url data →
  Planner.fits (Z.of_nat (length data)) threads →
  runDownload_start env now url threads limitMB w = inr c0 →
  converging data c0.
Proof.
  intros Hf Hfit Hstart.
  destruct (faithful_starts env now url threads limitMB w data Hf Hfit)
    as (c0' & Hstart' & Hq).
  rewrite Hstart in Hstart'. injection Hstart' as <-.
  destruct (start_shape _ _ _ _ _ _ _ Hstart)
    as (fileSize & cs & n & Hsz & _ & _ & _ & _ & Hts & _ & _ & _ & Hfs).
  destruct Hf as ((header & Hh & Har & Hp) & Hget & _).
  rewrite (getFileSize_ok _ _ _ _ Hh Har Hp) in Hsz. injection Hsz as <-.
  destruct Hfit as (HN & Ht & Hmax1 & Hmax2).
  destruct (spec_ranges_partition _ _ HN Ht) as (Hcont & _ & _ & Hend & _).
  set (N := Z.of_nat (length data)) in *.
  assert (HNmax : N <= Int64.max_int) by lia.
  exists (replicate (Z.to_nat N) x00). split; [done|].
  split; [rewrite length_replicate; lia|].
  unfold pending. rewrite Hts, Hq, unlaunched_spawns.
  change (unlaunched (epilogue _)) with (@nil (list Act)).
  rewrite app_nil_r. cbn [app]. unfold programs. split.
  - apply Forall_fmap, Forall_forall. intros c Hc.
    destruct (spec_ranges_bounds _ _ _ HN Ht Hc) as [H1 H2].
    destruct (exact_fetcher data c.1 c.2 (get env url c.1 c.2))
      as [Hgood _]; try done. apply Hget; [done|lia].
  - intros i Hi. right.
    destruct (contiguous_covers _ 0 (N - 1) (Z.of_nat i) Hcont Hend)
      as (c & Hc & Hin); [lia|].
    destruct (spec_ranges_bounds _ _ _ HN Ht Hc) as [H1 H2].
    apply Exists_fmap, Exists_exists. exists c. split; [done|].
    destruct (exact_fetcher data c.1 c.2 (get env url c.1 c.2))
      as [_ Hcov]; try done; [apply Hget; [done|lia]|].
    apply Hcov. lia.
Qed.

(** C1: a server with range support serves [data], of positive length
    up to [2^62], nothing fails, and the worker count is between 1 and
    the length.  Then the run reaches its concurrent phase; in whatever
    order the scheduler lets the goroutines move, when [runDownload] has
    returned the output file holds exactly [data]; and with a cap between
    1 MB/s and the largest whose byte rate fits [int64] it does return
    under the round schedule. *)
Theorem end_to_end_fidelity env now url threads limitMB w data :
  faithful env url data →
  0 < Z.of_nat (length data) <= 2 ^ 62 →
  1 <= threads <= Z.of_nat (length data) →
  ∃ c0,
    runDownload_start env now url threads limitMB w = inr c0 ∧
    (∀ sched, finished (exec sched c0) →
       fs (world (exec sched c0)) !! getFileName env url = Some data) ∧
    (1 <= limitMB < 2 ^ 43 → finished (exec (roundSchedule c0) c0)).
Proof.
  intros Hf Hlen Hthreads.
  assert (Hfit : Planner.fits (Z.of_nat (length data)) threads).
  { pose proof (ceil_div_range (Z.of_nat (length data)) threads
                  ltac:(lia) ltac:(lia)).
    unfold Planner.fits, Int64.max_int. lia. }
  destruct (faithful_starts env now url threads limitMB w data Hf Hfit)
    as (c0 & Hstart & Hq).
  exists c0. split; [done|].
  pose proof (start_sound _ _ _ _ _ _ _ Hstart) as Hs.
  pose proof (faithful_converging _ _ _ _ _ _ _ _ Hf Hfit Hstart) as Hc.
  destruct (start_shape _ _ _ _ _ _ _ Hstart)
    as (fileSize & cs & n & _ & _ & _ & _ & Hout & Hts & Hwg & Hq' & Hrl & _).
  split.
  - intros sched Hfin.
    destruct (sound_finished _ (exec_sound sched c0 Hs) Hfin)
      as (Hnil & _ & _).
    pose proof (converging_done data _ (exec_converging data sched c0 Hc)
                  Hfin Hnil) as Hfile.
    assert (Ho : out (exec sched c0) = out c0).
    { clear. revert c0. induction sched as [|p sched IH]; intros c; [done|].
      rewrite exec_cons, IH. destruct p as [|k t nt]; cbn [step].
      - unfold step_main. destruct (mainq c) as [|[| |]]; try done.
        by destruct (wg c =? 0).
      - unfold step_thread. destruct (Run.threads c !! k) as [[|a r]|]; try done.
        by destruct (act a t nt c) as [[[? ?] ?] ?]. }
    by rewrite <- Hout, <- Ho.
  - intros Hcap. eapply round_finishes; eauto.
    + pose proof Hs as (_ & Hw & _).
      by rewrite Hq', unlaunched_spawns, app_nil_r in Hw.
    + rewrite Hrl. by apply ready_new.
Qed.

End Fidelity.

(** ** The theorems at work on the sample servers *)

Section Witnesses.

Import Http Fetcher Run Inv.

(** The two scenarios of the specification. *)
Example plan_scenarios :
  Planner.plan 1000 4 = Some [(0, 249); (250, 499); (500, 749); (750, 999)] ∧
  Planner.plan 10 4 = Some [(0, 2); (3, 5); (6, 8); (9, 9)].
Proof. by vm_compute. Qed.

Example ParseInt_samples :
  Strconv.ParseInt "10" = Ok 10 ∧
  Strconv.ParseInt "+7" = Ok 7 ∧
  Strconv.ParseInt "-9223372036854775808" = Ok (- 2 ^ 63) ∧
  Strconv.ParseInt "9223372036854775808" = Err Strconv.ErrRange ∧
  Strconv.ParseInt "1_0" = Err Strconv.ErrSyntax ∧
  Strconv.ParseInt "12 " = Err Strconv.ErrSyntax ∧
  Strconv.ParseInt "-" = Err Strconv.ErrSyntax.
Proof. by vm_compute. Qed.

Example Base_samples :
  Path.Base "/a/b.tar.gz//" = "b.tar.gz" ∧ Path.Base "" = "." ∧
  Path.Base "///" = "/" ∧ Path.Ext "b.tar.gz" = ".gz" ∧
  Path.Ext "a.b/c" = "" ∧ Path.TrimSuffix "b.tar.gz" ".gz" = "b.tar".
Proof. by vm_compute. Qed.

(** Capability rejection: without [Accept-Ranges] the probe fails and the
    run leaves no file behind. *)
Example probe_rejects :
  getFileSize Sample.rangeless Sample.url = Err RangeUnsupportedError ∧
  ∃ w, runDownload_start Sample.rangeless 0 Sample.url 4 1 Sample.world0
       = inl (Returned w) ∧ fs w = ∅.
Proof. split; [by vm_compute|]. eexists. split; [reflexivity|done]. Qed.

(** The run against the flaky server completes with holes: only the one
    byte of the third chunk that arrived before the connection broke is
    in the file, each fetcher has logged its failure, and the last line is
    the completion message. *)
Example flaky_outcome :
  match runDownload_start Sample.flaky 0 Sample.url 4 1 Sample.world0 with
  | inr c0 =>
      let c := exec (roundSchedule c0) c0 in
      fs (world c) !! "file.bin"
      = Some [x00; x00; x00; x00; x00; x00; x07; x00; x00; x00] ∧
      log (world c)
      = [LBanner; LUrl Sample.url; LProbing; LSize 10; LSplit 4 3;
         LChunkStart 0 2; LRequestError;
         LChunkStart 3 5; LDownloadError;
         LChunkStart 6 8; LCopyError;
         LChunkStart 9 9; LCopyError;
         LCompleted "file.bin"]
  | inl _ => False
  end.
Proof. by vm_compute. Qed.

Lemma zero_length_panics_witness :
  getFileSize Sample.hollow Sample.url = Ok 0 ∧
  0 < 3 ∧ 3 <= Int64.max_int ∧
  Planner.chunkSize 0 3 = Some 0 ∧
  Planner.chunks 0 0 = None ∧
  ∃ w', runDownload_start Sample.hollow 0 Sample.url 3 1 Sample.world0
        = inl (Panicked w') ∧
        fs w' = fs Sample.world0.
Proof.
  assert (H1 : getFileSize Sample.hollow Sample.url = Ok 0) by by vm_compute.
  assert (H2 : 0 < 3) by lia.
  assert (H3 : 3 <= Int64.max_int) by by vm_compute.
  split; [exact H1|]. split; [exact H2|]. split; [exact H3|].
  exact (zero_length_panics Sample.hollow 0 Sample.url 3 1 Sample.world0
           H1 H2 H3).
Defined.

Lemma naming_variants_differ_witness :
  url_Parse Sample.zipped "http://example.com/file.bin?format=zip"
  = Some {| Path := "/file.bin"; Query := {[ "format" := ["zip"%string] ]} |} ∧
  getFileName Sample.zipped "http://example.com/file.bin?format=zip"
  = "file.zip" ∧
  fileNameAPS1 "http://example.com/file.bin?format=zip"
  = "file.bin?format=zip".
Proof.
  split; [reflexivity|].
  exact (proj2 naming_variants_differ Sample.zipped eq_refl).
Defined.

Lemma quanta_throttled_witness :
  let pre := [ALog (LChunkStart 0 1); AWriteAt 0 [] 0;
              AWait (Z.of_nat quantum)] in
  let post := [AWriteAt 0 [x01; x02] 2; AWait (Z.of_nat quantum);
               ARead quantum [] (Some EOF); ALog (LChunkDone 0 1); ADone] in
  downloadChunk Sample.pair 0 1
  = pre ++ ARead quantum [x01; x02] None :: post ∧
  Z.of_nat quantum <= 16 * 1024 ∧
  (length [x01; x02] <= quantum)%nat ∧
  ∃ pre', pre = pre' ++ [AWait (Z.of_nat quantum)].
Proof.
  intros pre post.
  assert (H : downloadChunk Sample.pair 0 1
              = pre ++ ARead quantum [x01; x02] None :: post)
    by by vm_compute.
  split; [exact H|].
  exact (quanta_throttled Sample.pair 0 1 pre quantum [x01; x02] None post H).
Defined.

Lemma write_discipline_witness :
  let x := get Sample.server Sample.url 0 2 in
  let body := {| payload := [x01; x02; x03]; short := [2%nat; 0%nat];
                 broken := false; eager := false |} in
  2 < Int64.max_int ∧
  (∀ body, response x = Some body →
           Z.of_nat (length (payload body)) <= 2 - 0 + 1) ∧
  reqFails x = false ∧ response x = Some body ∧
  writes (downloadChunk x 0 2)
  = [(0, [], 0%nat); (0, [x01; x02], 2%nat); (2, [x03], 1%nat)] ∧
  ∃ ws', writes (downloadChunk x 0 2) = (0, [], 0%nat) :: ws' ∧
         chained 0 ws' ∧
         StronglySorted Z.lt (offsets ws') ∧
         Forall (λ o, 0 <= o) (offsets ws') ∧
         within (2 + 1) ws'.
Proof.
  intros x body.
  assert (H1 : 2 < Int64.max_int) by by vm_compute.
  assert (H2 : ∀ body, response x = Some body →
                       Z.of_nat (length (payload body)) <= 2 - 0 + 1).
  { intros ? [= <-]. simpl. lia. }
  assert (H3 : reqFails x = false) by reflexivity.
  assert (H4 : response x = Some body) by reflexivity.
  split; [exact H1|]. split; [exact H2|]. split; [exact H3|].
  split; [exact H4|]. split; [by vm_compute|].
  exact (proj2 (write_discipline x 0 2 H1 H2) H3 body H4).
Defined.

Lemma getFileSize_contract_witness :
  is_err (getFileSize Sample.rangeless Sample.url) ∧
  ∃ e, getFileSize Sample.rangeless Sample.url = Err e ∧
       runDownload_start Sample.rangeless 0 Sample.url 4 1 Sample.world0
       = inl (Returned
                (say (LProbeError e)
                   (say LProbing
                      (say (LUrl Sample.url) (say LBanner Sample.world0))))) ∧
       fs (say (LProbeError e)
             (say LProbing
                (say (LUrl Sample.url) (say LBanner Sample.world0))))
       = fs Sample.world0.
Proof.
  assert (H : is_err (getFileSize Sample.rangeless Sample.url))
    by (vm_compute; exact I).
  split; [exact H|].
  exact (proj2 (proj2 (getFileSize_contract Sample.rangeless Sample.url))
           0 4 1 Sample.world0 H).
Defined.

Lemma read_takes_buffer_size_witness :
  let n := Nat.min copyBuf quantum in
  let rl := Limiter.NewRateLimiter 0 (1024 * 1024) in
  let filled := rl in
  let left := {| Limiter.bytesPerSec := 1024 * 1024;
                 Limiter.tokens := 1024 * 1024 - 16 * 1024;
                 Limiter.lastRefill := 0 |} in
  Int64.in_range (Limiter.tokens rl) ∧
  Int64.in_range (Limiter.bytesPerSec rl) ∧
  Limiter.Wait [(5, 0)] (Z.of_nat n) rl = Some (filled, left) ∧
  Limiter.tokens left = Limiter.tokens filled - Z.of_nat n.
Proof.
  intros n rl filled left.
  assert (H1 : Int64.in_range (Limiter.tokens rl)) by (split; by vm_compute).
  assert (H2 : Int64.in_range (Limiter.bytesPerSec rl))
    by (split; by vm_compute).
  assert (H3 : Limiter.Wait [(5, 0)] (Z.of_nat n) rl = Some (filled, left))
    by by vm_compute.
  split; [exact H1|]. split; [exact H2|]. split; [exact H3|].
  pose proof (read_takes_buffer_size copyBuf
                {| payload := [x01; x02; x03]; short := []; broken := false;
                   eager := false |})
    as H.
  unfold rateLimitedReader_Read, Read in H.
  cbn [payload short broken fst snd] in H.
  destruct H as (_ & _ & _ & _ & _ & H & _).
  exact (H [(5, 0)] rl filled left H1 H2 H3).
Defined.

Lemma sample_faithful : faithful Sample.server Sample.url Sample.data.
Proof.
  split; [|split; [|split]].
  - exists (Sample.header "10"). split; [reflexivity|].
    split; by vm_compute.
  - intros start end_ _ _. unfold exact_exchange. cbn.
    split; [done|]. split; [done|]. eexists. split; [done|]. done.
  - reflexivity.
  - reflexivity.
Qed.

Lemma end_to_end_fidelity_witness :
  faithful Sample.server Sample.url Sample.data ∧
  0 < Z.of_nat (length Sample.data) <= 2 ^ 62 ∧
  1 <= 4 <= Z.of_nat (length Sample.data) ∧
  ∃ c0,
    runDownload_start Sample.server 0 Sample.url 4 1 Sample.world0 = inr c0 ∧
    (∀ sched, finished (exec sched c0) →
       fs (world (exec sched c0)) !! getFileName Sample.server Sample.url
       = Some Sample.data) ∧
    (1 <= 1 < 2 ^ 43 → finished (exec (roundSchedule c0) c0)).
Proof.
  assert (H1 : 0 < Z.of_nat (length Sample.data) <= 2 ^ 62)
    by (simpl; lia).
  assert (H2 : 1 <= 4 <= Z.of_nat (length Sample.data)) by (simpl; lia).
  split; [exact sample_faithful|]. split; [exact H1|]. split; [exact H2|].
  exact (end_to_end_fidelity Sample.server 0 Sample.url 4 1 Sample.world0
           Sample.data sample_faithful H1 H2).
Defined.

Lemma run_completes_witness :
  ∃ c0,
    runDownload_start Sample.flaky 0 Sample.url 4 1 Sample.world0 = inr c0 ∧
    (∀ sched,
       finished (exec sched c0) →
       length (Run.threads (exec sched c0)) = length (unlaunched (mainq c0)) ∧
       Forall (λ p, p = []) (Run.threads (exec sched c0)) ∧
       wg (exec sched c0) = 0 ∧
       last (log (world (exec sched c0)))
       = Some (LCompleted (getFileName Sample.flaky Sample.url))) ∧
    (1 <= 1 < 2 ^ 43 → finished (exec (roundSchedule c0) c0)).
Proof.
  eexists. split; [vm_compute; reflexivity|].
  apply (run_completes Sample.flaky 0 Sample.url 4 1 Sample.world0).
  vm_compute. reflexivity.
Defined.

End Witnesses.

(** * Further properties of the code *)

Opaque Fetcher.quantum Fetcher.copyBuf.

Section PlannerBounds.

Import Int64 Planner Http Run.

Lemma ceil_div_count N t :
  0 < N → 0 < t → 1 <= ceil_div N (ceil_div N t) <= t.
Proof.
  intros HN Ht.
  pose proof (ceil_div_bounds N t HN Ht) as [H1 H2].
  pose proof (ceil_div_range N t HN Ht) as [H3 H4].
  pose proof (ceil_div_bounds N (ceil_div N t) HN ltac:(lia)) as [H5 H6].
  pose proof (ceil_div_range N (ceil_div N t) HN ltac:(lia)) as [H7 H8].
  split; [lia|]. nia.
Qed.

(** X1: when the planning arithmetic stays inside [int64], [runDownload]
    launches as many fetchers as there are chunks, at least one and at
    most [threads]. *)
Theorem fetcher_count_bounded env now url threads limitMB w c0 fileSize :
  getFileSize env url = Ok fileSize → fits fileSize threads →
  runDownload_start env now url threads limitMB w = inr c0 →
  ∃ cs n, chunkSize fileSize threads = Some cs ∧
          chunks fileSize cs = Some n ∧
          1 <= n <= threads ∧
          length (unlaunched (mainq c0)) = Z.to_nat n.
Proof.
  intros Hsize Hfits Hstart.
  destruct (start_shape _ _ _ _ _ _ _ Hstart)
    as (N & cs & n & HN & Hcs & Hn & _ & _ & _ & _ & Hq & _).
  rewrite Hsize in HN. injection HN as <-.
  exists cs, n. split; [done|]. split; [done|].
  rewrite (chunkSize_fits _ _ Hfits) in Hcs. injection Hcs as <-.
  rewrite (chunks_fits _ _ Hfits) in Hn. injection Hn as <-.
  destruct Hfits as (HN & Ht & _).
  split; [by apply ceil_div_count|].
  rewrite Hq, unlaunched_spawns. unfold Inv.epilogue. cbn [unlaunched omap].
  rewrite app_nil_r. unfold programs, ranges.
  by rewrite !length_fmap, length_seqZ.
Qed.

(** X2: inside [int64] the planned chunks have these sizes: chunk [i]
    starts at [i * chunkSize]; every chunk but the last holds exactly
    [chunkSize] bytes; the last holds what remains, between 1 and
    [chunkSize] bytes. *)
Theorem chunk_lengths fileSize threads :
  fits fileSize threads →
  ∃ cs n l,
    chunkSize fileSize threads = Some cs ∧ chunks fileSize cs = Some n ∧
    plan fileSize threads = Some l ∧ length l = Z.to_nat n ∧
    1 <= cs ∧ (n - 1) * cs < fileSize <= n * cs ∧
    ∀ i c, l !! i = Some c →
      c.1 = Z.of_nat i * cs ∧
      1 <= chunk_len c <= cs ∧
      (Z.of_nat i < n - 1 → chunk_len c = cs) ∧
      (Z.of_nat i = n - 1 → chunk_len c = fileSize - (n - 1) * cs).
Proof.
  intros Hfits.
  exists (ceil_div fileSize threads),
         (ceil_div fileSize (ceil_div fileSize threads)),
         (spec_ranges fileSize threads).
  pose proof Hfits as (HN & Ht & _).
  pose proof (ceil_div_range fileSize threads HN Ht) as [Hcs1 Hcs2].
  pose proof (ceil_div_bounds fileSize (ceil_div fileSize threads) HN
                ltac:(lia)) as [Hn1 Hn2].
  pose proof (ceil_div_range fileSize (ceil_div fileSize threads) HN
                ltac:(lia)) as [Hn3 Hn4].
  split; [by apply chunkSize_fits|]. split; [by apply chunks_fits|].
  split; [by apply plan_fits|].
  split; [unfold spec_ranges; by rewrite length_fmap, length_seqZ|].
  split; [done|]. split; [done|].
  intros i c Hc. unfold spec_ranges in Hc.
  apply list_lookup_fmap_Some in Hc as (k & -> & Hk).
  apply lookup_seqZ in Hk as [-> Hi].
  set (cs := ceil_div fileSize threads) in *.
  set (n := ceil_div fileSize cs) in *.
  unfold spec_range, chunk_len. cbn [fst snd].
  replace (0 + Z.of_nat i) with (Z.of_nat i) by lia.
  assert (Z.of_nat i * cs <= (n - 1) * cs)
    by (apply Z.mul_le_mono_nonneg_r; lia).
  split; [done|].
  destruct (decide (Z.of_nat i < n - 1)) as [Hlt|Hge].
  - assert ((Z.of_nat i + 1) * cs <= (n - 1) * cs)
      by (apply Z.mul_le_mono_nonneg_r; lia).
    rewrite Z.min_l by lia. split; [lia|]. split; [lia|]. lia.
  - assert (Z.of_nat i = n - 1) as Hi' by lia. rewrite Hi'.
    replace (n - 1 + 1) with n by lia.
    rewrite Z.min_r by lia. split; [lia|]. split; [lia|]. lia.
Qed.

(** X3: for a non-negative length and a positive thread count whose sum
    stays inside [int64], the planning stage panics (division by zero)
    exactly when the length is 0. *)
Theorem plan_panics_iff_empty fileSize threads :
  0 <= fileSize → 0 < threads <= max_int →
  fileSize + threads - 1 <= max_int →
  plan fileSize threads = None ↔ fileSize = 0.
Proof.
  intros HN [Ht Ht'] Hmax. split.
  - intros Hplan. destruct (decide (fileSize = 0)) as [|Hne]; [done|].
    exfalso. unfold plan, chunkSize in Hplan.
    assert (Hr : in_range (fileSize + threads - 1))
      by (unfold in_range, min_int, max_int in *; lia).
    rewrite (sub_add _ _ _ Hr) in Hplan.
    rewrite div_nonneg in Hplan by (done || lia).
    cbn in Hplan.
    assert (1 <= (fileSize + threads - 1) / threads).
    { apply Z.div_le_lower_bound; lia. }
    unfold chunks, div in Hplan.
    destruct (_ =? 0) eqn:E in Hplan; [lia|]. done.
  - intros ->. unfold plan.
    rewrite chunkSize_of_empty by done.
    change (chunks 0 0 ≫= (λ n, Some (ranges 0 0 n)) = None).
    unfold chunks. by rewrite div_zero.
Qed.

End PlannerBounds.

Section NamingMore.

Import Http Path.

Lemma chars_app s1 s2 : chars (s1 +:+ s2) = chars s1 ++ chars s2.
Proof.
  rewrite <- (str_chars s1), <- (str_chars s2) at 1.
  by rewrite <- str_app, chars_str.
Qed.

Lemma upto_slash_plain r : slash ∉ upto_slash r.
Proof.
  induction r as [|c r IH]; cbn [upto_slash]; [apply not_elem_of_nil|].
  case_bool_decide as Hc; [apply not_elem_of_nil|].
  apply not_elem_of_cons. split; [congruence|done].
Qed.

Lemma Base_shape p : Base p = "/" ∨ slash ∉ chars (Base p).
Proof.
  unfold Base. case_bool_decide.
  { right. cbn. intros H'. apply elem_of_cons in H' as [H'|H'].
    - discriminate.
    - by apply elem_of_nil in H'. }
  case_bool_decide; [by left|]. right.
  rewrite chars_str. intros Hin. rewrite elem_of_reverse in Hin.
  by apply upto_slash_plain in Hin.
Qed.

Lemma TrimSuffix_plain s suffix :
  slash ∉ chars s → slash ∉ chars (TrimSuffix s suffix).
Proof.
  intros Hs. unfold TrimSuffix. case_bool_decide; [|done].
  rewrite chars_str. intros Hin. apply Hs.
  by apply (subseteq_take _ _ _ Hin).
Qed.

(** X4: the name [getFileName] gives the output file contains a slash
    exactly when the base name of the URL path is ["/"] or the [format]
    parameter contains one: without such a parameter the file lands in
    the working directory, and the parameter is appended unchecked. *)
Theorem getFileName_slash env rawURL u :
  url_Parse env rawURL = Some u →
  slash ∈ chars (getFileName env rawURL) ↔
  Base (Path u) = "/" ∨ slash ∈ chars (Get (Query u) "format").
Proof.
  intros Hu. unfold getFileName. rewrite Hu.
  pose proof (Base_shape (Path u)) as Hshape.
  set (base := Base (Path u)) in *. set (format := Get (Query u) "format").
  case_bool_decide as Hf.
  - rewrite !chars_app. rewrite !elem_of_app.
    destruct Hshape as [Hroot|Hplain].
    + rewrite Hroot. split; [by left|]. intros _. left.
      vm_compute. apply list_elem_of_here.
    + pose proof (TrimSuffix_plain base (Ext base) Hplain) as Hstem.
      split.
      * intros [Hin|[Hin|Hin]]; [done| |by right].
        exfalso. cbn in Hin. apply elem_of_cons in Hin as [Hin|Hin].
        -- discriminate.
        -- by apply elem_of_nil in Hin.
      * intros [Hroot|Hin]; [|by right; right].
        exfalso. apply Hplain. rewrite Hroot. vm_compute.
        apply list_elem_of_here.
  - assert (format = "") as -> by (destruct (decide (format = "")); done).
    destruct Hshape as [Hroot|Hplain].
    + rewrite Hroot. split; [by left|]. intros _. vm_compute.
      apply list_elem_of_here.
    + split; [done|]. intros [Hroot|Hin].
      * exfalso. apply Hplain. rewrite Hroot. vm_compute.
        apply list_elem_of_here.
      * by apply elem_of_nil in Hin.
Qed.

End NamingMore.

Section LimiterTraffic.

Import Int64 Limiter Traffic.

Lemma poll_step now k n rl rl' ok :
  0 <= n → 0 <= tokens rl <= bytesPerSec rl →
  Z.max 0 k + bytesPerSec rl <= max_int →
  Wait_poll now k n rl = (rl', ok) →
  (if ok then n else 0) + tokens rl' <= tokens rl + Z.max 0 k ∧
  0 <= tokens rl' <= bytesPerSec rl ∧ bytesPerSec rl' = bytesPerSec rl.
Proof.
  intros Hn Ht Hk. unfold Wait_poll, refill.
  assert (Hmax : max_int = 2 ^ 63 - 1) by reflexivity.
  assert (Hmin : min_int = - 2 ^ 63) by reflexivity.
  destruct (k >? 0) eqn:Ek; cbn [tokens bytesPerSec lastRefill].
  - rewrite add_small by (unfold in_range; lia).
    destruct (tokens rl + k >? bytesPerSec rl) eqn:Ecap.
    + destruct (bytesPerSec rl >=? n) eqn:En; intros [= <- <-];
        cbn [tokens bytesPerSec]; [|lia].
      rewrite sub_small by (unfold in_range; lia). lia.
    + destruct (tokens rl + k >=? n) eqn:En; intros [= <- <-];
        cbn [tokens bytesPerSec]; [|lia].
      rewrite sub_small by (unfold in_range; lia). lia.
  - destruct (tokens rl >=? n) eqn:En; intros [= <- <-];
      cbn [tokens bytesPerSec]; [|lia].
    rewrite sub_small by (unfold in_range; lia). lia.
Qed.

(** X5: over any sequence of passes through [Wait] by any callers, the
    limiter of APS2 hands out at most what the bucket held at the start
    plus the refills the clock granted, and the bucket stays between 0 and
    its capacity (requests are non-negative and no refill overflows). *)
Theorem polls_budget l : ∀ rl rl' given,
  0 <= tokens rl <= bytesPerSec rl →
  Forall (λ p, 0 <= p.2 ∧ Z.max 0 p.1.2 + bytesPerSec rl <= max_int) l →
  polls l rl = (rl', given) →
  0 <= given ∧
  given + tokens rl' <= tokens rl + credit l ∧
  0 <= tokens rl' <= bytesPerSec rl ∧ bytesPerSec rl' = bytesPerSec rl.
Proof.
  induction l as [|[[now k] n] l IH]; intros rl rl' given Ht Hl.
  - intros [= <- <-]. cbn. lia.
  - apply Forall_cons in Hl as [[Hn Hk] Hl]. cbn [fst snd] in Hn, Hk.
    cbn [polls].
    destruct (Wait_poll now k n rl) as [rl1 ok] eqn:E1.
    destruct (polls l rl1) as [rl2 g] eqn:E2. intros [= <- <-].
    destruct (poll_step _ _ _ _ _ _ Hn Ht Hk E1) as (H1 & H2 & H3).
    rewrite <- H3 in H2, Hl.
    destruct (IH _ _ _ H2 Hl E2) as (G1 & G2 & G3 & G4).
    unfold credit in *. cbn [foldr fst snd].
    rewrite G4, H3. rewrite H3 in G3.
    split; [destruct ok; lia|]. split; [lia|]. split; [lia|done].
Qed.

(** X6: a call of [Wait] for more tokens than the capacity
    [bytesPerSec] never returns, whatever the clock does: the refill is
    capped at the capacity before the test. *)
Theorem oversized_wait_blocks clock : ∀ n rl,
  in_range (tokens rl) → tokens rl <= bytesPerSec rl → bytesPerSec rl < n →
  Wait clock n rl = None.
Proof.
  induction clock as [|[now k] clock IH]; intros n rl Hr Ht Hn; [done|].
  cbn [Wait]. unfold Wait_poll.
  assert (Hfill : in_range (tokens (refill now k rl)) ∧
                  tokens (refill now k rl) <= bytesPerSec (refill now k rl) ∧
                  bytesPerSec (refill now k rl) = bytesPerSec rl).
  { unfold refill. destruct (k >? 0); [|done]. cbn [tokens bytesPerSec].
    pose proof (wrap_in_range (tokens rl + k)) as Hw. unfold add.
    destruct (wrap (tokens rl + k) >? bytesPerSec rl) eqn:E.
    - split; [|split; [lia|done]]. unfold in_range in *. lia.
    - split; [done|]. split; [lia|done]. }
  destruct Hfill as (F1 & F2 & F3).
  destruct (tokens (refill now k rl) >=? n) eqn:E; [lia|].
  apply IH; [done|done|lia].
Qed.

Lemma iter_trySend k : ∀ rl,
  queued rl <= capacity rl →
  Nat.iter k trySend rl
  = {| capacity := capacity rl;
       queued := Z.min (capacity rl) (queued rl + Z.of_nat k) |}.
Proof.
  induction k as [|k IH]; intros rl Hq.
  - destruct rl as [c q]. cbn [capacity queued] in *.
    change (Nat.iter 0 trySend {| capacity := c; queued := q |})
      with {| capacity := c; queued := q |}.
    f_equal. lia.
  - rewrite Nat.iter_succ, IH by done. unfold trySend.
    cbn [capacity queued].
    destruct (Z.min (capacity rl) (queued rl + Z.of_nat k) <? capacity rl)
      eqn:E; f_equal; lia.
Qed.

Lemma WaitChan_some n : ∀ rl,
  Z.of_nat n <= queued rl →
  WaitChan n rl
  = Some {| capacity := capacity rl; queued := queued rl - Z.of_nat n |}.
Proof.
  induction n as [|n IH]; intros rl Hq.
  - cbn [WaitChan]. destruct rl as [c q]. cbn [capacity queued].
    do 2 f_equal. lia.
  - cbn [WaitChan]. unfold recv.
    destruct (queued rl >? 0) eqn:E; [|lia]. cbn [mbind option_bind].
    rewrite IH by (cbn [queued]; lia). cbn [capacity queued].
    do 2 f_equal. lia.
Qed.

Lemma WaitChan_none n : ∀ rl,
  0 <= queued rl < Z.of_nat n → WaitChan n rl = None.
Proof.
  induction n as [|n IH]; intros rl Hq; [lia|].
  cbn [WaitChan]. unfold recv.
  destruct (queued rl >? 0) eqn:E; [|done]. cbn [mbind option_bind].
  apply IH. cbn [queued]. lia.
Qed.

(** X7: [Wait(n)] of APS1 gets through without blocking exactly when the
    channel holds at least [n] tokens, and it then leaves [n] fewer. *)
Theorem WaitChan_returns_iff n rl :
  0 <= queued rl →
  (is_Some (WaitChan n rl) ↔ Z.of_nat n <= queued rl) ∧
  (∀ rl', WaitChan n rl = Some rl' →
          capacity rl' = capacity rl ∧
          queued rl' = queued rl - Z.of_nat n ∧ 0 <= queued rl').
Proof.
  intros Hq. split.
  - split.
    + intros [rl' H]. destruct (decide (Z.of_nat n <= queued rl)); [done|].
      rewrite WaitChan_none in H by lia. done.
    + intros H. rewrite WaitChan_some by done. by eexists.
  - intros rl' H. destruct (decide (Z.of_nat n <= queued rl)) as [Hle|Hgt].
    + rewrite WaitChan_some in H by done. injection H as <-.
      cbn [capacity queued]. lia.
    + rewrite WaitChan_none in H by lia. done.
Qed.

(** X8: the limiter of APS1 starts with an empty channel, so every
    [Wait] for at least one token blocks until the ticker fires; one firing
    with no receive in between fills the channel to exactly [bytesPerSec]
    tokens whatever it held, after which any [Wait(n)] with
    [n <= bytesPerSec] gets through. *)
Theorem ticker_fills_channel bytesPerSec rl :
  NewChanLimiter bytesPerSec = Some rl →
  (∀ n, (0 < n)%nat → WaitChan n rl = None) ∧
  (∀ held, capacity held = bytesPerSec → 0 <= queued held <= bytesPerSec →
     ticker_round held = {| capacity := bytesPerSec; queued := bytesPerSec |} ∧
     ticker_round held = tick held ∧
     ∀ n, Z.of_nat n <= bytesPerSec →
          WaitChan n (ticker_round held)
          = Some {| capacity := bytesPerSec;
                    queued := bytesPerSec - Z.of_nat n |}).
Proof.
  unfold NewChanLimiter. destruct (bytesPerSec <? 0) eqn:E; [done|].
  intros [= <-]. split.
  - intros n Hn. apply WaitChan_none. cbn [queued]. lia.
  - intros held Hc Hq.
    assert (Hround : ticker_round held
                     = {| capacity := bytesPerSec; queued := bytesPerSec |}).
    { unfold ticker_round. rewrite iter_trySend by lia. rewrite Hc.
      f_equal. lia. }
    split; [done|]. split.
    + rewrite Hround. unfold tick. rewrite Hc. f_equal. lia.
    + intros n Hn. rewrite Hround. by rewrite WaitChan_some.
Qed.

(** X9: however the sends of the ticker and the receives of the callers
    interleave, the receives that get through number at most the tokens
    queued at the start plus the sends attempted, and the channel holds
    between 0 and its capacity. *)
Theorem traffic_budget ops : ∀ rl rl' got,
  0 <= queued rl <= capacity rl →
  traffic ops rl = (rl', got) →
  0 <= got ∧ got + queued rl' <= queued rl + sends ops ∧
  0 <= queued rl' <= capacity rl ∧ capacity rl' = capacity rl.
Proof.
  induction ops as [|[|] ops IH]; intros rl rl' got Hq.
  - intros [= <- <-]. cbn. lia.
  - cbn [traffic sends foldr]. intros H.
    assert (Hs : 0 <= queued (trySend rl) <= capacity (trySend rl) ∧
                 queued (trySend rl) <= queued rl + 1 ∧
                 capacity (trySend rl) = capacity rl).
    { unfold trySend. destruct (queued rl <? capacity rl) eqn:E;
        cbn [capacity queued]; lia. }
    destruct Hs as (S1 & S2 & S3).
    destruct (IH _ _ _ S1 H) as (G1 & G2 & G3 & G4).
    fold (sends ops). lia.
  - cbn [traffic sends foldr]. unfold recv.
    destruct (queued rl >? 0) eqn:E.
    + destruct (traffic ops _) as [r g] eqn:Et. intros [= <- <-].
      apply IH in Et as (G1 & G2 & G3 & G4); cbn [capacity queued] in *;
        [|lia].
      fold (sends ops). lia.
    + intros H. apply IH in H as (G1 & G2 & G3 & G4); [|done].
      fold (sends ops). lia.
Qed.

End LimiterTraffic.

Section LimiterClock.

Import Limiter Traffic Clock.



















End LimiterClock.

Section FetcherTransfer.

Import Http Fetcher Transfer.

Local Ltac no_member H :=
  repeat (apply elem_of_cons in H as [H|H]; [done|]);
  apply elem_of_nil in H.

Local Ltac member :=
  rewrite !elem_of_cons; auto 10.

(** The paths through [downloadChunk]. *)
Lemma downloadChunk_cases x s e :
  reqFails x = true ∧
    downloadChunk x s e = [ALog (LChunkStart s e); ALog LRequestError; ADone] ∨
  reqFails x = false ∧ response x = None ∧
    downloadChunk x s e = [ALog (LChunkStart s e); ALog LDownloadError; ADone] ∨
  (∃ body n0 d,
     reqFails x = false ∧ response x = Some body ∧
     WriteAt (disk x) [] s = ((n0, false), d) ∧
     downloadChunk x s e
     = [ALog (LChunkStart s e); AWriteAt s [] n0; ALog LOffsetError; ADone]) ∨
  (∃ body d,
     reqFails x = false ∧ response x = Some body ∧ 0 <= s ∧
     WriteAt (disk x) [] s = ((0%nat, true), d) ∧
     let res := copyLoop (copyFuel body) {| offset := s |} d body in
     (res.2 = CopyOk ∧
      downloadChunk x s e
      = ALog (LChunkStart s e) :: AWriteAt s [] 0
        :: res.1 ++ [ALog (LChunkDone s e); ADone]) ∨
     (res.2 = CopyFailed ∧
      downloadChunk x s e
      = ALog (LChunkStart s e) :: AWriteAt s [] 0
        :: res.1 ++ [ALog LCopyError; ADone])).
Proof.
  unfold downloadChunk.
  destruct (reqFails x); [by left|]. right.
  destruct (response x) as [body|]; [|by left]. right.
  destruct (WriteAt (disk x) [] s) as [[n0 ok0] d] eqn:Hw.
  destruct ok0; cbn [negb].
  2: { left. by exists body, n0, d. }
  right. exists body, d.
  apply WriteAt_spec in Hw as (Hn0 & Hok & _).
  destruct (Hok eq_refl) as [-> H0].
  split; [done|]. split; [done|]. split; [done|]. split; [done|].
  unfold io_Copy.
  pose proof (copy_total (copyFuel body) {| offset := s |} d body
                ltac:(lia)) as Ht.
  destruct (copyLoop _ _ d body) as [acts r]. cbn [fst snd] in *.
  destruct r; [by left|by right|done].
Qed.

Lemma copy_moves_data fuel sw d b : Forall moves_data (copyLoop fuel sw d b).1.
Proof.
  apply (copyLoop_elim (λ _ _ _ _ res, Forall moves_data res.1)); clear.
  - constructor.
  - intros. by repeat constructor.
  - intros. cbn. by repeat constructor.
  - intros. by repeat constructor.
  - intros. cbn. by repeat constructor.
  - intros. by repeat constructor.
  - intros. by repeat constructor.
Qed.

Lemma moves_data_logged l : Forall moves_data l → logged l = [].
Proof.
  induction 1 as [|a l Ha _ IH]; [done|].
  destruct a; try done; exact IH.
Qed.

Lemma logged_app l1 l2 : logged (l1 ++ l2) = logged l1 ++ logged l2.
Proof. apply omap_app. Qed.

Lemma moves_data_not_in l a : Forall moves_data l → ¬ moves_data a → a ∉ l.
Proof.
  intros Hl Ha Hin. rewrite Forall_forall in Hl. by apply Ha, Hl.
Qed.

(** X10: on every path [downloadChunk] logs its start line first, then
    only waits, reads and writes, then logs exactly one outcome line, and
    calls [wg.Done()] last, exactly once; the outcome is the request error
    exactly when [http.NewRequest] fails and the download error exactly
    when the request is built and [Do] fails. *)
Theorem fetcher_protocol x s e :
  ∃ pre outcome,
    downloadChunk x s e = ALog (LChunkStart s e) :: pre ++ [ALog outcome; ADone] ∧
    Forall moves_data pre ∧
    logged (downloadChunk x s e) = [LChunkStart s e; outcome] ∧
    outcome ∈ [LRequestError; LDownloadError; LOffsetError; LCopyError;
               LChunkDone s e] ∧
    (outcome = LRequestError ↔ reqFails x = true) ∧
    (outcome = LDownloadError ↔ reqFails x = false ∧ response x = None).
Proof.
  destruct (downloadChunk_cases x s e)
    as [[Hr ->]|[(Hr & Hx & ->)|[(body & n0 & d & Hr & Hx & Hw & ->)|
        (body & d & Hr & Hx & H0 & Hw & [[Hres ->]|[Hres ->]])]]].
  - exists [], LRequestError. split; [done|]. split; [constructor|].
    split; [done|]. split; [by member|]. rewrite Hr. split; split; first [done | intros [? _]; done].
  - exists [], LDownloadError. split; [done|]. split; [constructor|].
    split; [done|]. split; [by member|]. rewrite Hr, Hx. split; split; first [done | intros [_ ?]; done | intros _; by split].
  - exists [AWriteAt s [] n0], LOffsetError. split; [done|].
    split; [by repeat constructor|]. split; [done|]. split; [by member|].
    rewrite Hr, Hx. split; split; first [done | intros [_ ?]; done].
  - pose proof (copy_moves_data (copyFuel body) {| offset := s |} d body)
      as Hm.
    eexists (AWriteAt s [] 0 :: _), (LChunkDone s e). split; [done|].
    split; [by constructor|]. split.
    { cbn [logged omap list_omap]. change (omap _ ?l) with (logged l).
      rewrite logged_app, (moves_data_logged _ Hm). done. }
    split; [by member|]. rewrite Hr, Hx.
    split; split; first [done | intros [_ ?]; done].
  - pose proof (copy_moves_data (copyFuel body) {| offset := s |} d body)
      as Hm.
    eexists (AWriteAt s [] 0 :: _), LCopyError. split; [done|].
    split; [by constructor|]. split.
    { cbn [logged omap list_omap]. change (omap _ ?l) with (logged l).
      rewrite logged_app, (moves_data_logged _ Hm). done. }
    split; [by member|]. rewrite Hr, Hx.
    split; split; first [done | intros [_ ?]; done].
Qed.

Lemma landed_cons off p n ws :
  landed ((off, p, n) :: ws) = take n p ++ landed ws.
Proof. done. Qed.

Lemma copy_landed fuel sw d b :
  landed (writes (copyLoop fuel sw d b).1) `prefix_of` payload b ∧
  ((copyLoop fuel sw d b).2 = CopyOk →
   broken b = false ∧
   landed (writes (copyLoop fuel sw d b).1) = payload b ∧
   Forall (λ w, w.2 = length w.1.2) (writes (copyLoop fuel sw d b).1)).
Proof.
  apply (copyLoop_elim
    (λ fuel sw d b res,
       landed (writes res.1) `prefix_of` payload b ∧
       (res.2 = CopyOk →
        broken b = false ∧ landed (writes res.1) = payload b ∧
        Forall (λ w, w.2 = length w.1.2) (writes res.1)))); clear.
  - intros sw d b. split; [apply prefix_nil|done].
  - intros fuel sw d b Hp. rewrite Hp. split; [done|].
    cbn. destruct (broken b); [done|]. intros _. repeat split. constructor.
  - intros fuel sw d b k b' (_ & _ & Hpl & Hbr & _) Hgot [IH1 IH2].
    rewrite Hpl, (take_nil_drop _ _ Hgot), Hbr in *. done.
  - intros fuel sw d b k b' nw ok d' _ Hne Hw Hbad. split; [|done].
    change (take nw (take k (payload b)) ++ [] `prefix_of` payload b).
    rewrite app_nil_r.
    etrans; [apply prefix_take|]. apply prefix_take.
  - intros fuel sw d b k b' d' (_ & _ & Hpl & Hbr & _) Hne Hw sw' [IH1 IH2].
    change (writes _) with
      ((offset sw, take k (payload b), length (take k (payload b)))
         :: writes (copyLoop fuel sw' d' b').1).
    rewrite landed_cons, firstn_all, Hpl, Hbr in *.
    split.
    + rewrite <- (take_drop k (payload b)) at 2. by apply prefix_app.
    + intros Hok. destruct (IH2 Hok) as (Hb & Hl & Hall).
      split; [done|]. split; [by rewrite Hl, take_drop|]. by constructor.
  - intros fuel sw d b b' nw ok d' _ Hw Hbad. split; [|done].
    change (take nw (payload b) ++ [] `prefix_of` payload b).
    rewrite app_nil_r. apply prefix_take.
  - intros fuel sw d b b' d' _ Hw.
    change (writes _) with
      [(offset sw, payload b, length (payload b))].
    rewrite landed_cons, firstn_all. change (landed []) with (@nil byte).
    rewrite app_nil_r. split; [done|].
    cbn [snd]. destruct (broken b); [done|]. intros _.
    repeat split. by repeat constructor.
Qed.

(** X11: a fetcher writes nothing when its request fails; otherwise
    the bytes it puts into the file, in order, are a prefix of the
    response body; and whenever it logs the line that reports the chunk as
    downloaded, the whole body was written, by complete writes, from a
    stream that ended in [io.EOF]. *)
Theorem fetcher_writes_prefix x s e :
  let ws := writes (downloadChunk x s e) in
  (reqFails x = true ∨ response x = None → ws = []) ∧
  (∀ body, response x = Some body → landed ws `prefix_of` payload body) ∧
  (ALog (LChunkDone s e) ∈ downloadChunk x s e →
   ∃ body, reqFails x = false ∧ response x = Some body ∧
           broken body = false ∧ 0 <= s ∧
           landed ws = payload body ∧
           Forall (λ w, w.2 = length w.1.2) ws).
Proof.
  intros ws. subst ws.
  destruct (downloadChunk_cases x s e)
    as [[Hr ->]|[(Hr & Hx & ->)|[(body & n0 & d & Hr & Hx & Hw & ->)|
        (body & d & Hr & Hx & H0 & Hw & Hres)]]].
  - split; [done|]. split; [intros; apply prefix_nil|].
    intros Hin. by no_member Hin.
  - split; [done|]. split; [intros; apply prefix_nil|].
    intros Hin. by no_member Hin.
  - rewrite Hr, Hx. split; [by intros [|]|]. split.
    + intros ? _. apply WriteAt_spec in Hw as (Hn0 & _).
      cbn in Hn0. assert (n0 = 0%nat) as -> by lia. apply prefix_nil.
    + intros Hin. by no_member Hin.
  - rewrite Hr, Hx. split; [by intros [|]|].
    pose proof (copy_landed (copyFuel body) {| offset := s |} d body)
      as [Hpre Hok].
    pose proof (copy_moves_data (copyFuel body) {| offset := s |} d body)
      as Hm.
    cbn zeta in Hres.
    assert (Hws : ∀ tail_,
      Forall (λ a, writes [a] = []) tail_ →
      writes (ALog (LChunkStart s e) :: AWriteAt s [] 0
              :: (copyLoop (copyFuel body) {| offset := s |} d body).1
              ++ tail_)
      = (s, [], 0%nat)
        :: writes (copyLoop (copyFuel body) {| offset := s |} d body).1).
    { intros tail_ Ht. cbn [writes omap list_omap]. f_equal.
      change (omap _ ?l) with (writes l). rewrite writes_app.
      assert (writes tail_ = []) as ->; [|by rewrite app_nil_r].
      induction Ht as [|a l Ha _ IH]; [done|].
      change (writes (a :: l)) with (writes ([a] ++ l)).
      by rewrite writes_app, Ha, IH. }
    destruct Hres as [[Hres ->]|[Hres ->]]; rewrite Hws by by repeat constructor.
    + split; [by intros ? [= <-]|]. intros _.
      destruct (Hok Hres) as (Hb & Hl & Hall).
      exists body. repeat split; try done. by constructor.
    + split; [by intros ? [= <-]|]. intros Hin. exfalso.
      apply elem_of_cons in Hin as [|Hin]; [done|].
      apply elem_of_cons in Hin as [|Hin]; [done|].
      apply elem_of_app in Hin as [Hin|Hin]; [|by no_member Hin].
      apply (moves_data_not_in _ (ALog (LChunkDone s e)) Hm); [|done].
      cbn. tauto.
Qed.

End FetcherTransfer.

Section FetcherBill.

Import Http Fetcher Transfer Planner.

Local Ltac no_member H :=
  repeat (apply elem_of_cons in H as [H|H]; [done|]);
  apply elem_of_nil in H.

Lemma bill_app l1 l2 :
  tokens_taken (l1 ++ l2) = tokens_taken l1 + tokens_taken l2 ∧
  bytes_obtained (l1 ++ l2) = bytes_obtained l1 + bytes_obtained l2 ∧
  reads (l1 ++ l2) = reads l1 + reads l2.
Proof.
  induction l1 as [|a l1 (IH1 & IH2 & IH3)]; [done|].
  unfold tokens_taken, bytes_obtained, reads in *.
  rewrite <- app_comm_cons. cbn [foldr]. rewrite IH1, IH2, IH3.
  destruct a; repeat split; lia.
Qed.

Lemma bill_read got er :
  tokens_taken (readActs got er) = Z.of_nat quantum ∧
  bytes_obtained (readActs got er) = Z.of_nat (length got) ∧
  reads (readActs got er) = 1.
Proof.
  unfold tokens_taken, bytes_obtained, reads, readActs. cbn [foldr].
  repeat split; lia.
Qed.

Lemma bill_wrap s e l m :
  let acts := ALog (LChunkStart s e) :: AWriteAt s [] 0
              :: l ++ [ALog m; ADone] in
  tokens_taken acts = tokens_taken l ∧
  bytes_obtained acts = bytes_obtained l ∧
  reads acts = reads l.
Proof.
  intros acts. subst acts.
  change (ALog (LChunkStart s e) :: AWriteAt s [] 0 :: ?l')
    with ([ALog (LChunkStart s e); AWriteAt s [] 0] ++ l').
  destruct (bill_app [ALog (LChunkStart s e); AWriteAt s [] 0]
              (l ++ [ALog m; ADone])) as (-> & -> & ->).
  destruct (bill_app l [ALog m; ADone]) as (-> & -> & ->).
  cbn. repeat split; lia.
Qed.

Lemma delivers_eager b k b' : delivers b k b' → eager b' = eager b.
Proof.
  intros (Hrd & _). unfold Read in Hrd.
  destruct (payload b); [done|].
  by injection Hrd as _ _ <-.
Qed.

Lemma copy_bill fuel sw d b :
  let res := copyLoop fuel sw d b in
  tokens_taken res.1 = Z.of_nat quantum * reads res.1 ∧
  0 <= reads res.1 ∧
  bytes_obtained res.1 <= tokens_taken res.1 ∧
  (res.2 = CopyOk →
   bytes_obtained res.1 = Z.of_nat (length (payload b)) ∧
   (eager b = false →
    bytes_obtained res.1 + Z.of_nat quantum <= tokens_taken res.1)).
Proof.
  apply (copyLoop_elim
    (λ fuel sw d b res,
       tokens_taken res.1 = Z.of_nat quantum * reads res.1 ∧
       0 <= reads res.1 ∧
       bytes_obtained res.1 <= tokens_taken res.1 ∧
       (res.2 = CopyOk →
        bytes_obtained res.1 = Z.of_nat (length (payload b)) ∧
        (eager b = false →
         bytes_obtained res.1 + Z.of_nat quantum <= tokens_taken res.1))));
    clear.
  - intros sw d b. cbn. repeat split; (lia || done).
  - intros fuel sw d b Hp. cbn [fst snd].
    destruct (bill_read [] (Some (if broken b then ErrConn else EOF)))
      as (-> & -> & ->).
    rewrite Hp. cbn [length]. repeat split; lia.
  - intros fuel sw d b k b' Hdel Hgot (I1 & I2 & I3 & I4).
    pose proof (delivers_eager _ _ _ Hdel) as He.
    destruct Hdel as (_ & _ & Hpl & _).
    cbn [fst snd].
    destruct (bill_app (readActs [] None) (copyLoop fuel sw d b').1)
      as (-> & -> & ->).
    destruct (bill_read [] None) as (-> & -> & ->). cbn [length].
    rewrite Hpl, (take_nil_drop _ _ Hgot), He in I4.
    split; [lia|]. split; [lia|]. split; [lia|].
    intros Hok. destruct (I4 Hok) as [I5 I6]. split; [lia|].
    intros Hlazy. specialize (I6 Hlazy). lia.
  - intros fuel sw d b k b' nw ok d' (_ & Hk & _) _ _ _. cbn [fst snd].
    destruct (bill_app (readActs (take k (payload b)) None)
                [AWriteAt (offset sw) (take k (payload b)) nw])
      as (-> & -> & ->).
    destruct (bill_read (take k (payload b)) None) as (-> & -> & ->).
    assert (Z.of_nat (length (take k (payload b))) <= Z.of_nat quantum)
      by (rewrite length_take; lia).
    change (tokens_taken [AWriteAt _ _ _]) with 0.
    change (bytes_obtained [AWriteAt _ _ _]) with 0.
    change (reads [AWriteAt _ _ _]) with 0.
    split; [lia|]. split; [lia|]. split; [lia|done].
  - intros fuel sw d b k b' d' Hdel _ _ sw' (I1 & I2 & I3 & I4).
    pose proof (delivers_eager _ _ _ Hdel) as He.
    destruct Hdel as (_ & Hk & Hpl & _).
    cbn [fst snd].
    destruct (bill_app (readActs (take k (payload b)) None)
                ([AWriteAt (offset sw) (take k (payload b))
                    (length (take k (payload b)))]
                 ++ (copyLoop fuel sw' d' b').1))
      as (-> & -> & ->).
    destruct (bill_app [AWriteAt (offset sw) (take k (payload b))
                          (length (take k (payload b)))]
                (copyLoop fuel sw' d' b').1)
      as (-> & -> & ->).
    destruct (bill_read (take k (payload b)) None) as (-> & -> & ->).
    pose proof (take_drop_lengths k (payload b)) as Hlen.
    rewrite Hpl, He in I4.
    assert (Z.of_nat (length (take k (payload b))) <= Z.of_nat quantum)
      by (rewrite length_take; lia).
    change (tokens_taken [AWriteAt _ _ _]) with 0.
    change (bytes_obtained [AWriteAt _ _ _]) with 0.
    change (reads [AWriteAt _ _ _]) with 0.
    split; [lia|]. split; [lia|]. split; [lia|].
    intros Hok. destruct (I4 Hok) as [I5 I6]. split; [lia|].
    intros Hlazy. specialize (I6 Hlazy). lia.
  - intros fuel sw d b b' nw ok d' (_ & _ & Hlen & _) _ _. cbn [fst snd].
    destruct (bill_app
                (readActs (payload b)
                   (Some (if broken b then ErrConn else EOF)))
                [AWriteAt (offset sw) (payload b) nw])
      as (-> & -> & ->).
    destruct (bill_read (payload b)
                (Some (if broken b then ErrConn else EOF)))
      as (-> & -> & ->).
    change (tokens_taken [AWriteAt _ _ _]) with 0.
    change (bytes_obtained [AWriteAt _ _ _]) with 0.
    change (reads [AWriteAt _ _ _]) with 0.
    split; [lia|]. split; [lia|]. split; [lia|done].
  - intros fuel sw d b b' d' (_ & _ & Hlen & He) _. cbn [fst snd].
    destruct (bill_app
                (readActs (payload b)
                   (Some (if broken b then ErrConn else EOF)))
                [AWriteAt (offset sw) (payload b) (length (payload b))])
      as (-> & -> & ->).
    destruct (bill_read (payload b)
                (Some (if broken b then ErrConn else EOF)))
      as (-> & -> & ->).
    change (tokens_taken [AWriteAt _ _ _]) with 0.
    change (bytes_obtained [AWriteAt _ _ _]) with 0.
    change (reads [AWriteAt _ _ _]) with 0.
    split; [lia|]. split; [lia|]. split; [lia|].
    intros _. split; [lia|]. by rewrite He.
Qed.

(** X12: a fetcher takes exactly 16 KiB of tokens per read of the body,
    whatever the read obtains, and none when its request fails; a fetcher
    that reports its chunk as downloaded has obtained the whole body, and
    when the transport reports [io.EOF] on a read of its own, without
    data, it has paid at least 16 KiB more than the body, for that
    read. *)
Theorem fetcher_token_bill x s e :
  let acts := downloadChunk x s e in
  tokens_taken acts = 16 * 1024 * reads acts ∧
  bytes_obtained acts <= tokens_taken acts ∧
  (reqFails x = true ∨ response x = None → tokens_taken acts = 0) ∧
  (ALog (LChunkDone s e) ∈ acts →
   ∃ body, response x = Some body ∧
           bytes_obtained acts = Z.of_nat (length (payload body)) ∧
           (eager body = false →
            bytes_obtained acts + 16 * 1024 <= tokens_taken acts)).
Proof.
  intros acts. subst acts.
  destruct (downloadChunk_cases x s e)
    as [[Hr ->]|[(Hr & Hx & ->)|[(body & n0 & d & Hr & Hx & Hw & ->)|
        (body & d & Hr & Hx & H0 & Hw & Hres)]]].
  - cbn. split; [lia|]. split; [lia|]. split; [done|].
    intros Hin. by no_member Hin.
  - cbn. split; [lia|]. split; [lia|]. split; [done|].
    intros Hin. by no_member Hin.
  - cbn. split; [lia|]. split; [lia|]. split; [done|].
    intros Hin. by no_member Hin.
  - rewrite Hr, Hx.
    pose proof (copy_bill (copyFuel body) {| offset := s |} d body) as Hb.
    pose proof (copy_moves_data (copyFuel body) {| offset := s |} d body)
      as Hm.
    cbn zeta in Hres, Hb. rewrite quantum_val in Hb.
    destruct Hb as (B1 & B2 & B3 & B4).
    pose proof (λ m, bill_wrap s e
                  (copyLoop (copyFuel body) {| offset := s |} d body).1 m)
      as Hshape.
    destruct Hres as [[Hres ->]|[Hres ->]].
    + destruct (Hshape (LChunkDone s e)) as (-> & -> & ->).
      split; [done|]. split; [done|]. split; [by intros [|]|].
      intros _. exists body. split; [done|]. by apply B4.
    + destruct (Hshape LCopyError) as (-> & -> & ->).
      split; [done|]. split; [done|]. split; [by intros [|]|].
      intros Hin. exfalso.
      apply elem_of_cons in Hin as [|Hin]; [done|].
      apply elem_of_cons in Hin as [|Hin]; [done|].
      apply elem_of_app in Hin as [Hin|Hin]; [|by no_member Hin].
      apply (moves_data_not_in _ (ALog (LChunkDone s e)) Hm); [|done].
      cbn. tauto.
Qed.

Lemma delivers_unsegmented b k b' :
  short b = [] → delivers b k b' →
  payload b ≠ [] ∧
  take k (payload b) = take quantum (payload b) ∧
  payload b' = drop quantum (payload b) ∧
  short b' = [] ∧
  (eager b = true → payload b' ≠ []).
Proof.
  intros Hs (Hrd & _). unfold Read in Hrd. rewrite Hs in Hrd.
  destruct (payload b) as [|c P] eqn:HP; [done|].
  injection Hrd as Htake Herr <-. cbn [payload short].
  split; [done|]. split; [done|]. split; [done|]. split; [done|].
  intros He. rewrite He in Herr. by destruct (drop quantum (c :: P)).
Qed.

Lemma ceil_div_step a q :
  0 < a → 0 < q →
  ceil_div a q = 1 + ceil_div (a - Z.min q a) q.
Proof.
  intros Ha Hq. unfold ceil_div.
  destruct (decide (a <= q)).
  - rewrite Z.min_r by lia. replace (a - a + q - 1) with (q - 1) by lia.
    rewrite (Z.div_small (q - 1)) by lia.
    assert (1 <= (a + q - 1) / q) by (apply Z.div_le_lower_bound; lia).
    assert ((a + q - 1) / q < 2) by (apply Z.div_lt_upper_bound; lia).
    lia.
  - rewrite Z.min_l by lia.
    replace (a + q - 1) with (a - q + q - 1 + 1 * q) by lia.
    rewrite Z.div_add by lia. lia.
Qed.

Lemma copy_reads_unsegmented fuel sw d b :
  short b = [] → d = None → broken b = false → (copyFuel b <= fuel)%nat →
  0 <= offset sw →
  offset sw + Z.of_nat (length (payload b)) <= Int64.max_int →
  reads (copyLoop fuel sw d b).1
  = ceil_div (Z.of_nat (length (payload b))) (Z.of_nat quantum)
    + (if eager b && (0 <? Z.of_nat (length (payload b))) then 0 else 1) ∧
  (copyLoop fuel sw d b).2 = CopyOk.
Proof.
  apply (copyLoop_elim
    (λ fuel sw d b res,
       short b = [] → d = None → broken b = false →
       (copyFuel b <= fuel)%nat → 0 <= offset sw →
       offset sw + Z.of_nat (length (payload b)) <= Int64.max_int →
       reads res.1
       = ceil_div (Z.of_nat (length (payload b))) (Z.of_nat quantum)
         + (if eager b && (0 <? Z.of_nat (length (payload b)))
            then 0 else 1) ∧
       res.2 = CopyOk)); clear.
  - intros sw d b _ _ _. unfold copyFuel. lia.
  - intros fuel sw d b Hp _ _ -> _ _ _. rewrite Hp. cbn [fst snd length].
    destruct (bill_read [] (Some EOF)) as (_ & _ & ->).
    pose proof quantum_pos. unfold ceil_div.
    rewrite Z.div_small by lia. rewrite andb_false_r. done.
  - intros fuel sw d b k b' Hdel Hgot _ Hs _ _ _ _ _. exfalso.
    destruct (delivers_unsegmented _ _ _ Hs Hdel) as (Hp & Htake & _).
    rewrite Hgot in Htake. pose proof quantum_pos.
    destruct (payload b); [done|]. destruct quantum; [lia|done].
  - intros fuel sw d b k b' nw ok d' _ Hne Hw Hbad _ -> _ _ H0 _.
    apply WriteAt_spec in Hw as (_ & Hok & Hnone).
    destruct (Hnone eq_refl H0) as [-> _].
    destruct (Hok eq_refl) as [-> _]. by destruct Hbad.
  - intros fuel sw d b k b' d' Hdel Hne Hw sw' IH Hs -> Hb Hf H0 Hmax.
    destruct (delivers_unsegmented _ _ _ Hs Hdel)
      as (Hp & Htake & Hpl & Hs' & Hmore).
    pose proof (delivers_eager _ _ _ Hdel) as He.
    destruct Hdel as (_ & _ & _ & Hbr & Hlt).
    subst sw'. rewrite Htake in *.
    set (sw' := {| offset := Int64.add (offset sw)
                     (Z.of_nat (length (take quantum (payload b)))) |}) in *.
    apply WriteAt_spec in Hw as (_ & _ & Hnone).
    destruct (Hnone eq_refl H0) as [_ ->].
    pose proof (take_drop_lengths quantum (payload b)) as Hlen.
    assert (Hoff : offset sw'
                   = offset sw
                     + Z.of_nat (length (take quantum (payload b)))).
    { subst sw'. cbn. apply wrap_small.
      unfold Int64.in_range, Int64.min_int, Int64.max_int in *. lia. }
    rewrite He, Hpl, Hbr in IH.
    destruct IH as [IH1 IH2]; [done|done|done|lia|lia|lia|].
    cbn [fst snd]. split; [|done].
    destruct (bill_app (readActs (take quantum (payload b)) None)
                ([AWriteAt (offset sw) (take quantum (payload b))
                    (length (take quantum (payload b)))]
                 ++ (copyLoop fuel sw' None b').1))
      as (_ & _ & ->).
    destruct (bill_app [AWriteAt (offset sw) (take quantum (payload b))
                          (length (take quantum (payload b)))]
                (copyLoop fuel sw' None b').1)
      as (_ & _ & ->).
    destruct (bill_read (take quantum (payload b)) None) as (_ & _ & ->).
    change (reads [AWriteAt _ _ _]) with 0. rewrite IH1.
    pose proof quantum_pos.
    assert (0 < length (payload b))%nat
      by (destruct (payload b); [done|cbn; lia]).
    rewrite (ceil_div_step (Z.of_nat (length (payload b)))
               (Z.of_nat quantum)) by lia.
    rewrite length_drop. rewrite length_take in Hlen.
    replace (Z.of_nat (length (payload b) - quantum))
      with (Z.of_nat (length (payload b))
            - Z.min (Z.of_nat quantum) (Z.of_nat (length (payload b))))
      by lia.
    destruct (eager b) eqn:Heb; cbn [andb]; [|lia].
    assert (0 < length (payload b'))%nat
      by (specialize (Hmore eq_refl); destruct (payload b'); [done|cbn; lia]).
    rewrite Hpl, length_drop in *.
    destruct (Z.ltb_spec 0 (Z.of_nat (length (payload b)))); [|lia].
    destruct (Z.ltb_spec 0
                (Z.of_nat (length (payload b))
                 - Z.of_nat quantum `min` Z.of_nat (length (payload b))));
      lia.
  - intros fuel sw d b b' nw ok d' _ Hw Hbad _ -> _ _ H0 _.
    apply WriteAt_spec in Hw as (_ & Hok & Hnone).
    destruct (Hnone eq_refl H0) as [-> _].
    destruct (Hok eq_refl) as [-> _]. by destruct Hbad.
  - intros fuel sw d b b' d' (_ & Hne & Hlen & He) _ _ _ -> _ _ _.
    cbn [fst snd]. split; [|done].
    destruct (bill_app (readActs (payload b) (Some EOF))
                [AWriteAt (offset sw) (payload b) (length (payload b))])
      as (_ & _ & ->).
    destruct (bill_read (payload b) (Some EOF)) as (_ & _ & ->).
    change (reads [AWriteAt _ _ _]) with 0.
    assert (0 < length (payload b))%nat
      by (destruct (payload b); [done|cbn; lia]).
    rewrite He. cbn [andb].
    destruct (Z.ltb_spec 0 (Z.of_nat (length (payload b)))); [|lia].
    rewrite (ceil_div_step (Z.of_nat (length (payload b)))
               (Z.of_nat quantum)) by lia.
    rewrite Z.min_r by lia. rewrite Z.sub_diag.
    unfold ceil_div. rewrite Z.div_small by lia. lia.
Qed.

(** X13: when nothing fails and the transport fills every buffer, a body
    of [len] bytes costs [ceil(len / 16384)] reads that obtain data, and
    one more that obtains nothing unless the transport reports [io.EOF]
    with the last bytes; each read costs 16 KiB of tokens, and the chunk
    is reported as downloaded. *)
Theorem clean_transfer_bill x s e body :
  reqFails x = false → response x = Some body → disk x = None →
  short body = [] → broken body = false →
  0 <= s → s + Z.of_nat (length (payload body)) <= Int64.max_int →
  let acts := downloadChunk x s e in
  let len := Z.of_nat (length (payload body)) in
  let last := if eager body && (0 <? len) then 0 else 1 in
  reads acts = ceil_div len (16 * 1024) + last ∧
  tokens_taken acts = 16 * 1024 * (ceil_div len (16 * 1024) + last) ∧
  bytes_obtained acts = len ∧
  ALog (LChunkDone s e) ∈ acts.
Proof.
  intros Hr Hx Hd Hs Hb H0 Hmax acts len last. subst acts len last.
  destruct (downloadChunk_cases x s e)
    as [[Hr' _]|[(_ & Hx' & _)|[(body' & n0 & d & _ & _ & Hw & _)|
        (body' & d & _ & Hx' & _ & Hw & Hres)]]].
  - by rewrite Hr in Hr'.
  - by rewrite Hx in Hx'.
  - apply WriteAt_spec in Hw as (_ & _ & Hnone).
    by destruct (Hnone Hd H0).
  - rewrite Hx in Hx'. injection Hx' as <-.
    apply WriteAt_spec in Hw as (_ & _ & Hnone).
    destruct (Hnone Hd H0) as [_ ->].
    destruct (copy_reads_unsegmented (copyFuel body) {| offset := s |}
                None body) as [Hreads Hok]; try done.
    pose proof (copy_bill (copyFuel body) {| offset := s |} None body) as Hbill.
    cbn zeta in Hres, Hbill. destruct Hbill as (B1 & _ & _ & B4).
    destruct (B4 Hok) as [Hbytes _].
    destruct Hres as [[_ ->]|[Hbad _]].
    2: { by rewrite Hok in Hbad. }
    destruct (bill_wrap s e
                (copyLoop (copyFuel body) {| offset := s |} None body).1
                (LChunkDone s e)) as (-> & -> & ->).
    rewrite B1, Hreads, Hbytes, quantum_val.
    split; [done|]. split; [done|]. split; [done|].
    rewrite !elem_of_cons, elem_of_app, !elem_of_cons. auto.
Qed.

End FetcherBill.

Section RunFrame.

Import Http Fetcher Run Inv Main.

Lemma step_frame p c name :
  name ≠ out c →
  fs (world (step p c)) !! name = fs (world c) !! name ∧
  out (step p c) = out c ∧
  log (world c) `prefix_of` log (world (step p c)).
Proof.
  intros Hne. destruct p as [|k now nt]; cbn [step].
  - unfold step_main. destruct (mainq c) as [|[prog| |m] q]; try done.
    + by destruct (wg c =? 0).
    + cbn [world out fs log say]. split; [done|]. split; [done|].
      by apply prefix_app_r.
  - unfold step_thread.
    destruct (threads c !! k) as [[|a rest]|]; try done.
    destruct a; cbn [act]; try done.
    + by destruct (Limiter.Wait_poll now nt n (rl c)).
    + cbn [world out fs log]. split; [|done]. by apply lookup_alter_ne.
    + cbn [world out fs log say]. split; [done|]. split; [done|].
      by apply prefix_app_r.
Qed.

Lemma exec_frame sched : ∀ c name,
  name ≠ out c →
  fs (world (exec sched c)) !! name = fs (world c) !! name ∧
  out (exec sched c) = out c ∧
  log (world c) `prefix_of` log (world (exec sched c)).
Proof.
  induction sched as [|p sched IH]; intros c name Hne; [done|].
  rewrite exec_cons.
  destruct (step_frame p c name Hne) as (H1 & H2 & H3).
  destruct (IH (step p c) name) as (G1 & G2 & G3); [by rewrite H2|].
  rewrite G1, G2, H1, H2. split; [done|]. split; [done|]. by etrans.
Qed.

Lemma start_frame env now url threads limitMB w name :
  name ≠ getFileName env url →
  match runDownload_start env now url threads limitMB w with
  | inl (Returned w') | inl (Panicked w') =>
      fs w' !! name = fs w !! name ∧ log w `prefix_of` log w'
  | inr c0 =>
      fs (world c0) !! name = fs w !! name ∧
      log w `prefix_of` log (world c0) ∧ out c0 = getFileName env url
  end.
Proof.
  intros Hne. unfold runDownload_start.
  assert (P3 : ∀ a b c, log w `prefix_of` ((log w ++ [a]) ++ [b]) ++ [c]).
  { intros. rewrite <- !app_assoc. by apply prefix_app_r. }
  destruct (getFileSize env url) as [fileSize|e]; cbn [say fs log].
  2: { split; [done|]. by apply prefix_app_r. }
  destruct (Planner.chunkSize fileSize threads) as [cs|]; cbn [say fs log].
  2: { split; [done|]. by apply prefix_app_r. }
  destruct (Planner.chunks fileSize cs) as [n|]; cbn [say fs log].
  2: { split; [done|]. by apply prefix_app_r. }
  destruct (createFails env (getFileName env url)); cbn [say store fs log].
  { split; [done|]. by do 3 apply prefix_app_r. }
  destruct ((fileSize <? 0) || truncateFails env);
    cbn [say store fs log world out].
  { rewrite lookup_insert_ne by done. split; [done|].
    by do 3 apply prefix_app_r. }
  rewrite !lookup_insert_ne by done. split; [done|]. split; [|done].
  by do 2 apply prefix_app_r.
Qed.

(** X14: however a call of [runDownload] ends, and at every point a
    schedule can reach, every file other than the one named by
    [getFileName] is as it was before the call, and the log has only
    grown. *)
Theorem run_touches_only_output env now url threads limitMB sched w name :
  name ≠ getFileName env url →
  let w' := world_at (runDownload env now url threads limitMB sched w) in
  fs w' !! name = fs w !! name ∧ log w `prefix_of` log w'.
Proof.
  intros Hne w'. subst w'. unfold runDownload.
  pose proof (start_frame env now url threads limitMB w name Hne) as Hs.
  destruct (runDownload_start env now url threads limitMB w)
    as [[w1|w1]|c0]; [done|done|].
  destruct Hs as (H1 & H2 & H3).
  destruct (exec_frame sched c0 name) as (G1 & _ & G3); [by rewrite H3|].
  assert (fs (world (exec sched c0)) !! name = fs w !! name ∧
          log w `prefix_of` log (world (exec sched c0))) as Hgoal.
  { rewrite G1, H1. split; [done|]. by etrans. }
  by destruct (mainq (exec sched c0)).
Qed.

End RunFrame.

Section Starved.

Import Http Fetcher Run Inv Transfer Starvation.

Lemma refill_capped now k rl :
  Int64.in_range (Limiter.tokens rl) →
  Limiter.tokens rl <= Limiter.bytesPerSec rl →
  Int64.in_range (Limiter.tokens (Limiter.refill now k rl)) ∧
  Limiter.tokens (Limiter.refill now k rl) <= Limiter.bytesPerSec rl ∧
  Limiter.bytesPerSec (Limiter.refill now k rl) = Limiter.bytesPerSec rl.
Proof.
  intros Hr Ht. unfold Limiter.refill. destruct (k >? 0); [|done].
  cbn [Limiter.tokens Limiter.bytesPerSec].
  pose proof (wrap_in_range (Limiter.tokens rl + k)) as Hw.
  unfold Int64.add.
  destruct (Int64.wrap (Limiter.tokens rl + k) >? Limiter.bytesPerSec rl)
    eqn:E.
  - split; [|split; [lia|done]]. unfold Int64.in_range in *. lia.
  - split; [done|]. split; [lia|done].
Qed.

Lemma poll_capped now k n rl rl' ok :
  0 <= n → Int64.in_range (Limiter.tokens rl) →
  Limiter.tokens rl <= Limiter.bytesPerSec rl →
  Limiter.Wait_poll now k n rl = (rl', ok) →
  Int64.in_range (Limiter.tokens rl') ∧
  Limiter.tokens rl' <= Limiter.bytesPerSec rl ∧
  Limiter.bytesPerSec rl' = Limiter.bytesPerSec rl ∧
  (Limiter.bytesPerSec rl < n → ok = false).
Proof.
  intros Hn Hr Ht. unfold Limiter.Wait_poll.
  destruct (refill_capped now k rl Hr Ht) as (F1 & F2 & F3).
  destruct (Limiter.tokens (Limiter.refill now k rl) >=? n) eqn:E.
  - apply Z.geb_le in E.
    intros [= <- <-]. cbn [Limiter.tokens Limiter.bytesPerSec].
    rewrite sub_small.
    + unfold Int64.in_range, Int64.min_int, Int64.max_int in *.
      repeat split; lia.
    + unfold Int64.in_range, Int64.min_int, Int64.max_int in *. lia.
  - intros [= <- <-]. done.
Qed.

Lemma Exists_pop (P : Act → Prop) ts unl k a rest :
  ts !! k = Some (a :: rest) → ¬ P a →
  Exists (Exists P) (ts ++ unl) →
  Exists (Exists P) (<[k := rest]> ts ++ unl).
Proof.
  intros Hk Ha H. apply Exists_app in H as [H|H].
  - apply Exists_app. left.
    destruct (Exists_after_step P ts k a rest Hk H); done.
  - apply Exists_app. by right.
Qed.

Lemma step_starved cap p c :
  sound c → starved cap c → starved cap (step p c).
Proof.
  intros Hs (Hb & Ht & Hr & Hex). destruct p as [|k now nt]; cbn [step].
  - unfold step_main. destruct (mainq c) as [|[prog| |m] q] eqn:Hq.
    + done.
    + split; [done|]. split; [done|]. split; [done|].
      unfold pending in *. cbn [threads mainq]. rewrite Hq in Hex.
      cbn [unlaunched omap list_omap] in Hex.
      change (omap _ q) with (unlaunched q) in Hex.
      by rewrite <- app_assoc.
    + destruct (wg c =? 0); [|done].
      split; [done|]. split; [done|]. split; [done|].
      unfold pending in *. cbn [threads mainq]. by rewrite Hq in Hex.
    + split; [done|]. split; [done|]. split; [done|].
      unfold pending in *. cbn [threads mainq]. by rewrite Hq in Hex.
  - unfold step_thread.
    destruct (threads c !! k) as [[|a rest]|] eqn:Hk; try done.
    destruct Hs as (Hthreads & _).
    rewrite Forall_lookup in Hthreads.
    destruct (Hthreads _ _ Hk) as [|Hwhole]; [done|].
    apply whole_inv in Hwhole as [[-> ->]|[Hquiet _]].
    { cbn [act]. split; [done|]. split; [done|]. split; [done|].
      unfold pending in *. cbn [threads mainq]. apply (Exists_pop _ _ _ _ _ _ Hk); [cbn; tauto|done]. }
    destruct a; cbn [act]; try done.
    + cbn [quiet] in Hquiet.
      destruct (Limiter.Wait_poll now nt n (rl c)) as [rl' ok] eqn:Hp.
      apply poll_capped in Hp as (P1 & P2 & P3 & P4); [|lia|done|lia].
      unfold starved, pending in *. cbn [rl threads mainq].
      rewrite P3, Hb in *. split; [done|]. split; [done|]. split; [done|].
      destruct ok; [|done].
      apply (Exists_pop _ _ _ _ _ _ Hk); [|done].
      cbn [oversized]. intros Hov. by specialize (P4 Hov).
    + split; [done|]. split; [done|]. split; [done|].
      unfold pending in *. cbn [threads mainq].
      apply (Exists_pop _ _ _ _ _ _ Hk); [cbn; tauto|done].
    + split; [done|]. split; [done|]. split; [done|].
      unfold pending in *. cbn [threads mainq].
      apply (Exists_pop _ _ _ _ _ _ Hk); [cbn; tauto|done].
    + split; [done|]. split; [done|]. split; [done|].
      unfold pending in *. cbn [threads mainq].
      apply (Exists_pop _ _ _ _ _ _ Hk); [cbn; tauto|done].
Qed.

Lemma exec_starved cap sched : ∀ c,
  sound c → starved cap c → starved cap (exec sched c).
Proof.
  induction sched as [|p sched IH]; intros c Hs Hst; [done|].
  rewrite exec_cons. apply IH.
  - by apply (exec_sound [p]).
  - by apply step_starved.
Qed.

Lemma copy_first_wait fuel sw d b :
  ∃ tl, (copyLoop (S fuel) sw d b).1 = AWait (Z.of_nat quantum) :: tl.
Proof.
  rewrite copyLoop_unfold.
  destruct (Read quantum b) as [[got er] b'].
  destruct got as [|c got].
  - destruct er as [[]|]; [by eexists..|].
    destruct (copyLoop fuel sw d b') as [acts r]. by eexists.
  - destruct (sectionWriter_Write (c :: got) sw d)
      as [[[wa [nw ok]] sw'] d'].
    destruct (negb ok); [by eexists|].
    destruct (negb _); [by eexists|].
    destruct er as [[]|]; [by eexists..|].
    destruct (copyLoop fuel sw' d' b') as [acts r]. by eexists.
Qed.

Lemma downloadChunk_waits x s e body :
  reqFails x = false → response x = Some body → 0 <= s →
  AWait (16 * 1024) ∈ downloadChunk x s e.
Proof.
  intros Hr Hx H0. unfold downloadChunk. rewrite Hr, Hx.
  destruct (WriteAt (disk x) [] s) as [[n0 ok0] d] eqn:Hw.
  assert (ok0 = true) as ->.
  { unfold WriteAt in Hw. destruct (s <? 0) eqn:E; [lia|].
    destruct (disk x); [|by injection Hw].
    cbn [length] in Hw. destruct (0 <=? n)%nat eqn:E'; [by injection Hw|].
    apply Nat.leb_gt in E'. lia. }
  cbn [negb]. unfold io_Copy, copyFuel.
  destruct (copy_first_wait (length (payload body) + length (short body))
              {| offset := s |} d body) as [tl Htl].
  destruct (copyLoop _ _ d body) as [acts r]. cbn [fst] in Htl. subst acts.
  do 2 apply list_elem_of_further. rewrite quantum_val.
  apply list_elem_of_here.
Qed.

(** X15: when the byte rate [limitMB * 1024 * 1024], computed in
    [int64], is below 16 KiB and some planned range obtains a response,
    [runDownload] never returns, under any schedule: the fetcher's first
    [Wait] asks for more than the bucket can hold. *)
Theorem starved_run_hangs env now url threads limitMB w c0 fileSize s e body :
  runDownload_start env now url threads limitMB w = inr c0 →
  getFileSize env url = Ok fileSize → Planner.fits fileSize threads →
  (s, e) ∈ Planner.spec_ranges fileSize threads →
  reqFails (get env url s e) = false →
  response (get env url s e) = Some body →
  Int64.mul (Int64.mul limitMB 1024) 1024 < 16 * 1024 →
  ∀ sched,
    ¬ finished (exec sched c0) ∧
    Main.runDownload env now url threads limitMB sched w
    = Main.Stuck (exec sched c0).
Proof.
  intros Hstart Hsize Hfits Hin Hreq Hresp Hcap sched.
  pose proof (start_sound _ _ _ _ _ _ _ Hstart) as Hsound.
  destruct (start_shape _ _ _ _ _ _ _ Hstart)
    as (N & cs & n & HN & Hcs & Hn & _ & _ & Hth & _ & Hq & Hrl & _).
  rewrite Hsize in HN. injection HN as <-.
  pose proof (plan_fits _ _ Hfits) as Hplan. unfold Planner.plan in Hplan.
  rewrite Hcs in Hplan. cbn [mbind option_bind] in Hplan.
  rewrite Hn in Hplan. cbn [mbind option_bind] in Hplan.
  injection Hplan as Hplan. rewrite Hplan in Hq.
  pose proof Hfits as (HN & Ht & _).
  destruct (spec_ranges_bounds _ _ _ HN Ht Hin) as [[H0 _] _].
  cbn [fst snd] in H0.
  set (cap := Int64.mul (Int64.mul limitMB 1024) 1024) in *.
  assert (Hst : starved cap c0).
  { unfold starved, pending. rewrite Hrl, Hth, Hq, unlaunched_spawns.
    cbn [Limiter.NewRateLimiter Limiter.bytesPerSec Limiter.tokens app].
    split; [done|]. split; [lia|]. split; [apply wrap_in_range|].
    apply Exists_app. left. unfold programs.
    apply Exists_fmap, Exists_exists. exists (s, e). split; [done|].
    apply Exists_exists. exists (AWait (16 * 1024)).
    split; [by apply (downloadChunk_waits _ _ _ body)|].
    cbn [oversized]. lia. }
  assert (Hnot : ¬ finished (exec sched c0)).
  { intros Hfin.
    pose proof (exec_starved cap sched c0 Hsound Hst) as (_ & _ & _ & Hex).
    pose proof (exec_sound sched c0 Hsound) as Hs'.
    destruct (sound_finished _ Hs' Hfin) as (Hnil & _).
    unfold pending in Hex. rewrite Hfin in Hex.
    cbn [unlaunched omap list_omap] in Hex. rewrite app_nil_r in Hex.
    apply Exists_exists in Hex as (p & Hp & Hex).
    rewrite Forall_forall in Hnil. rewrite (Hnil _ Hp) in Hex.
    by apply Exists_nil in Hex. }
  split; [done|]. unfold Main.runDownload. rewrite Hstart.
  unfold finished in Hnot. by destruct (mainq (exec sched c0)).
Qed.

End Starved.

Section AnyOrder.

Import Http Fetcher Run Inv Order.

Lemma file_after_length N z a f :
  in_zone N z a → length f = N → length (file_after a f) = N.
Proof.
  intros Hz Hf. destruct a; try done. cbn [file_after in_zone] in *.
  destruct Hz as [->|(H1 & H2 & H3)]; [done|].
  rewrite written_length; [done|lia].
Qed.

(** At each offset a write in a range either puts a byte of its own,
    inside the range, or leaves the file as it is. *)
Lemma file_after_at N z a i :
  in_zone N z a →
  (z.1 <= Z.of_nat i <= z.2 ∧
   ∃ v, ∀ f, length f = N → file_after a f !! i = v) ∨
  (∀ f, length f = N → file_after a f !! i = f !! i).
Proof.
  intros Hz. destruct a; try by right. cbn [file_after in_zone] in *.
  destruct Hz as [->|(H1 & H2 & H3)]; [by right|].
  destruct (decide (Z.to_nat off <= i
                    < Z.to_nat off + length (take n p))%nat) as [Hin|Hout].
  - left. split; [lia|].
    exists (take n p !! (i - Z.to_nat off)%nat). intros f Hf.
    apply written_lookup_in; [lia|done].
  - right. intros f Hf. apply written_lookup_out; [lia|done].
Qed.

Lemma file_after_commute N z1 z2 a b f :
  in_zone N z1 a → in_zone N z2 b → Planner.disjoint z1 z2 →
  length f = N →
  file_after a (file_after b f) = file_after b (file_after a f).
Proof.
  intros Ha Hb Hd Hf. apply list_eq. intros i.
  pose proof (file_after_length N z1 a f Ha Hf) as Hla.
  pose proof (file_after_length N z2 b f Hb Hf) as Hlb.
  destruct (file_after_at N z1 a i Ha) as [(Hia & va & Ea)|Ea];
    destruct (file_after_at N z2 b i Hb) as [(Hib & vb & Eb)|Eb].
  - exfalso. unfold Planner.disjoint in Hd. lia.
  - by rewrite (Ea _ Hlb), (Eb _ Hla), (Ea _ Hf).
  - by rewrite (Ea _ Hlb), (Eb _ Hla), (Eb _ Hf).
  - by rewrite (Ea _ Hlb), (Eb _ Hla), (Ea _ Hf), (Eb _ Hf).
Qed.

(** A write commutes with the actions of the other fetchers. *)
Lemma foldl_file_after N z a l : ∀ f,
  in_zone N z a → length f = N →
  Forall (λ b, ∃ z', in_zone N z' b ∧ Planner.disjoint z z') l →
  foldl (λ f b, file_after b f) (file_after a f) l
  = file_after a (foldl (λ f b, file_after b f) f l) ∧
  length (foldl (λ f b, file_after b f) f l) = N.
Proof.
  induction l as [|b l IH]; intros f Ha Hf Hl; [done|].
  apply Forall_cons in Hl as [(z' & Hb & Hd) Hl]. cbn [foldl].
  rewrite <- (file_after_commute N z z' a b f Ha Hb Hd Hf).
  apply IH; [done| |done]. by apply (file_after_length N z').
Qed.

Lemma mjoin_cons {A} (p : list A) ps : mjoin (p :: ps) = p ++ mjoin ps.
Proof. done. Qed.

Lemma settle_pop N zones ps k a rest f :
  Planner.non_overlapping zones → zoned N zones ps →
  ps !! k = Some (a :: rest) → length f = N →
  settle (<[k := rest]> ps) (file_after a f) = settle ps f ∧
  zoned N zones (<[k := rest]> ps) ∧
  length (file_after a f) = N.
Proof.
  intros Hno Hz Hk Hf. unfold zoned in *.
  destruct (Forall2_lookup_r _ _ _ _ _ Hz Hk) as (z & Hzk & Hzone).
  apply Forall_cons in Hzone as [Ha Hrest].
  split; [|split].
  - unfold settle.
    rewrite <- (take_drop_middle ps k (a :: rest) Hk) at 2.
    rewrite insert_take_drop by (by eapply lookup_lt_Some).
    rewrite !join_app, !mjoin_cons, !foldl_app. cbn [foldl].
    destruct (foldl_file_after N z a (mjoin (take k ps)) f Ha Hf)
      as [-> _]; [|done].
    apply Forall_forall. intros b Hb.
    apply list_elem_of_join in Hb as (p & Hbp & Hp).
    apply elem_of_take in Hp as (j & Hj & Hjk).
    destruct (Forall2_lookup_r _ _ _ _ _ Hz Hj) as (z' & Hz' & Hzone').
    exists z'. split; [by apply (proj1 (Forall_forall _ _) Hzone')|].
    apply (Hno k j); [done|done|lia].
  - rewrite <- (list_insert_id zones k z Hzk).
    by apply Forall2_insert.
  - by apply (file_after_length N z).
Qed.

Lemma step_main_settling N zones E c :
  settling N zones E c → settling N zones E (step_main c).
Proof.
  intros Hc. unfold step_main.
  destruct (mainq c) as [|[prog| |m] q] eqn:Hq; [done|..];
    destruct Hc as (f & Hf & Hlen & Hz & Hs);
    unfold pending in Hz, Hs; rewrite Hq in Hz, Hs.
  - exists f. unfold pending. cbn [world out Run.threads mainq].
    change (unlaunched (MSpawn prog :: q)) with (prog :: unlaunched q)
      in Hz, Hs.
    rewrite <- app_assoc. done.
  - destruct (wg c =? 0).
    + exists f. unfold pending. cbn [world out Run.threads mainq]. done.
    + exists f. unfold pending. rewrite Hq. done.
  - exists f. unfold pending. cbn [world out Run.threads mainq]. done.
Qed.

Lemma step_thread_settling N zones E k now nt c :
  Planner.non_overlapping zones →
  settling N zones E c → settling N zones E (step_thread k now nt c).
Proof.
  intros Hno Hc. unfold step_thread.
  destruct (Run.threads c !! k) as [[|a rest]|] eqn:Hk; [done| |done].
  destruct Hc as (f & Hf & Hlen & Hz & Hs). unfold pending in *.
  assert (Hk' : (Run.threads c ++ unlaunched (mainq c)) !! k
                = Some (a :: rest)) by by apply lookup_app_l_Some.
  destruct (settle_pop N zones _ k a rest f Hno Hz Hk' Hlen)
    as (Hs' & Hz' & Hlen').
  rewrite insert_app_l in Hs', Hz' by (by eapply lookup_lt_Some).
  destruct (act a now nt c) as [[[w r] g] moved] eqn:Ha.
  assert (Hw : fs w !! out c
               = Some (if moved then file_after a f else f)).
  { destruct a; cbn [act] in Ha.
    - destruct (Limiter.Wait_poll now nt n (rl c)).
      injection Ha as <- _ _ <-. by destruct b.
    - by injection Ha as <- _ _ <-.
    - injection Ha as <- _ _ <-. cbn [fs file_after].
      by rewrite lookup_alter_eq, Hf.
    - by injection Ha as <- _ _ <-.
    - by injection Ha as <- _ _ <-.
    - by injection Ha as <- _ _ <-. }
  unfold settling, pending. cbn [world out Run.threads mainq].
  destruct moved.
  - exists (file_after a f). split; [done|]. split; [done|].
    split; [done|]. by rewrite Hs'.
  - exists f. done.
Qed.

Lemma exec_settling N zones E sched c :
  Planner.non_overlapping zones →
  settling N zones E c → settling N zones E (exec sched c).
Proof.
  intros Hno. revert c.
  induction sched as [|p sched IH]; intros c Hc; [done|].
  rewrite exec_cons. apply IH. destruct p.
  - by apply step_main_settling.
  - by apply step_thread_settling.
Qed.

Lemma settle_done ps f : Forall (λ p, p = []) ps → settle ps f = f.
Proof.
  intros Hps. unfold settle.
  assert (mjoin ps = []) as ->; [|done].
  induction Hps as [|p ps -> _ IH]; [done|]. by rewrite mjoin_cons, IH.
Qed.

Lemma fetcher_in_zone N x s e :
  0 <= s <= e → e < Z.of_nat N → Z.of_nat N <= Int64.max_int →
  (∀ body, response x = Some body →
           Z.of_nat (length (payload body)) <= e - s + 1) →
  Forall (in_zone N (s, e)) (downloadChunk x s e).
Proof.
  intros Hse HN Hmax Hbody.
  destruct (downloadChunk_cases x s e)
    as [[Hr ->]|[(Hr & Hx & ->)|[(body & n0 & d & Hr & Hx & Hw & ->)|
        (body & d & Hr & Hx & H0 & Hw & Hres)]]].
  - by repeat (apply Forall_cons; split; [done|]).
  - by repeat (apply Forall_cons; split; [done|]).
  - apply Forall_cons. split; [done|]. apply Forall_cons.
    split; [left; apply take_nil|].
    by repeat (apply Forall_cons; split; [done|]).
  - specialize (Hbody body Hx).
    destruct (copy_chained (copyFuel body) {| offset := s |} d body)
      as [Hch Hwi]; cbn [offset]; [lia|lia|].
    apply chained_sorted in Hch as [Hlo _].
    assert (Hacts : Forall (in_zone N (s, e))
                      (copyLoop (copyFuel body) {| offset := s |} d body).1).
    { apply Forall_forall. intros a Ha. destruct a; try done.
      apply elem_of_writes in Ha. cbn [in_zone fst snd]. right.
      unfold within in Hwi. rewrite Forall_forall in Hwi.
      specialize (Hwi _ Ha). cbn [fst snd offset] in Hwi.
      unfold offsets in Hlo. rewrite Forall_fmap, Forall_forall in Hlo.
      specialize (Hlo _ Ha). simpl in Hlo.
      rewrite length_take. lia. }
    cbn zeta in Hres.
    destruct Hres as [[_ ->]|[_ ->]];
      (apply Forall_cons; split; [done|]; apply Forall_cons;
       split; [by left|]; apply Forall_app; split; [done|];
       by repeat (apply Forall_cons; split; [done|])).
Qed.

Lemma step_out p c : out (step p c) = out c.
Proof.
  destruct p as [|k now nt]; cbn [step].
  - unfold step_main. destruct (mainq c) as [|[prog| |m] q]; try done.
    by destruct (wg c =? 0).
  - unfold step_thread.
    destruct (Run.threads c !! k) as [[|a rest]|]; try done.
    by destruct (act a now nt c) as [[[w r] g] moved].
Qed.

Lemma exec_out sched : ∀ c, out (exec sched c) = out c.
Proof.
  induction sched as [|p sched IH]; intros c; [done|].
  by rewrite exec_cons, IH, step_out.
Qed.

Lemma settle_length N zones ps f :
  zoned N zones ps → length f = N → length (settle ps f) = N.
Proof.
  intros Hz Hf. unfold settle.
  assert (Hall : Forall (λ b, ∃ z, in_zone N z b) (mjoin ps)).
  { apply Forall_forall. intros b Hb.
    apply list_elem_of_join in Hb as (p & Hbp & Hp).
    apply list_elem_of_lookup in Hp as [j Hj].
    destruct (Forall2_lookup_r _ _ _ _ _ Hz Hj) as (z & _ & Hzone).
    exists z. by apply (proj1 (Forall_forall _ _) Hzone). }
  revert f Hf. induction Hall as [|b l [z Hb] _ IH]; intros f Hf; [done|].
  cbn [foldl]. apply IH. by apply (file_after_length N z).
Qed.

(** X16: when no response body is longer than the range it was asked
    for, the content of the output file once [runDownload] has returned is
    the same under every schedule, whatever fails: it is what the writes
    of the fetchers leave when run one fetcher after the other, and it has
    the probed length. *)
Theorem completion_order_irrelevant env now url threads limitMB w c0
    fileSize :
  runDownload_start env now url threads limitMB w = inr c0 →
  getFileSize env url = Ok fileSize →
  Planner.fits fileSize threads →
  (∀ s e body, (s, e) ∈ Planner.spec_ranges fileSize threads →
     response (get env url s e) = Some body →
     Z.of_nat (length (payload body)) <= e - s + 1) →
  let E := settle (unlaunched (mainq c0))
             (replicate (Z.to_nat fileSize) x00) in
  length E = Z.to_nat fileSize ∧
  ∀ sched, finished (exec sched c0) →
           fs (world (exec sched c0)) !! getFileName env url = Some E.
Proof.
  intros Hstart Hsize Hfits Hbody E.
  destruct (start_shape _ _ _ _ _ _ _ Hstart)
    as (N & cs & n & HN & Hcs & Hn & _ & Hout & Hth & _ & Hq & _ & Hfs).
  rewrite Hsize in HN. injection HN as <-.
  pose proof (plan_fits _ _ Hfits) as Hplan. unfold Planner.plan in Hplan.
  rewrite Hcs in Hplan. cbn [mbind option_bind] in Hplan.
  rewrite Hn in Hplan. cbn [mbind option_bind] in Hplan.
  injection Hplan as Hplan. rewrite Hplan in Hq.
  pose proof Hfits as (HN & Ht & Hmax & _).
  destruct (spec_ranges_partition _ _ HN Ht) as (_ & Hno & _).
  cbn zeta in Hno.
  set (zones := Planner.spec_ranges fileSize threads) in *.
  assert (Hun : unlaunched (mainq c0) = programs env url zones).
  { rewrite Hq, unlaunched_spawns.
    change (unlaunched (epilogue _)) with (@nil (list Act)).
    by rewrite app_nil_r. }
  assert (Hzoned : zoned (Z.to_nat fileSize) zones (unlaunched (mainq c0))).
  { rewrite Hun. unfold zoned, programs. apply Forall2_fmap_r.
    apply Forall_Forall2_diag, Forall_forall. intros [s e] Hc.
    destruct (spec_ranges_bounds _ _ _ HN Ht Hc) as [H1 H2].
    cbn [fst snd] in *.
    apply fetcher_in_zone; cbn [fst snd]; [done|lia|lia|].
    intros body. by apply Hbody. }
  assert (Hset : settling (Z.to_nat fileSize) zones E c0).
  { exists (replicate (Z.to_nat fileSize) x00). split; [done|].
    split; [by rewrite length_replicate|].
    unfold pending. rewrite Hth. cbn [app]. done. }
  split.
  { subst E. apply (settle_length _ zones); [done|].
    by rewrite length_replicate. }
  intros sched Hfin.
  destruct (exec_settling _ _ _ sched _ Hno Hset) as (f & Hf & _ & _ & Hs).
  pose proof (exec_sound sched _ (start_sound _ _ _ _ _ _ _ Hstart)) as Hso.
  destruct (sound_finished _ Hso Hfin) as (Hnil & _).
  rewrite exec_out, Hout in Hf. rewrite Hf. f_equal.
  rewrite <- Hs. symmetry. apply settle_done.
  unfold pending. rewrite Hfin. cbn [unlaunched omap list_omap].
  by rewrite app_nil_r.
Qed.

End AnyOrder.

Section MainFacts.

Import Http Fetcher Run Inv Main.





Lemma start_panic env now url threads limitMB w w' :
  runDownload_start env now url threads limitMB w = inl (Panicked w') →
  ∃ fileSize,
    getFileSize env url = Ok fileSize ∧ fs w' = fs w ∧
    (Planner.chunkSize fileSize threads = None ∨
     ∃ cs, Planner.chunkSize fileSize threads = Some cs ∧
           Planner.chunks fileSize cs = None).
Proof.
  unfold runDownload_start. cbv zeta.
  destruct (getFileSize env url) as [fileSize|e]; [|done].
  destruct (Planner.chunkSize fileSize threads) as [cs|] eqn:Hcs.
  2: { intros [= Hw]. subst w'. exists fileSize. split; [done|].
       split; [done|]. by left. }
  destruct (Planner.chunks fileSize cs) as [n|] eqn:Hn.
  2: { intros [= Hw]. subst w'. exists fileSize. split; [done|].
       split; [done|]. right. by exists cs. }
  destruct (createFails env (getFileName env url)); [done|].
  by destruct ((fileSize <? 0) || truncateFails env).
Qed.

Lemma loop_panic url threads limitMB rounds todo : ∀ total s s',
  loop todo rounds url threads limitMB total s = Panic s' →
  ∃ i w w', i ∈ todo ∧
    runDownload_start (server (rounds i)) (clock (rounds i)) url threads
      limitMB w = inl (Panicked w').
Proof.
  induction todo as [|i todo IH]; intros total s s'; [done|].
  cbn [loop].
  destruct (runDownload _ _ url threads limitMB _ _) as [w'|w'|c] eqn:Hrun.
  - intros Hl. destruct (IH _ _ _ Hl) as (j & w1 & w2 & Hj & Hp).
    exists j, w1, w2. split; [by apply list_elem_of_further|done].
  - intros _. unfold runDownload in Hrun.
    destruct (runDownload_start _ _ url threads limitMB _)
      as [[w1|w1]|c0] eqn:Hs; [done| |].
    + eexists i, _, w1. split; [apply list_elem_of_here|exact Hs].
    + by destruct (mainq (exec _ c0)).
  - done.
Qed.

(** X18: [main] of APS2 can panic only in the planning stage of a run
    whose chunk size came out as 0: the thread count was parsed as a
    positive [int64], so the first division is safe; inside [int64] that is
    the case of an empty resource. *)
Theorem main_panics_only_on_empty args rounds s s' :
  main args rounds s = Panic s' →
  ∃ url arg2 threads i fileSize,
    args !! 1%nat = Some url ∧ args !! 2%nat = Some arg2 ∧
    Strconv.ParseInt arg2 = Ok threads ∧ 0 < threads ∧
    (i < runs)%nat ∧
    getFileSize (server (rounds i)) url = Ok fileSize ∧
    Planner.chunkSize fileSize threads = Some 0 ∧
    (0 <= fileSize → fileSize + threads - 1 <= Int64.max_int →
     fileSize = 0).
Proof.
  unfold main.
  destruct args as [|prog [|url [|arg2 [|arg3 rest]]]]; try done.
  destruct (Strconv.ParseInt arg2) as [threads|] eqn:Ht; [|done].
  destruct (threads <=? 0) eqn:Hpos; [done|].
  destruct (Strconv.ParseInt arg3) as [limitMB|]; [|done].
  destruct (limitMB <=? 0); [done|].
  destruct (loop (seq 0 runs) rounds url threads limitMB 0 s)
    as [|s1|s1 total|s1|s1] eqn:Hloop; try done.
  intros _.
  destruct (loop_panic _ _ _ _ _ _ _ _ Hloop) as (i & w & w' & Hi & Hp).
  apply start_panic in Hp as (fileSize & Hsize & _ & Hdiv).
  apply elem_of_seq in Hi.
  assert (Hcs : Planner.chunkSize fileSize threads = Some 0).
  { destruct Hdiv as [Hnone|(cs & Hcs & Hnone)].
    - unfold Planner.chunkSize, Int64.div in Hnone.
      destruct (threads =? 0) eqn:E; [lia|done].
    - unfold Planner.chunks, Int64.div in Hnone.
      destruct (cs =? 0) eqn:E; [|done].
      apply Z.eqb_eq in E. by rewrite <- E. }
  exists url, arg2, threads, i, fileSize.
  split; [done|]. split; [done|]. split; [done|]. split; [lia|].
  split; [lia|]. split; [done|]. split; [done|].
  intros H0 Hmax. unfold Planner.chunkSize in Hcs.
  assert (Hr : Int64.in_range (fileSize + threads - 1))
    by (unfold Int64.in_range, Int64.min_int, Int64.max_int in *; lia).
  rewrite (sub_add _ _ _ Hr) in Hcs.
  rewrite div_nonneg in Hcs by (done || lia).
  injection Hcs as Hcs.
  destruct (decide (fileSize = 0)) as [|Hne]; [done|]. exfalso.
  assert (1 <= (fileSize + threads - 1) / threads)
    by (apply Z.div_le_lower_bound; lia).
  lia.
Qed.

End MainFacts.

Section APS1Facts.

Import Http Fetcher Run Limiter Traffic APS1.

Lemma cap_negative limitMB :
  - 2 ^ 43 <= limitMB < 0 → Int64.mul (Int64.mul limitMB 1024) 1024 < 0.
Proof.
  intros H.
  rewrite (mul_small limitMB 1024)
    by (unfold Int64.in_range, Int64.min_int, Int64.max_int; lia).
  rewrite mul_small
    by (unfold Int64.in_range, Int64.min_int, Int64.max_int; lia).
  lia.
Qed.

(** X19: [main] of APS1 uses what it scanned unchecked. With a thread
    count of 0 it panics right after the probe, before any file is
    created. With a negative byte rate it panics in [NewRateLimiter], after
    the output file was created and sized. With a rate of 0 it launches
    its fetchers with a limiter that never releases a token. *)
Theorem aps1_unvalidated_inputs env url threads limitMB w fileSize :
  getFileSize env url = Ok fileSize → Planner.fits fileSize threads →
  createFails env (fileNameAPS1 url) = false → truncateFails env = false →
  (∃ w', main_start env url 0 limitMB w = inl (Panicked w') ∧
         fs w' = fs w ∧ last (log w') = Some (LSize fileSize)) ∧
  (Int64.mul (Int64.mul limitMB 1024) 1024 < 0 →
   ∃ w', main_start env url threads limitMB w = inl (Panicked w') ∧
         fs w' = <[fileNameAPS1 url := replicate (Z.to_nat fileSize) x00]>
                   (fs w)) ∧
  (- 2 ^ 43 <= limitMB < 0 → Int64.mul (Int64.mul limitMB 1024) 1024 < 0) ∧
  (limitMB = 0 →
   ∃ l, main_start env url threads limitMB w = inr l ∧
        length (fetchers l) = Z.to_nat
          (Planner.ceil_div fileSize (Planner.ceil_div fileSize threads)) ∧
        ∀ k n, (0 < n)%nat →
               WaitChan n (Nat.iter k ticker_round (limiter l)) = None).
Proof.
  intros Hsize Hfits Hcreate Htrunc.
  assert (Hstart :
    main_start env url threads limitMB w
    = match NewChanLimiter (Int64.mul (Int64.mul limitMB 1024) 1024) with
      | None =>
          inl (Panicked
                 (store (fileNameAPS1 url) (replicate (Z.to_nat fileSize) x00)
                    (store (fileNameAPS1 url) []
                       (say (LSplit
                               (Planner.ceil_div fileSize
                                  (Planner.ceil_div fileSize threads))
                               (Planner.ceil_div fileSize threads))
                          (say (LSize fileSize)
                             (say LProbing
                                (say (LUrl url) (say LBanner w))))))))
      | Some rl =>
          inr {| world1 :=
                   store (fileNameAPS1 url)
                     (replicate (Z.to_nat fileSize) x00)
                     (store (fileNameAPS1 url) []
                        (say (LSplit
                                (Planner.ceil_div fileSize
                                   (Planner.ceil_div fileSize threads))
                                (Planner.ceil_div fileSize threads))
                           (say (LSize fileSize)
                              (say LProbing
                                 (say (LUrl url) (say LBanner w))))));
                 out1 := fileNameAPS1 url; limiter := rl;
                 fetchers :=
                   programs env url
                     (Planner.ranges fileSize
                        (Planner.ceil_div fileSize threads)
                        (Planner.ceil_div fileSize
                           (Planner.ceil_div fileSize threads))) |}
      end).
  { unfold main_start. cbv zeta. rewrite Hsize.
    rewrite (chunkSize_fits _ _ Hfits), (chunks_fits _ _ Hfits).
    rewrite Hcreate, Htrunc.
    destruct Hfits as (HN & _).
    destruct (fileSize <? 0) eqn:E; [lia|]. done. }
  split; [|split; [|split; [apply cap_negative|]]].
  - unfold main_start. cbv zeta. rewrite Hsize.
    unfold Planner.chunkSize. rewrite div_zero.
    eexists. split; [done|]. split; [done|].
    cbn [say log]. by rewrite last_snoc.
  - intros Hneg. rewrite Hstart. unfold NewChanLimiter.
    destruct (_ <? 0) eqn:E; [|lia].
    eexists. split; [done|]. cbn [store fs say].
    apply insert_insert_eq.
  - intros ->. rewrite Hstart.
    change (Int64.mul (Int64.mul 0 1024) 1024) with 0.
    change (NewChanLimiter 0) with (Some {| capacity := 0; queued := 0 |}).
    eexists. split; [done|]. cbn [fetchers limiter]. split.
    + unfold programs, Planner.ranges. by rewrite !length_fmap, length_seqZ.
    + intros k n Hn.
      assert (Nat.iter k ticker_round {| capacity := 0; queued := 0 |}
              = {| capacity := 0; queued := 0 |}) as ->.
      { induction k as [|k IH]; [done|]. by rewrite Nat.iter_succ, IH. }
      apply WaitChan_none. cbn [queued]. lia.
Qed.

End APS1Facts.

Section APS1Run.

Import Http Fetcher Run Inv Limiter Traffic Run1 Order.

Lemma exec1_cons p s c : exec1 (p :: s) c = exec1 s (step1 p c).
Proof. done. Qed.

Lemma exec1_app s1 s2 c : exec1 (s1 ++ s2) c = exec1 s2 (exec1 s1 c).
Proof. apply foldl_app. Qed.

(** A step of APS1 is, on the goroutines, a step of APS2 or no step at
    all; so a property of configurations that does not look at the
    limiter and that the steps of APS2 preserve is preserved by the steps
    of APS1. *)
Lemma skeleton_step (I : Conf → Prop) :
  (∀ c r, I c → I (with_rl r c)) →
  (∀ p c, I c → I (step p c)) →
  ∀ p c r, I (skeleton r c) → I (skeleton r (step1 p c)).
Proof.
  intros Hblind Hstep p c r HI. destruct p as [|k|]; cbn [step1].
  - assert (skeleton r (step_main1 c) = step PMain (skeleton r c)) as ->;
      [|by apply Hstep].
    unfold step_main1, skeleton. cbn [step]. unfold step_main.
    cbn [mainq wg world out rl Run.threads].
    destruct (cmainq c) as [|[prog| |m] q] eqn:Hq;
      cbn [cworld cout cwg cmainq cthreads]; rewrite ?Hq; try done.
    + by rewrite fmap_app.
    + destruct (cwg c =? 0); cbn [cworld cout cwg cmainq cthreads];
        by rewrite ?Hq.
  - unfold step_thread1.
    destruct (cthreads c !! k) as [[[|a rest] got]|] eqn:Hk; try done.
    assert (Hk' : ∀ r', Run.threads (skeleton r' c) !! k = Some (a :: rest)).
    { intros r'. cbn [skeleton Run.threads]. by rewrite list_lookup_fmap, Hk. }
    assert (Hpop : ∀ a' w g r',
      (∀ r0, act a' 0 0 (skeleton r0 c) = (w, r0, g, true)) →
      a = a' →
      I (skeleton r'
           {| cworld := w; cout := cout c; chan := chan c; cwg := g;
              cmainq := cmainq c;
              cthreads := <[k := (rest, 0)]> (cthreads c) |})).
    { intros a' w g r' Hact ->.
      specialize (Hstep (PThread k 0 0) _ HI). cbn [step] in Hstep.
      unfold step_thread in Hstep. rewrite Hk', Hact in Hstep.
      apply (Hblind _ r') in Hstep.
      unfold skeleton, with_rl in *.
      cbn [world out rl wg mainq Run.threads cworld cout cwg cmainq cthreads]
        in *.
      by rewrite list_fmap_insert. }
    destruct a.
    + destruct (n <=? got) eqn:E.
      * set (r0 := {| bytesPerSec := n; tokens := n; lastRefill := 0 |}).
        assert (HI0 : I (skeleton r0 c)) by exact (Hblind _ r0 HI).
        specialize (Hstep (PThread k 0 0) _ HI0). cbn [step] in Hstep.
        unfold step_thread in Hstep. rewrite Hk' in Hstep.
        cbn [act skeleton rl] in Hstep.
        assert (Wait_poll 0 0 n r0
                = ({| bytesPerSec := n; tokens := Int64.sub n n;
                      lastRefill := 0 |}, true)) as Hpoll.
        { unfold Wait_poll, refill. subst r0.
          cbn [tokens bytesPerSec lastRefill].
          change (0 >? 0) with false. cbn iota.
          cbn [tokens bytesPerSec lastRefill].
          by rewrite (proj2 (Z.geb_le n n)) by lia. }
        rewrite Hpoll in Hstep.
        apply (Hblind _ r) in Hstep.
        unfold skeleton, with_rl in *.
        cbn [world out rl wg mainq Run.threads cworld cout cwg cmainq
             cthreads] in *.
        by rewrite list_fmap_insert.
      * destruct (recv (chan c)) as [ch|]; [|done].
        unfold skeleton in *.
        cbn [cworld cout cwg cmainq cthreads]. rewrite list_fmap_insert.
        cbn [fst]. rewrite list_insert_id; [done|].
        by rewrite list_lookup_fmap, Hk.
    + by apply (Hpop (ARead n got0 err)).
    + by apply (Hpop (AWriteAt off p n)).
    + by apply (Hpop (ALog m)).
    + by apply (Hpop ADone).
    + done.
  - done.
Qed.

Lemma skeleton_exec (I : Conf → Prop) :
  (∀ c r, I c → I (with_rl r c)) →
  (∀ p c, I c → I (step p c)) →
  ∀ sched c r, I (skeleton r c) → I (skeleton r (exec1 sched c)).
Proof.
  intros Hblind Hstep sched.
  induction sched as [|p sched IH]; intros c r HI; [done|].
  rewrite exec1_cons. apply IH. by apply skeleton_step.
Qed.

Lemma step_sound p c : sound c → sound (step p c).
Proof.
  destruct p; [apply step_main_sound|apply step_thread_sound].
Qed.

Lemma step_converging data p c :
  converging data c → converging data (step p c).
Proof.
  destruct p; [apply step_main_converging|apply step_thread_converging].
Qed.

Lemma start1_shape env url threads limitMB w l :
  APS1.main_start env url threads limitMB w = inr l →
  ∃ fileSize cs n,
    getFileSize env url = Ok fileSize ∧
    Planner.chunkSize fileSize threads = Some cs ∧
    Planner.chunks fileSize cs = Some n ∧
    0 <= fileSize ∧
    APS1.out1 l = fileNameAPS1 url ∧
    APS1.fetchers l = programs env url (Planner.ranges fileSize cs n) ∧
    NewChanLimiter (Int64.mul (Int64.mul limitMB 1024) 1024)
    = Some (APS1.limiter l) ∧
    fs (APS1.world1 l) !! APS1.out1 l
    = Some (replicate (Z.to_nat fileSize) x00).
Proof.
  unfold APS1.main_start. cbv zeta.
  destruct (getFileSize env url) as [fileSize|] eqn:Hsz; [|done].
  destruct (Planner.chunkSize fileSize threads) as [cs|] eqn:Hcs; [|done].
  destruct (Planner.chunks fileSize cs) as [n|] eqn:Hn; [|done].
  destruct (createFails env _); [done|].
  destruct (Z.ltb_spec fileSize 0); [done|].
  destruct (truncateFails env); [done|]. cbn [orb].
  destruct (NewChanLimiter _) as [ch|] eqn:Hch; [|done].
  intros [= <-]. exists fileSize, cs, n.
  cbn [APS1.out1 APS1.fetchers APS1.limiter APS1.world1].
  repeat split; try done. unfold store. cbn [fs]. apply lookup_insert_eq.
Qed.

Lemma launch_sound env url threads limitMB w l r :
  APS1.main_start env url threads limitMB w = inr l →
  sound (skeleton r (launch l)).
Proof.
  intros (fileSize & cs & n & _ & _ & _ & _ & _ & Hf & _)%start1_shape.
  unfold sound, phase, skeleton, launch.
  cbn [Run.threads wg mainq out world cthreads cwg cmainq cout cworld fmap
       list_fmap].
  rewrite unlaunched_spawns.
  split; [constructor|]. split; [|split; [done|left; eauto]].
  apply Forall_app. split; [|constructor].
  rewrite Hf. unfold programs. apply Forall_fmap, Forall_forall. intros c _.
  apply downloadChunk_whole.
Qed.

(** The liveness of the channel under a send followed by a receive. *)
Lemma send_recv ch :
  live ch →
  ∃ ch', recv (trySend ch) = Some ch' ∧ live ch'.
Proof.
  intros (Hc & Hq). unfold trySend, recv.
  destruct (queued ch <? capacity ch) eqn:E; cbn [queued capacity].
  - destruct (queued ch + 1 >? 0) eqn:E'; [|lia].
    eexists. split; [done|]. unfold live. cbn [queued capacity]. lia.
  - destruct (queued ch >? 0) eqn:E'; [|lia].
    eexists. split; [done|]. unfold live. cbn [queued capacity]. lia.
Qed.

Lemma wait_loop (m : nat) : ∀ c k n rest got,
  cthreads c !! k = Some (AWait n :: rest, got) → live (chan c) →
  Z.of_nat m = n - got →
  let c' := exec1 (mjoin (replicate m [QSend; QThread k]) ++ [QThread k]) c in
  cthreads c' = <[k := (rest, 0)]> (cthreads c) ∧ cwg c' = cwg c ∧
  cmainq c' = cmainq c ∧ cout c' = cout c ∧ live (chan c').
Proof.
  induction m as [|m IH]; intros c k n rest got Hk Hl Hm c'; subst c'.
  - cbn [replicate mjoin list_join app]. rewrite exec1_cons.
    cbn [exec1 foldl step1]. unfold step_thread1. rewrite Hk.
    destruct (n <=? got) eqn:E; [|lia].
    cbn [cthreads cwg cmainq cout chan]. done.
  - cbn [replicate]. rewrite mjoin_cons, <- app_assoc.
    cbn [app]. rewrite !exec1_cons. cbn [step1].
    destruct (send_recv _ Hl) as (ch' & Hrecv & Hl').
    set (c1 := {| cworld := cworld c; cout := cout c;
                  chan := trySend (chan c); cwg := cwg c;
                  cmainq := cmainq c; cthreads := cthreads c |}).
    set (c2 := {| cworld := cworld c; cout := cout c; chan := ch';
                  cwg := cwg c; cmainq := cmainq c;
                  cthreads := <[k := (AWait n :: rest, got + 1)]>
                                (cthreads c) |}).
    assert (step_thread1 k c1 = c2) as ->.
    { unfold step_thread1. subst c1. cbn [cthreads chan]. rewrite Hk.
      destruct (n <=? got) eqn:E; [lia|].
      cbn [cworld cout cwg cmainq cthreads chan]. by rewrite Hrecv. }
    destruct (IH c2 k n rest (got + 1)) as (H1 & H2 & H3 & H4 & H5);
      [| done | lia |].
    { subst c2. cbn [cthreads]. apply list_lookup_insert_eq.
      by eapply lookup_lt_Some. }
    rewrite H1, H2, H3, H4. subst c2. cbn [cthreads cwg cmainq cout].
    by rewrite list_insert_insert_eq.
Qed.

Lemma run_thread1 pre : ∀ c k,
  cthreads c !! k = Some (pre ++ [ADone], 0) → Forall quiet pre →
  live (chan c) →
  let c' := exec1 (mjoin (feed k <$> (pre ++ [ADone]))) c in
  cthreads c' = <[k := ([], 0)]> (cthreads c) ∧ cwg c' = cwg c - 1 ∧
  cmainq c' = cmainq c ∧ cout c' = cout c ∧ live (chan c').
Proof.
  induction pre as [|a pre IH]; intros c k Hk Hq Hl c'; subst c'.
  - cbn [app fmap list_fmap feed]. rewrite mjoin_cons. cbn [mjoin list_join app].
    rewrite exec1_cons. cbn [exec1 foldl step1]. unfold step_thread1.
    rewrite Hk. cbn [cthreads cwg cmainq cout chan]. done.
  - apply Forall_cons in Hq as [Ha Hq].
    rewrite <- app_comm_cons in Hk |- *.
    rewrite fmap_cons, mjoin_cons, exec1_app.
    assert (Hstep : ∃ c1,
      exec1 (feed k a) c = c1 ∧
      cthreads c1 = <[k := (pre ++ [ADone], 0)]> (cthreads c) ∧
      cwg c1 = cwg c ∧ cmainq c1 = cmainq c ∧ cout c1 = cout c ∧
      live (chan c1)).
    { destruct a; try done.
      - cbn [quiet] in Ha. cbn [feed].
        destruct (wait_loop (Z.to_nat n) c k n (pre ++ [ADone]) 0 Hk Hl)
          as (H1 & H2 & H3 & H4 & H5); [lia|].
        eexists. split; [done|]. done.
      - eexists. split; [done|]. cbn [feed exec1 foldl step1].
        unfold step_thread1. rewrite Hk.
        cbn [cthreads cwg cmainq cout chan]. done.
      - eexists. split; [done|]. cbn [feed exec1 foldl step1].
        unfold step_thread1. rewrite Hk.
        cbn [cthreads cwg cmainq cout chan]. done.
      - eexists. split; [done|]. cbn [feed exec1 foldl step1].
        unfold step_thread1. rewrite Hk.
        cbn [cthreads cwg cmainq cout chan]. done. }
    destruct Hstep as (c1 & -> & H1 & H2 & H3 & H4 & H5).
    destruct (IH c1 k) as (I1 & I2 & I3 & I4 & I5); [|done|done|].
    { rewrite H1. apply list_lookup_insert_eq. by eapply lookup_lt_Some. }
    rewrite I1, I2, I3, I4, H1, H2, H3, H4.
    by rewrite list_insert_insert_eq.
Qed.

Lemma spawn_all1 ps : ∀ c tail,
  cmainq c = (MSpawn <$> ps) ++ tail →
  exec1 (replicate (length ps) QMain) c
  = {| cworld := cworld c; cout := cout c; chan := chan c;
       cwg := cwg c + Z.of_nat (length ps); cmainq := tail;
       cthreads := cthreads c ++ ((λ p, (p, 0)) <$> ps) |}.
Proof.
  induction ps as [|p ps IH]; intros c tail Hq.
  - destruct c as [w o r g q ts]. cbn in *. subst q.
    f_equal; [lia|by rewrite app_nil_r].
  - cbn [length replicate]. rewrite exec1_cons. cbn [step1].
    assert (step_main1 c
            = {| cworld := cworld c; cout := cout c; chan := chan c;
                 cwg := cwg c + 1; cmainq := (MSpawn <$> ps) ++ tail;
                 cthreads := cthreads c ++ [(p, 0)] |}) as ->.
    { unfold step_main1. by rewrite Hq. }
    rewrite (IH _ tail) by done. cbn [cworld cout chan cwg cthreads].
    f_equal; [lia|by rewrite fmap_cons, <- app_assoc].
Qed.

Lemma run_all1 ps : ∀ done c,
  cthreads c = done ++ ((λ p, (p, 0)) <$> ps) → Forall whole ps →
  live (chan c) →
  let c' := exec1 (mjoin (imap (λ k p, mjoin (feed (length done + k) <$> p))
                            ps)) c in
  cthreads c' = done ++ replicate (length ps) ([], 0) ∧
  cwg c' = cwg c - Z.of_nat (length ps) ∧
  cmainq c' = cmainq c ∧ cout c' = cout c.
Proof.
  induction ps as [|p ps IH]; intros done c Hts Hw Hr c'; subst c'.
  - cbn. rewrite Hts. repeat split; lia.
  - apply Forall_cons in Hw as [(pre & -> & Hq) Hw].
    rewrite imap_cons, mjoin_cons, exec1_app.
    destruct (run_thread1 pre c (length done + 0))
      as (H1 & H2 & H3 & H4 & H5); [|done|done|].
    { rewrite Hts, fmap_cons. by apply list_lookup_middle. }
    set (c1 := exec1 _ c) in *.
    rewrite Hts, fmap_cons, insert_app_r in H1.
    cbn [insert list_insert] in H1.
    destruct (IH (done ++ [([], 0)]) c1) as (I1 & I2 & I3 & I4);
      [|done|done|].
    { rewrite H1. by rewrite <- app_assoc. }
    erewrite (imap_ext _ (λ k p0, mjoin (feed (length (done ++ [([], 0)]) + k)
                                           <$> p0))).
    2: { intros i x _. cbn. rewrite length_app. cbn. do 3 f_equal. lia. }
    rewrite I1, I2, I3, I4, H2, H3, H4. cbn [length replicate].
    rewrite <- app_assoc. repeat split; try done. lia.
Qed.

Lemma round_finishes1 c ps :
  cthreads c = [] → cmainq c = (MSpawn <$> ps) ++ epilogue (cout c) →
  cwg c = 0 → Forall whole ps → live (chan c) →
  finished1 (exec1 (roundSchedule1 c) c).
Proof.
  intros Hts Hq Hwg Hw Hr. unfold roundSchedule1.
  rewrite Hq, unlaunched_spawns.
  change (unlaunched (epilogue _)) with (@nil (list Act)).
  rewrite app_nil_r, Hts, !exec1_app, (spawn_all1 ps c _ Hq).
  set (c1 := {| cworld := cworld c |}).
  destruct (run_all1 ps [] c1) as (H1 & H2 & H3 & H4);
    [by subst c1; rewrite Hts|done|done|].
  cbn [length Nat.add] in *.
  set (c2 := exec1 _ c1) in *.
  unfold finished1. cbn [exec1 foldl step1]. unfold step_main1 at 2.
  rewrite H3. subst c1. cbn [cmainq cwg] in *. unfold epilogue.
  rewrite H2, Hwg.
  replace (0 + Z.of_nat (length ps) - Z.of_nat (length ps) =? 0) with true
    by (symmetry; apply Z.eqb_eq; lia).
  done.
Qed.

Lemma programs_converging env url threads data c :
  Planner.fits (Z.of_nat (length data)) threads →
  (∀ start end_, 0 <= start <= end_ → end_ < Z.of_nat (length data) →
                 exact_exchange data start end_ (get env url start end_)) →
  Run.threads c = [] →
  unlaunched (mainq c)
  = programs env url (Planner.spec_ranges (Z.of_nat (length data)) threads) →
  fs (world c) !! out c
  = Some (replicate (Z.to_nat (Z.of_nat (length data))) x00) →
  converging data c.
Proof.
  intros Hfit Hget Hts Hq Hfs.
  destruct Hfit as (HN & Ht & Hmax1 & Hmax2).
  destruct (spec_ranges_partition _ _ HN Ht) as (Hcont & _ & _ & Hend & _).
  set (N := Z.of_nat (length data)) in *.
  assert (HNmax : N <= Int64.max_int) by lia.
  exists (replicate (Z.to_nat N) x00). split; [done|].
  split; [rewrite length_replicate; lia|].
  unfold pending. rewrite Hts, Hq. cbn [app]. unfold programs. split.
  - apply Forall_fmap, Forall_forall. intros z Hz.
    destruct (spec_ranges_bounds _ _ _ HN Ht Hz) as [H1 H2].
    destruct (exact_fetcher data z.1 z.2 (get env url z.1 z.2))
      as [Hgood _]; try done. apply Hget; [done|lia].
  - intros i Hi. right.
    destruct (contiguous_covers _ 0 (N - 1) (Z.of_nat i) Hcont Hend)
      as (z & Hz & Hin); [lia|].
    destruct (spec_ranges_bounds _ _ _ HN Ht Hz) as [H1 H2].
    apply Exists_fmap, Exists_exists. exists z. split; [done|].
    destruct (exact_fetcher data z.1 z.2 (get env url z.1 z.2))
      as [_ Hcov]; try done; [apply Hget; [done|lia]|].
    apply Hcov. lia.
Qed.

Lemma launch_live limitMB ch :
  NewChanLimiter (Int64.mul (Int64.mul limitMB 1024) 1024) = Some ch →
  1 <= Int64.mul (Int64.mul limitMB 1024) 1024 → live ch.
Proof.
  unfold NewChanLimiter. destruct (_ <? 0); [done|]. intros [= <-] Hcap.
  unfold live. cbn [capacity queued]. lia.
Qed.

Lemma launch_finishes env url threads limitMB w l :
  APS1.main_start env url threads limitMB w = inr l →
  1 <= Int64.mul (Int64.mul limitMB 1024) 1024 →
  finished1 (exec1 (roundSchedule1 (launch l)) (launch l)).
Proof.
  intros Hstart Hcap.
  pose proof (launch_sound _ _ _ _ _ _ (NewRateLimiter 0 0) Hstart) as Hs.
  destruct (start1_shape _ _ _ _ _ _ Hstart)
    as (fileSize & cs & n & _ & _ & _ & _ & Hout & Hf & Hch & _).
  apply (round_finishes1 _ (APS1.fetchers l)); try done.
  - pose proof Hs as (_ & Hw & _).
    cbn [skeleton mainq launch cmainq] in Hw.
    by rewrite unlaunched_spawns, app_nil_r in Hw.
  - by apply (launch_live limitMB).
Qed.

(** X20: [main] of APS1 once its goroutines exist. Under every order in
    which the main goroutine, the fetchers and the sends of the ticker
    move, when [main] has returned every fetcher has finished, the counter
    of the wait group is 0 and the last log line is the completion message
    with [path.Base(url)]; and when the byte rate is at least 1 there is a
    schedule under which [main] returns. *)
Theorem aps1_run_completes env url threads limitMB w l :
  APS1.main_start env url threads limitMB w = inr l →
  (∀ sched,
     finished1 (exec1 sched (launch l)) →
     Forall (λ t, t.1 = []) (cthreads (exec1 sched (launch l))) ∧
     cwg (exec1 sched (launch l)) = 0 ∧
     last (log (cworld (exec1 sched (launch l))))
     = Some (LCompleted (fileNameAPS1 url))) ∧
  (1 <= Int64.mul (Int64.mul limitMB 1024) 1024 →
   finished1 (exec1 (roundSchedule1 (launch l)) (launch l))).
Proof.
  intros Hstart.
  set (r := NewRateLimiter 0 0).
  pose proof (launch_sound _ _ _ _ _ _ r Hstart) as Hs.
  destruct (start1_shape _ _ _ _ _ _ Hstart)
    as (fileSize & cs & n & _ & _ & _ & _ & Hout & Hf & Hch & _).
  split.
  - intros sched Hfin.
    pose proof (skeleton_exec sound (λ _ _ H, H) step_sound sched _ r Hs)
      as Hs'.
    destruct (sound_finished _ Hs' Hfin) as (Hnil & Hwg & Hlast).
    pose proof (skeleton_exec (λ c, out c = fileNameAPS1 url)
                  (λ _ _ H, H)
                  (λ p c H, eq_trans (step_out p c) H) sched (launch l) r Hout)
      as Ho.
    cbn [skeleton Run.threads wg world out] in Hnil, Hwg, Hlast, Ho.
    split; [by apply Forall_fmap in Hnil|]. split; [done|].
    by rewrite Hlast, Ho.
  - by apply (launch_finishes env url threads limitMB w).
Qed.

(** X21: APS1 end to end. For a server with range support that answers
    every ranged request with exactly the requested bytes, when nothing
    fails, the length is at most 2^62 bytes, the thread count is between 1
    and the length and the byte rate is not negative, [main] launches its
    fetchers; under every schedule, once it has returned, the file named
    [path.Base(url)] holds exactly the source; and a byte rate of at least
    1 is enough for a schedule under which it returns. *)
Theorem aps1_end_to_end env url threads limitMB w data header :
  head env url = Some header →
  Get header "Accept-Ranges" = "bytes" →
  Strconv.ParseInt (Get header "Content-Length")
  = Ok (Z.of_nat (length data)) →
  (∀ start end_, 0 <= start <= end_ → end_ < Z.of_nat (length data) →
                 exact_exchange data start end_ (get env url start end_)) →
  createFails env (fileNameAPS1 url) = false → truncateFails env = false →
  0 < Z.of_nat (length data) <= 2 ^ 62 →
  1 <= threads <= Z.of_nat (length data) →
  0 <= Int64.mul (Int64.mul limitMB 1024) 1024 →
  ∃ l,
    APS1.main_start env url threads limitMB w = inr l ∧
    (∀ sched, finished1 (exec1 sched (launch l)) →
       fs (cworld (exec1 sched (launch l))) !! fileNameAPS1 url = Some data) ∧
    (1 <= Int64.mul (Int64.mul limitMB 1024) 1024 →
     finished1 (exec1 (roundSchedule1 (launch l)) (launch l))).
Proof.
  intros Hh Har Hp Hget Hcreate Htrunc Hlen Hthreads Hcap.
  assert (Hfit : Planner.fits (Z.of_nat (length data)) threads).
  { pose proof (ceil_div_range (Z.of_nat (length data)) threads
                  ltac:(lia) ltac:(lia)).
    unfold Planner.fits, Int64.max_int. lia. }
  pose proof (getFileSize_ok _ _ _ _ Hh Har Hp) as Hsz.
  pose proof (plan_fits _ _ Hfit) as Hplan. unfold Planner.plan in Hplan.
  pose proof (chunkSize_fits _ _ Hfit) as Hcs.
  pose proof (chunks_fits _ _ Hfit) as Hn.
  rewrite Hcs in Hplan. cbn [mbind option_bind] in Hplan.
  rewrite Hn in Hplan. cbn [mbind option_bind] in Hplan.
  injection Hplan as Hranges.
  assert (Hstart : ∃ l, APS1.main_start env url threads limitMB w = inr l).
  { unfold APS1.main_start. cbv zeta. rewrite Hsz, Hcs, Hn, Hcreate, Htrunc.
    destruct (Z.ltb_spec (Z.of_nat (length data)) 0); [lia|]. cbn [orb].
    unfold NewChanLimiter. destruct (_ <? 0) eqn:E; [lia|]. by eexists. }
  destruct Hstart as [l Hstart]. exists l. split; [done|].
  split; [|by apply (launch_finishes env url threads limitMB w)].
  intros sched Hfin.
  set (r := NewRateLimiter 0 0).
  pose proof (launch_sound _ _ _ _ _ _ r Hstart) as Hs.
  destruct (start1_shape _ _ _ _ _ _ Hstart)
    as (fileSize & cs & n & Hsz' & Hcs' & Hn' & _ & Hout & Hf & _ & Hfs).
  rewrite Hsz in Hsz'. injection Hsz' as <-.
  rewrite Hcs in Hcs'. injection Hcs' as <-.
  rewrite Hn in Hn'. injection Hn' as <-.
  rewrite Hranges in Hf.
  assert (Hc : converging data (skeleton r (launch l))).
  { apply (programs_converging env url threads); try done.
    cbn [skeleton launch mainq cmainq].
    rewrite unlaunched_spawns, Hf.
    change (unlaunched [MWait; MLog _]) with (@nil (list Act)).
    by rewrite app_nil_r. }
  pose proof (skeleton_exec sound (λ _ _ H, H) step_sound sched _ r Hs)
    as Hs'.
  destruct (sound_finished _ Hs' Hfin) as (Hnil & _ & _).
  pose proof (skeleton_exec (converging data) (λ _ _ H, H)
                (step_converging data) sched _ r Hc) as Hc'.
  pose proof (converging_done data _ Hc' Hfin Hnil) as Hfile.
  pose proof (skeleton_exec (λ c, out c = fileNameAPS1 url)
                (λ _ _ H, H)
                (λ p c H, eq_trans (step_out p c) H) sched (launch l) r Hout)
    as Ho.
  cbn [skeleton world out] in Hfile, Ho. by rewrite <- Ho.
Qed.

End APS1Run.

Section MoreWitnesses.

Import Http Fetcher Run Inv Limiter Traffic Transfer Main Order Run1.

Lemma fits_10_4 : Planner.fits 10 4.
Proof. repeat split; by vm_compute. Qed.

Lemma size_10 : getFileSize Sample.server Sample.url = Ok 10.
Proof. by vm_compute. Qed.

Lemma fetcher_count_bounded_witness :
  ∃ c0,
    getFileSize Sample.server Sample.url = Ok 10 ∧ Planner.fits 10 4 ∧
    runDownload_start Sample.server 0 Sample.url 4 1 Sample.world0 = inr c0 ∧
    ∃ cs n, Planner.chunkSize 10 4 = Some cs ∧
            Planner.chunks 10 cs = Some n ∧
            1 <= n <= 4 ∧
            length (unlaunched (mainq c0)) = Z.to_nat n.
Proof.
  eexists. split; [exact size_10|]. split; [exact fits_10_4|].
  split; [vm_compute; reflexivity|].
  apply (fetcher_count_bounded Sample.server 0 Sample.url 4 1 Sample.world0
           _ 10 size_10 fits_10_4).
  vm_compute. reflexivity.
Defined.

Lemma chunk_lengths_witness :
  Planner.fits 10 4 ∧
  ∃ cs n l,
    Planner.chunkSize 10 4 = Some cs ∧ Planner.chunks 10 cs = Some n ∧
    Planner.plan 10 4 = Some l ∧ length l = Z.to_nat n ∧
    1 <= cs ∧ (n - 1) * cs < 10 <= n * cs ∧
    ∀ i c, l !! i = Some c →
      c.1 = Z.of_nat i * cs ∧
      1 <= Planner.chunk_len c <= cs ∧
      (Z.of_nat i < n - 1 → Planner.chunk_len c = cs) ∧
      (Z.of_nat i = n - 1 → Planner.chunk_len c = 10 - (n - 1) * cs).
Proof.
  split; [exact fits_10_4|]. exact (chunk_lengths 10 4 fits_10_4).
Defined.

Lemma plan_panics_iff_empty_witness :
  0 <= 0 ∧ 0 < 3 <= Int64.max_int ∧ 0 + 3 - 1 <= Int64.max_int ∧
  (Planner.plan 0 3 = None ↔ 0 = 0).
Proof.
  assert (H1 : 0 <= 0) by lia.
  assert (H2 : 0 < 3 <= Int64.max_int) by (split; by vm_compute).
  assert (H3 : 0 + 3 - 1 <= Int64.max_int) by by vm_compute.
  split; [exact H1|]. split; [exact H2|]. split; [exact H3|].
  exact (plan_panics_iff_empty 0 3 H1 H2 H3).
Defined.

Lemma getFileName_slash_witness :
  let u := {| Path := "/file.bin"; Query := {[ "format" := ["zip"%string] ]} |} in
  url_Parse Sample.zipped Sample.url = Some u ∧
  (Path.slash ∈ Path.chars (getFileName Sample.zipped Sample.url) ↔
   Path.Base (Path u) = "/" ∨
   Path.slash ∈ Path.chars (Get (Query u) "format")).
Proof.
  intros u. split; [reflexivity|].
  exact (getFileName_slash Sample.zipped Sample.url u eq_refl).
Defined.

Lemma polls_budget_witness :
  let rl := NewRateLimiter 0 100 in
  let l := [(1, 0, 60); (2, 30, 60); (3, 500, 60); (4, 0, 60)] in
  let rl' := {| bytesPerSec := 100; tokens := 40; lastRefill := 3 |} in
  0 <= tokens rl <= bytesPerSec rl ∧
  Forall (λ p, 0 <= p.2 ∧ Z.max 0 p.1.2 + bytesPerSec rl <= Int64.max_int) l ∧
  polls l rl = (rl', 180) ∧
  0 <= 180 ∧
  180 + tokens rl' <= tokens rl + credit l ∧
  0 <= tokens rl' <= bytesPerSec rl ∧ bytesPerSec rl' = bytesPerSec rl.
Proof.
  intros rl l rl'.
  assert (H1 : 0 <= tokens rl <= bytesPerSec rl) by (split; by vm_compute).
  assert (H2 : Forall (λ p, 0 <= p.2 ∧
                            Z.max 0 p.1.2 + bytesPerSec rl <= Int64.max_int) l)
    by (subst l rl; repeat constructor; by vm_compute).
  assert (H3 : polls l rl = (rl', 180)) by by vm_compute.
  split; [exact H1|]. split; [exact H2|]. split; [exact H3|].
  exact (polls_budget l rl rl' 180 H1 H2 H3).
Defined.

Lemma oversized_wait_blocks_witness :
  let rl := NewRateLimiter 0 100 in
  Int64.in_range (tokens rl) ∧ tokens rl <= bytesPerSec rl ∧
  bytesPerSec rl < 16 * 1024 ∧
  Wait [(1, 50); (2, 5000); (3, 100000)] (16 * 1024) rl = None.
Proof.
  intros rl.
  assert (H1 : Int64.in_range (tokens rl)) by (split; by vm_compute).
  assert (H2 : tokens rl <= bytesPerSec rl) by by vm_compute.
  assert (H3 : bytesPerSec rl < 16 * 1024) by by vm_compute.
  split; [exact H1|]. split; [exact H2|]. split; [exact H3|].
  exact (oversized_wait_blocks _ (16 * 1024) rl H1 H2 H3).
Defined.

Lemma WaitChan_returns_iff_witness :
  let rl := {| capacity := 5; queued := 3 |} in
  0 <= queued rl ∧
  (is_Some (WaitChan 2 rl) ↔ Z.of_nat 2 <= queued rl) ∧
  (∀ rl', WaitChan 2 rl = Some rl' →
          capacity rl' = capacity rl ∧
          queued rl' = queued rl - Z.of_nat 2 ∧ 0 <= queued rl').
Proof.
  intros rl. assert (H : 0 <= queued rl) by by vm_compute.
  split; [exact H|]. exact (WaitChan_returns_iff 2 rl H).
Defined.

Lemma ticker_fills_channel_witness :
  let rl := {| capacity := 4; queued := 0 |} in
  NewChanLimiter 4 = Some rl ∧
  (∀ n, (0 < n)%nat → WaitChan n rl = None) ∧
  (∀ held, capacity held = 4 → 0 <= queued held <= 4 →
     ticker_round held = {| capacity := 4; queued := 4 |} ∧
     ticker_round held = tick held ∧
     ∀ n, Z.of_nat n <= 4 →
          WaitChan n (ticker_round held)
          = Some {| capacity := 4; queued := 4 - Z.of_nat n |}).
Proof.
  intros rl. split; [reflexivity|].
  exact (ticker_fills_channel 4 rl eq_refl).
Defined.

Lemma traffic_budget_witness :
  let rl := {| capacity := 2; queued := 0 |} in
  let ops := [OpRecv; OpSend; OpSend; OpSend; OpRecv; OpRecv; OpRecv] in
  let rl' := {| capacity := 2; queued := 0 |} in
  0 <= queued rl <= capacity rl ∧
  traffic ops rl = (rl', 2) ∧
  0 <= 2 ∧ 2 + queued rl' <= queued rl + sends ops ∧
  0 <= queued rl' <= capacity rl ∧ capacity rl' = capacity rl.
Proof.
  intros rl ops rl'.
  assert (H1 : 0 <= queued rl <= capacity rl) by (split; by vm_compute).
  assert (H2 : traffic ops rl = (rl', 2)) by by vm_compute.
  split; [exact H1|]. split; [exact H2|].
  exact (traffic_budget ops rl rl' 2 H1 H2).
Defined.

Lemma clean_transfer_bill_witness :
  let body := {| payload := [x01; x02]; short := []; broken := false;
                 eager := true |} in
  let x := {| reqFails := false; response := Some body; disk := None |} in
  let len := Z.of_nat (length (payload body)) in
  let last := if eager body && (0 <? len) then 0 else 1 in
  reqFails x = false ∧ response x = Some body ∧
  disk x = None ∧ short body = [] ∧ broken body = false ∧
  0 <= 0 ∧ 0 + Z.of_nat (length (payload body)) <= Int64.max_int ∧
  reads (downloadChunk x 0 1)
  = Planner.ceil_div len (16 * 1024) + last ∧
  tokens_taken (downloadChunk x 0 1)
  = 16 * 1024 * (Planner.ceil_div len (16 * 1024) + last) ∧
  bytes_obtained (downloadChunk x 0 1) = len ∧
  ALog (LChunkDone 0 1) ∈ downloadChunk x 0 1.
Proof.
  intros body x len last.
  assert (H6 : 0 <= 0) by lia.
  assert (H7 : 0 + Z.of_nat (length (payload body)) <= Int64.max_int)
    by by vm_compute.
  split; [reflexivity|]. split; [reflexivity|]. split; [reflexivity|].
  split; [reflexivity|]. split; [reflexivity|]. split; [exact H6|].
  split; [exact H7|].
  exact (clean_transfer_bill x 0 1 body eq_refl eq_refl eq_refl
           eq_refl eq_refl H6 H7).
Defined.

Lemma run_touches_only_output_witness :
  "notes.txt" ≠ getFileName Sample.server Sample.url ∧
  ∀ sched w,
    let w' := world_at (runDownload Sample.server 0 Sample.url 4 1 sched w) in
    fs w' !! "notes.txt" = fs w !! "notes.txt" ∧ log w `prefix_of` log w'.
Proof.
  assert (H : "notes.txt" ≠ getFileName Sample.server Sample.url)
    by (by vm_compute).
  split; [exact H|]. intros sched w.
  exact (run_touches_only_output Sample.server 0 Sample.url 4 1 sched w
           "notes.txt" H).
Defined.

Lemma starved_run_hangs_witness :
  let body := {| payload := [x01; x02; x03]; short := [2%nat; 0%nat];
                 broken := false; eager := false |} in
  ∃ c0,
    runDownload_start Sample.server 0 Sample.url 4 (2 ^ 44) Sample.world0
    = inr c0 ∧
    getFileSize Sample.server Sample.url = Ok 10 ∧ Planner.fits 10 4 ∧
    (0, 2) ∈ Planner.spec_ranges 10 4 ∧
    reqFails (get Sample.server Sample.url 0 2) = false ∧
    response (get Sample.server Sample.url 0 2) = Some body ∧
    Int64.mul (Int64.mul (2 ^ 44) 1024) 1024 < 16 * 1024 ∧
    ∀ sched,
      ¬ finished (exec sched c0) ∧
      runDownload Sample.server 0 Sample.url 4 (2 ^ 44) sched Sample.world0
      = Stuck (exec sched c0).
Proof.
  intros body.
  assert (Hin : (0, 2) ∈ Planner.spec_ranges 10 4)
    by (vm_compute; apply list_elem_of_here).
  assert (Hresp : response (get Sample.server Sample.url 0 2) = Some body)
    by by vm_compute.
  assert (Hcap : Int64.mul (Int64.mul (2 ^ 44) 1024) 1024 < 16 * 1024)
    by by vm_compute.
  eexists. split; [vm_compute; reflexivity|].
  split; [exact size_10|]. split; [exact fits_10_4|]. split; [exact Hin|].
  split; [reflexivity|]. split; [exact Hresp|]. split; [exact Hcap|].
  apply (starved_run_hangs Sample.server 0 Sample.url 4 (2 ^ 44)
           Sample.world0 _ 10 0 2 body);
    [vm_compute; reflexivity|exact size_10|exact fits_10_4|exact Hin
    |reflexivity|exact Hresp|exact Hcap].
Defined.

Lemma flaky_within s e body :
  (s, e) ∈ Planner.spec_ranges 10 4 →
  response (get Sample.flaky Sample.url s e) = Some body →
  Z.of_nat (length (payload body)) <= e - s + 1.
Proof.
  intros Hin.
  assert (Hl : Planner.spec_ranges 10 4 = [(0, 2); (3, 5); (6, 8); (9, 9)])
    by by vm_compute.
  rewrite Hl in Hin.
  repeat (apply elem_of_cons in Hin as [[= -> ->]|Hin];
          [by intros [= <-]|]).
  by apply elem_of_nil in Hin.
Qed.

Lemma completion_order_irrelevant_witness :
  ∃ c0,
    runDownload_start Sample.flaky 0 Sample.url 4 1 Sample.world0 = inr c0 ∧
    getFileSize Sample.flaky Sample.url = Ok 10 ∧ Planner.fits 10 4 ∧
    (∀ s e body, (s, e) ∈ Planner.spec_ranges 10 4 →
       response (get Sample.flaky Sample.url s e) = Some body →
       Z.of_nat (length (payload body)) <= e - s + 1) ∧
    let E := settle (unlaunched (mainq c0)) (replicate (Z.to_nat 10) x00) in
    length E = Z.to_nat 10 ∧
    ∀ sched, finished (exec sched c0) →
             fs (world (exec sched c0)) !! getFileName Sample.flaky Sample.url
             = Some E.
Proof.
  assert (Hsize : getFileSize Sample.flaky Sample.url = Ok 10)
    by by vm_compute.
  eexists. split; [vm_compute; reflexivity|]. split; [exact Hsize|].
  split; [exact fits_10_4|]. split; [exact flaky_within|].
  apply (completion_order_irrelevant Sample.flaky 0 Sample.url 4 1
           Sample.world0 _ 10);
    [vm_compute; reflexivity|exact Hsize|exact fits_10_4|exact flaky_within].
Defined.

Example main_completes :
  ∃ s total,
    main Cases.args (λ _, Cases.round Sample.server 4) Cases.state0
    = Completed s total ∧
    files s = files Cases.state0 ∧ total = 150 ∧
    last (lines s) = Some (LAverage 5).
Proof. do 2 eexists. split; [vm_compute; reflexivity|]. by vm_compute. Qed.


(** When every [os.Remove] fails, [main] completes all the same and the
    download of the last run stays in the directory. *)
Example main_leaves_download :
  ∃ s total,
    main Cases.args (λ _, Cases.sticky Sample.server 4) Cases.state0
    = Completed s total ∧
    files s = <["file.bin" := Sample.data]> (files Cases.state0) ∧
    last (lines s) = Some (LAverage 5).
Proof. do 2 eexists. split; [vm_compute; reflexivity|]. by vm_compute. Qed.

Lemma main_panics_only_on_empty_witness :
  ∃ s',
    main ["downloader"; Sample.url; "3"; "1"]
      (λ _, Cases.round Sample.hollow 3) Cases.state0 = Panic s' ∧
    ∃ url arg2 threads i fileSize,
      ["downloader"; Sample.url; "3"; "1"] !! 1%nat = Some url ∧
      ["downloader"; Sample.url; "3"; "1"] !! 2%nat = Some arg2 ∧
      Strconv.ParseInt arg2 = Ok threads ∧ 0 < threads ∧
      (i < runs)%nat ∧
      getFileSize (server (Cases.round Sample.hollow 3)) url = Ok fileSize ∧
      Planner.chunkSize fileSize threads = Some 0 ∧
      (0 <= fileSize → fileSize + threads - 1 <= Int64.max_int →
       fileSize = 0).
Proof.
  eexists. split; [vm_compute; reflexivity|].
  eapply (main_panics_only_on_empty ["downloader"; Sample.url; "3"; "1"]
            (λ _, Cases.round Sample.hollow 3) Cases.state0).
  vm_compute. reflexivity.
Defined.

Lemma aps1_unvalidated_inputs_witness :
  getFileSize Sample.server Sample.url = Ok 10 ∧ Planner.fits 10 4 ∧
  createFails Sample.server (fileNameAPS1 Sample.url) = false ∧
  truncateFails Sample.server = false ∧
  (∃ w', APS1.main_start Sample.server Sample.url 0 (-1) Sample.world0
         = inl (Panicked w') ∧
         fs w' = fs Sample.world0 ∧ last (log w') = Some (LSize 10)) ∧
  (∃ w', APS1.main_start Sample.server Sample.url 4 (-1) Sample.world0
         = inl (Panicked w') ∧
         fs w' = <[fileNameAPS1 Sample.url := replicate (Z.to_nat 10) x00]>
                   (fs Sample.world0)) ∧
  (∃ l, APS1.main_start Sample.server Sample.url 4 0 Sample.world0 = inr l ∧
        length (APS1.fetchers l)
        = Z.to_nat (Planner.ceil_div 10 (Planner.ceil_div 10 4)) ∧
        ∀ k n, (0 < n)%nat →
               WaitChan n (Nat.iter k ticker_round (APS1.limiter l)) = None).
Proof.
  assert (Hneg : - 2 ^ 43 <= -1 < 0) by lia.
  split; [exact size_10|]. split; [exact fits_10_4|].
  split; [reflexivity|]. split; [reflexivity|].
  destruct (aps1_unvalidated_inputs Sample.server Sample.url 4 (-1)
              Sample.world0 10 size_10 fits_10_4 eq_refl eq_refl)
    as (H1 & H2 & H3 & _).
  destruct (aps1_unvalidated_inputs Sample.server Sample.url 4 0
              Sample.world0 10 size_10 fits_10_4 eq_refl eq_refl)
    as (_ & _ & _ & H4).
  split; [exact H1|]. split; [exact (H2 (H3 Hneg))|]. exact (H4 eq_refl).
Defined.

Lemma pair_trace :
  downloadChunk Sample.pair 0 1
  = [ALog (LChunkStart 0 1); AWriteAt 0 [] 0; AWait (Z.of_nat quantum);
     ARead quantum [x01; x02] None; AWriteAt 0 [x01; x02] 2;
     AWait (Z.of_nat quantum); ARead quantum [] (Some EOF)]
    ++ [ALog (LChunkDone 0 1); ADone].
Proof. by vm_compute. Qed.

Lemma pair_done : ALog (LChunkDone 0 1) ∈ downloadChunk Sample.pair 0 1.
Proof.
  rewrite pair_trace. apply elem_of_app. right. apply list_elem_of_here.
Qed.

Lemma fetcher_writes_prefix_witness :
  ALog (LChunkDone 0 1) ∈ downloadChunk Sample.pair 0 1 ∧
  ∃ body, reqFails Sample.pair = false ∧ response Sample.pair = Some body ∧
          broken body = false ∧ 0 <= 0 ∧
          landed (writes (downloadChunk Sample.pair 0 1)) = payload body ∧
          Forall (λ w, w.2 = length w.1.2)
            (writes (downloadChunk Sample.pair 0 1)).
Proof.
  split; [exact pair_done|].
  exact (proj2 (proj2 (fetcher_writes_prefix Sample.pair 0 1)) pair_done).
Defined.

Lemma prompt_trace :
  downloadChunk Sample.prompt 0 2
  = [ALog (LChunkStart 0 2); AWriteAt 0 [] 0; AWait (Z.of_nat quantum);
     ARead quantum [x01; x02] None; AWriteAt 0 [x01; x02] 2;
     AWait (Z.of_nat quantum); ARead quantum [x03] (Some EOF);
     AWriteAt 2 [x03] 1]
    ++ [ALog (LChunkDone 0 2); ADone].
Proof. by vm_compute. Qed.

Lemma prompt_done : ALog (LChunkDone 0 2) ∈ downloadChunk Sample.prompt 0 2.
Proof.
  rewrite prompt_trace. apply elem_of_app. right. apply list_elem_of_here.
Qed.

Lemma fetcher_token_bill_witness :
  ALog (LChunkDone 0 2) ∈ downloadChunk Sample.prompt 0 2 ∧
  ∃ body, response Sample.prompt = Some body ∧
          bytes_obtained (downloadChunk Sample.prompt 0 2)
          = Z.of_nat (length (payload body)) ∧
          (eager body = false →
           bytes_obtained (downloadChunk Sample.prompt 0 2) + 16 * 1024
           <= tokens_taken (downloadChunk Sample.prompt 0 2)).
Proof.
  split; [exact prompt_done|].
  exact (proj2 (proj2 (proj2 (fetcher_token_bill Sample.prompt 0 2)))
           prompt_done).
Defined.

(** With [io.EOF] delivered with the last bytes, a downloaded chunk of
    three bytes costs two reads, and the tokens of two. *)
Example prompt_bill :
  reads (downloadChunk Sample.prompt 0 2) = 2 ∧
  tokens_taken (downloadChunk Sample.prompt 0 2) = 2 * (16 * 1024) ∧
  bytes_obtained (downloadChunk Sample.prompt 0 2) = 3.
Proof. by vm_compute. Qed.

Example aps1_sample_run :
  match APS1.main_start Sample.server Sample.url 4 1 Sample.world0 with
  | inr l =>
      let c := exec1 (roundSchedule1 (launch l)) (launch l) in
      cmainq c = [] ∧
      fs (cworld c) !! "file.bin" = Some Sample.data ∧
      queued (chan c) = 0
  | inl _ => False
  end.
Proof. by vm_compute. Qed.

Lemma aps1_run_completes_witness :
  ∃ l,
    APS1.main_start Sample.flaky Sample.url 4 1 Sample.world0 = inr l ∧
    (∀ sched,
       finished1 (exec1 sched (launch l)) →
       Forall (λ t, t.1 = []) (cthreads (exec1 sched (launch l))) ∧
       cwg (exec1 sched (launch l)) = 0 ∧
       last (log (cworld (exec1 sched (launch l))))
       = Some (LCompleted (fileNameAPS1 Sample.url))) ∧
    (1 <= Int64.mul (Int64.mul 1 1024) 1024 →
     finished1 (exec1 (roundSchedule1 (launch l)) (launch l))).
Proof.
  eexists. split; [vm_compute; reflexivity|].
  apply (aps1_run_completes Sample.flaky Sample.url 4 1 Sample.world0).
  vm_compute. reflexivity.
Defined.

Lemma aps1_end_to_end_witness :
  head Sample.server Sample.url = Some (Sample.header "10") ∧
  Get (Sample.header "10") "Accept-Ranges" = "bytes" ∧
  Strconv.ParseInt (Get (Sample.header "10") "Content-Length")
  = Ok (Z.of_nat (length Sample.data)) ∧
  (∀ start end_, 0 <= start <= end_ → end_ < Z.of_nat (length Sample.data) →
     exact_exchange Sample.data start end_
       (get Sample.server Sample.url start end_)) ∧
  createFails Sample.server (fileNameAPS1 Sample.url) = false ∧
  truncateFails Sample.server = false ∧
  0 < Z.of_nat (length Sample.data) <= 2 ^ 62 ∧
  1 <= 4 <= Z.of_nat (length Sample.data) ∧
  0 <= Int64.mul (Int64.mul 1 1024) 1024 ∧
  ∃ l,
    APS1.main_start Sample.server Sample.url 4 1 Sample.world0 = inr l ∧
    (∀ sched, finished1 (exec1 sched (launch l)) →
       fs (cworld (exec1 sched (launch l))) !! fileNameAPS1 Sample.url
       = Some Sample.data) ∧
    (1 <= Int64.mul (Int64.mul 1 1024) 1024 →
     finished1 (exec1 (roundSchedule1 (launch l)) (launch l))).
Proof.
  destruct sample_faithful as ((header & Hh & Har & Hp) & Hget & _ & _).
  injection Hh as <-.
  assert (H7 : 0 < Z.of_nat (length Sample.data) <= 2 ^ 62) by (simpl; lia).
  assert (H8 : 1 <= 4 <= Z.of_nat (length Sample.data)) by (simpl; lia).
  assert (H9 : 0 <= Int64.mul (Int64.mul 1 1024) 1024) by by vm_compute.
  split; [reflexivity|]. split; [exact Har|]. split; [exact Hp|].
  split; [exact Hget|]. split; [reflexivity|]. split; [reflexivity|].
  split; [exact H7|]. split; [exact H8|]. split; [exact H9|].
  exact (aps1_end_to_end Sample.server Sample.url 4 1 Sample.world0
           Sample.data (Sample.header "10") eq_refl Har Hp Hget eq_refl
           eq_refl H7 H8 H9).
Defined.

End MoreWitnesses.
